(** * dotenv: parsing, precedence, interpolation and merge of variable sources

    A shallow embedding of the Go program [dotenv] (the version whose
    [main] package defines [parseLax], [parseJsonMap], [substitutevars],
    [bypriority] and [uniqVarsByName]) and the proofs of its properties.

    Conventions of the embedding.
    - A Go [string] is a [string] of bytes.  Go's [regexp] decodes UTF-8,
      but every character class of the patterns below only separates ASCII
      characters from the rest, so matching byte by byte gives the same
      match boundaries on well-formed text.  [strings.TrimSpace] reads its
      text as UTF-8 and trims the white space of [unicode.IsSpace].
    - Go's [regexp] returns the match a backtracking engine finds first
      (leftmost, then by the priorities of [|], [*], [*?]); the matcher below
      is that backtracking engine, written with a success continuation.
    - The process environment, the file system, [encoding/json], the
      [shellwords] tokenizer and the process table are fields of a [world].
    - [debug.Printf] output is not modelled; [warn.Printf] and the line
      written to standard error are events of a log. *)

From Stdlib Require Import Ascii String DecimalString.
From stdpp Require Import base option list strings gmap sorting.

Local Open Scope string_scope.
Local Open Scope list_scope.

(** ** Characters and strings *)

Module Chars.

Definition tab : ascii := "009"%char.
Definition nl : ascii := "010"%char.
Definition vt : ascii := "011"%char.
Definition ff : ascii := "012"%char.
Definition cr : ascii := "013"%char.
Definition bel : ascii := "007"%char.
Definition bs : ascii := "008"%char.
Definition sp : ascii := " "%char.
Definition backslash : ascii := "\"%char.
Definition squote : ascii := "'"%char.
Definition dquote : ascii := "034"%char.

Definition between (lo hi c : ascii) : bool :=
  (nat_of_ascii lo <=? nat_of_ascii c)%nat && (nat_of_ascii c <=? nat_of_ascii hi)%nat.

(** [\s] of RE2: tab, newline, form feed, carriage return, space. *)
Definition is_space (c : ascii) : bool :=
  Ascii.eqb c tab || Ascii.eqb c nl || Ascii.eqb c ff || Ascii.eqb c cr || Ascii.eqb c sp.

(** [[^\S\n]]: white space other than the newline. *)
Definition is_hspace (c : ascii) : bool := is_space c && negb (Ascii.eqb c nl).

(** [\w] of RE2: [[0-9A-Za-z_]]. *)
Definition is_word (c : ascii) : bool :=
  between "0" "9" c || between "A" "Z" c || between "a" "z" c || Ascii.eqb c "_".

(** [[A-Za-z_]] and [[A-Za-z_0-9]] of [identifier]. *)
Definition is_id_start (c : ascii) : bool :=
  between "A" "Z" c || between "a" "z" c || Ascii.eqb c "_".
Definition is_id_char (c : ascii) : bool := is_id_start c || between "0" "9" c.

(** [unicode.IsSpace] on ASCII, used by [strings.TrimSpace]. *)
Definition is_trim_space (c : ascii) : bool := is_space c || Ascii.eqb c vt.

(** [unicode.IsSpace] beyond ASCII, on the bytes of the UTF-8 encoding of
    a character: U+0085 and U+00A0, of two bytes; U+1680, U+2000 to
    U+200A, U+2028, U+2029, U+202F, U+205F and U+3000, of three. *)
Definition is_space2 (a b : ascii) : bool :=
  Ascii.eqb a "194" && (Ascii.eqb b "133" || Ascii.eqb b "160").

Definition is_space3 (a b c : ascii) : bool :=
  Ascii.eqb a "225" && Ascii.eqb b "154" && Ascii.eqb c "128"
  || Ascii.eqb a "226" && Ascii.eqb b "128"
     && (between "128" "138" c || Ascii.eqb c "168" || Ascii.eqb c "169"
         || Ascii.eqb c "175")
  || Ascii.eqb a "226" && Ascii.eqb b "129" && Ascii.eqb c "159"
  || Ascii.eqb a "227" && Ascii.eqb b "128" && Ascii.eqb c "128".

End Chars.

Module Str.

Fixpoint take (n : nat) (s : string) : string :=
  match n, s with
  | S n', String c s' => String c (take n' s')
  | _, _ => ""
  end.

Fixpoint drop (n : nat) (s : string) : string :=
  match n, s with
  | S n', String c s' => drop n' s'
  | _, _ => s
  end.

Definition is_empty (s : string) : bool :=
  match s with "" => true | _ => false end.

Fixpoint rev_onto (s acc : string) : string :=
  match s with
  | "" => acc
  | String c s' => rev_onto s' (String c acc)
  end.

Definition rev (s : string) : string := rev_onto s "".

(** [strings.TrimLeftFunc(s, unicode.IsSpace)]: the white-space characters
    the text begins with are dropped, a character being one ASCII byte or
    the two or three bytes of its UTF-8 encoding.  With [back] the text is
    a reversed one, whose characters have their bytes in reverse order. *)
Fixpoint trim_spaces (back : bool) (s : string) : string :=
  match s with
  | String a s1 =>
      if Chars.is_trim_space a then trim_spaces back s1
      else
        match s1 with
        | String b s2 =>
            if (if back then Chars.is_space2 b a else Chars.is_space2 a b)
            then trim_spaces back s2
            else
              match s2 with
              | String c s3 =>
                  if (if back then Chars.is_space3 c b a else Chars.is_space3 a b c)
                  then trim_spaces back s3
                  else s
              | "" => s
              end
        | "" => s
        end
  | "" => ""
  end.

(** [strings.TrimSpace]: [TrimLeftFunc], then [TrimRightFunc] (the same
    on the reversed text), with [unicode.IsSpace]. *)
Definition TrimSpace (s : string) : string :=
  rev (trim_spaces true (rev (trim_spaces false s))).

(** [strings.SplitN(s, sep, 2)] for a one-character separator: the text
    before the first separator and, when there is one, the text after it. *)
Fixpoint cut (sep : ascii) (s : string) : string * option string :=
  match s with
  | "" => ("", None)
  | String c s' =>
      if Ascii.eqb c sep then ("", Some s')
      else let '(a, b) := cut sep s' in (String c a, b)
  end.

(** [strings.Split(s, sep)] for a one-character separator. *)
Fixpoint split (sep : ascii) (s : string) : list string :=
  match s with
  | "" => [""]
  | String c s' =>
      if Ascii.eqb c sep then "" :: split sep s'
      else match split sep s' with
           | w :: ws => String c w :: ws
           | [] => [String c ""]
           end
  end.

(** The lines [bufio.ScanLines] yields: split at newlines, one trailing
    carriage return dropped from each, no empty line after the last
    newline. *)
Definition drop_cr (l : string) : string :=
  match rev l with
  | String c r => if Ascii.eqb c Chars.cr then rev r else l
  | "" => l
  end.

Fixpoint raw_lines (s : string) : list string :=
  match s with
  | "" => []
  | String c s' =>
      if Ascii.eqb c Chars.nl then "" :: raw_lines s'
      else match raw_lines s' with
           | w :: ws => String c w :: ws
           | [] => [String c ""]
           end
  end.

(** [bufio.MaxScanTokenSize], the size the buffer of a [bufio.Scanner]
    grows to. *)
Definition MaxScanTokenSize : N := 65536.

(** The lines a [bufio.Scanner] gets through: a line has to fit in the
    buffer with the newline that ends it, and a last line without newline
    has to leave room in it; at the first line of [MaxScanTokenSize] bytes
    or more [Scan] returns false, and neither parser looks at
    [scanner.Err()]. *)
Fixpoint scanned (lines : list string) : list string :=
  match lines with
  | [] => []
  | l :: rest =>
      if (N.of_nat (String.length l) <? MaxScanTokenSize)%N
      then l :: scanned rest
      else []
  end.

(** [scanner.Text()] over the calls of [scanner.Scan()] that return true. *)
Definition scan_lines (s : string) : list string :=
  map drop_cr (scanned (raw_lines s)).

End Str.

(** ** Regular expressions *)

Module Re.

Inductive regex : Type :=
| Bot                               (* ^  beginning of the text *)
| Eot                               (* $  end of the text *)
| WordB                             (* \b *)
| Eps
| Chr (c : ascii)
| Cls (p : ascii -> bool)
| Seq (r1 r2 : regex)
| Alt (r1 r2 : regex)
| Star (greedy : bool) (r : regex)
| Grp (i : nat) (r : regex).

Definition Opt (r : regex) : regex := Alt r Eps.                 (* r? *)
Definition Plus (r : regex) : regex := Seq r (Star true r).      (* r+ *)
Definition PlusLazy (r : regex) : regex := Seq r (Star false r). (* r+? *)
Definition Any : regex := Cls (fun _ => true).                   (* (?s:.) *)
Definition Not (p : ascii -> bool) : regex := Cls (fun c => negb (p c)).
Definition NoneOf (cs : list ascii) : regex :=
  Cls (fun c => negb (existsb (Ascii.eqb c) cs)).
Fixpoint Lit (s : string) : regex :=
  match s with
  | "" => Eps
  | String c s' => Seq (Chr c) (Lit s')
  end.

Declare Scope re_scope.
Delimit Scope re_scope with re.
Bind Scope re_scope with regex.
Infix "<+>" := Seq (at level 60, right associativity) : re_scope.
Infix "<|>" := Alt (at level 65, right associativity) : re_scope.

(** Captures: the text of each group that took part in the match, the
    latest first. *)
Definition caps : Type := list (nat * string).

Fixpoint group (i : nat) (c : caps) : string :=
  match c with
  | [] => ""
  | (j, s) :: c' => if Nat.eqb i j then s else group i c'
  end.

Fixpoint ngroups (r : regex) : nat :=
  match r with
  | Seq r1 r2 | Alt r1 r2 => Nat.max (ngroups r1) (ngroups r2)
  | Star _ r' => ngroups r'
  | Grp i r' => Nat.max i (ngroups r')
  | _ => 0
  end.

(** The text between two positions of one string, each given by what
    remains from it on. *)
Definition consumed (s s' : string) : string :=
  Str.take (String.length s - String.length s') s.

Definition at_word_boundary (prev : option ascii) (s : string) : bool :=
  let before := match prev with Some c => Chars.is_word c | None => false end in
  let after := match s with String c _ => Chars.is_word c | "" => false end in
  xorb before after.

Section Matcher.
Context {A : Type}.

(** A continuation receives the character before the position, the rest
  of the text and the captures. *)
Definition cont : Type := option ascii -> string -> caps -> option A.

Section StarLoop.
Variable body : option ascii -> string -> caps -> cont -> option A.
Variable greedy : bool.
Variable k : cont.

(** The iterations of a star; an iteration that consumes nothing is
    not repeated, so [n] above the length of the text is enough. *)
Fixpoint star_loop (n : nat) (prev : option ascii) (s : string) (c : caps)
  : option A :=
  match n with
  | 0 => k prev s c
  | S n' =>
    let again p' s' c' :=
      if (String.length s' <? String.length s)%nat
      then star_loop n' p' s' c' else None in
    if greedy then
      match body prev s c again with
      | Some x => Some x
      | None => k prev s c
      end
    else
      match k prev s c with
      | Some x => Some x
      | None => body prev s c again
      end
  end.
End StarLoop.

Fixpoint rmatch (r : regex) (prev : option ascii) (s : string) (c : caps)
  (k : cont) {struct r} : option A :=
  match r with
  | Bot => match prev with None => k prev s c | Some _ => None end
  | Eot => match s with "" => k prev s c | _ => None end
  | WordB => if at_word_boundary prev s then k prev s c else None
  | Eps => k prev s c
  | Chr a =>
      match s with
      | String b s' => if Ascii.eqb b a then k (Some b) s' c else None
      | "" => None
      end
  | Cls p =>
      match s with
      | String b s' => if p b then k (Some b) s' c else None
      | "" => None
      end
  | Seq r1 r2 => rmatch r1 prev s c (fun p' s' c' => rmatch r2 p' s' c' k)
  | Alt r1 r2 =>
      match rmatch r1 prev s c k with
      | Some x => Some x
      | None => rmatch r2 prev s c k
      end
  | Star g r' => star_loop (rmatch r') g k (S (String.length s)) prev s c
  | Grp i r' =>
      rmatch r' prev s c (fun p' s' c' => k p' s' ((i, consumed s s') :: c'))
  end.
End Matcher.

(** The match of [r] that starts exactly at this position: the rest of
    the text after it, and the captures. *)
Definition match_here (r : regex) (prev : option ascii) (s : string)
  : option (string * caps) :=
  rmatch r prev s [] (fun _ s' c => Some (s', c)).

(** The slice [FindStringSubmatch] returns for a match found at [s]:
    the whole match, then the text of each group (empty for a group
    that took no part). *)
Definition submatches (r : regex) (s : string) (res : string * caps)
  : list string :=
  consumed s (fst res) :: map (fun i => group i (snd res)) (seq 1 (ngroups r)).

(** [r.FindStringSubmatch(s)]: the leftmost match. *)
Fixpoint find_from (r : regex) (prev : option ascii) (s : string)
  : option (list string) :=
  match match_here r prev s with
  | Some res => Some (submatches r s res)
  | None =>
      match s with
      | "" => None
      | String b s' => find_from r (Some b) s'
      end
  end.

Definition FindStringSubmatch (r : regex) (s : string) : option (list string) :=
  find_from r None s.

(** [r.MatchString(s)]. *)
Definition MatchString (r : regex) (s : string) : bool :=
  bool_decide (is_Some (FindStringSubmatch r s)).

(** [r.ReplaceAllStringFunc(s, f)]: every match, from the left and
    without overlap, is replaced by [f] of its text.  [skip] counts the
    characters of the current match still to pass.  None of the patterns
    of this program matches the empty string; an empty match is left alone. *)
Fixpoint replace_from (r : regex) (f : string -> string) (skip : nat)
  (prev : option ascii) (s : string) : string :=
  match skip with
  | S n =>
      match s with
      | "" => ""
      | String b s' => replace_from r f n (Some b) s'
      end
  | 0 =>
      match s with
      | "" => ""
      | String b s' =>
          match match_here r prev s with
          | Some (rest, _) =>
              match String.length s - String.length rest with
              | 0 => String b (replace_from r f 0 (Some b) s')
              | S n => f (consumed s rest) +:+ replace_from r f n (Some b) s'
              end
          | None => String b (replace_from r f 0 (Some b) s')
          end
      end
  end.

Definition ReplaceAllStringFunc (r : regex) (s : string) (f : string -> string)
  : string :=
  replace_from r f 0 None s.

End Re.

(** ** The program *)

Module Dotenv.
Import Re.
Local Open Scope re_scope.

(** *** Patterns

    Each pattern is given with its Go source; where the source has a star
    just before a closing parenthesis, a space is put between the two. *)

(* identifier = `[A-Za-z_][A-Za-z_0-9]*` *)
Definition identifier : regex :=
  Cls Chars.is_id_start <+> Star true (Cls Chars.is_id_char).
(* name = identifier *)
Definition name_re : regex := identifier.
(* assignment = `^` + identifier + `=` *)
Definition assignment : regex := Bot <+> identifier <+> Chr "=".
(* comment = `^\s*#` *)
Definition comment : regex := Bot <+> Star true (Cls Chars.is_space) <+> Chr "#".
(* nonstrict = `^[^\s=]+=` *)
Definition not_space_eq (c : ascii) : bool :=
  negb (Chars.is_space c || Ascii.eqb c "=").
Definition nonstrict : regex := Bot <+> Plus (Cls not_space_eq) <+> Chr "=".

Definition hspace : regex := Cls Chars.is_hspace.                   (* [^\S\n] *)
Definition not_nl : regex := NoneOf [Chars.nl].                     (* [^\n] *)
Definition name_char (c : ascii) : bool :=                          (* [^\s=#] *)
  negb (Chars.is_space c || Ascii.eqb c "=" || Ascii.eqb c "#").
Definition eol : regex := Chr Chars.nl <|> Eot.                     (* \n|$ *)

(* laxID = `^(?:[^\S\n]*export\b)?[^\S\n]*([^\s=#]+)` *)
Definition laxID : regex :=
  Bot <+> Opt (Star true hspace <+> Lit "export" <+> WordB)
      <+> Star true hspace <+> Grp 1 (Plus (Cls name_char)).
(* laxequals = `^[^\S\n]*=[^\S\n]*` *)
Definition laxequals : regex :=
  Bot <+> Star true hspace <+> Chr "=" <+> Star true hspace.
(* laxempty = `^[^\S\n]*(\n|$)` *)
Definition laxempty : regex := Bot <+> Star true hspace <+> Grp 1 eol.
(* laxcomment = `^[^\S\n]*#[^\n]*(\n|$)` *)
Definition laxcomment : regex :=
  Bot <+> Star true hspace <+> Chr "#" <+> Star true not_nl <+> Grp 1 eol.
(* laxtrailer = `^((?s:.)+?)\s+#` *)
Definition laxtrailer : regex :=
  Bot <+> Grp 1 (PlusLazy Any) <+> Plus (Cls Chars.is_space) <+> Chr "#".
(* laxqstart: ^ then group 1 = a single or a double quote *)
Definition laxqstart : regex :=
  Bot <+> Grp 1 (Chr Chars.squote <|> Chr Chars.dquote).
(* laxescaped = `\\(?s:.)` *)
Definition laxescaped : regex := Chr Chars.backslash <+> Any.
(* laxsingleq = `^((?:[^\\']|\\(?s:.))* )'`; laxdoubleq is the same with
   the double quote in place of the single one *)
Definition quote_body (q : ascii) : regex :=
  NoneOf [Chars.backslash; q] <|> Chr Chars.backslash <+> Any.
Definition quoted (q : ascii) : regex :=
  Bot <+> Grp 1 (Star true (quote_body q)) <+> Chr q.
Definition laxsingleq : regex := quoted Chars.squote.
Definition laxdoubleq : regex := quoted Chars.dquote.
(* laxdiscard = `^([^\n]* )(?:\n|$)` *)
Definition laxdiscard : regex := Bot <+> Grp 1 (Star true not_nl) <+> eol.
(* tointerp = `\$\{([^}]+)\}` *)
Definition braced (i : nat) : regex :=
  Chr "{" <+> Grp i (Plus (NoneOf ["}"%char])) <+> Chr "}".
Definition tointerp : regex := Chr "$" <+> braced 1.
(* anyinterp = `\$(?:\{([^}]+)\}|([A-Za-z0-9_.]+))` *)
Definition simple_char (c : ascii) : bool := Chars.is_word c || Ascii.eqb c ".".
Definition anyinterp : regex :=
  Chr "$" <+> (braced 1 <|> Grp 2 (Plus (Cls simple_char))).

(** *** Data *)

Inductive sourcetype : Set :=
  notype | file | shell | raw | osenv | laxfile | jsonmap | pid.

#[global] Instance sourcetype_eq_dec : EqDecision sourcetype.
Proof. solve_decision. Defined.

Inductive sublevel : Set := neversub | maybesub | forcesub.

#[global] Instance sublevel_eq_dec : EqDecision sublevel.
Proof. solve_decision. Defined.

(** [inittyperank]: the rank of a kind is the index of its group;
    [typerankmax] is one more than the last index. *)
Definition rank_groups : list (list sourcetype) :=
  [[raw]; [jsonmap]; [osenv]; [file; shell; laxfile]].

Definition inittyperank : list (sourcetype * nat) * nat :=
  foldl (fun '(tr, _) '(i, ks) => (foldl (fun tr' k => (k, i) :: tr') tr ks, S i))
        ([], 0) (imap pair rank_groups).

Definition typerank : list (sourcetype * nat) := fst inittyperank.
Definition typerankmax : nat := snd inittyperank.

Fixpoint typerank_lookup (k : sourcetype) (tr : list (sourcetype * nat)) : option nat :=
  match tr with
  | [] => None
  | (k', i) :: tr' => if decide (k = k') then Some i else typerank_lookup k tr'
  end.

Definition rank (kind : sourcetype) : nat :=
  match typerank_lookup kind typerank with
  | Some r => r
  | None => typerankmax
  end.

Definition defaultsub (kind : sourcetype) : sublevel :=
  match kind with
  | shell | laxfile => maybesub
  | _ => neversub
  end.

Record varsource : Set := mk_varsource {
  data : string;
  kind : sourcetype;
  explicit : bool;
  optional : bool;
  src_sublevel : option sublevel   (* nil or a pointer to a level *)
}.

Record envvar : Set := mk_envvar {
  name : string;
  val : string;
  allowsubs : bool;
  tombstone : bool
}.

#[global] Instance envvar_eq_dec : EqDecision envvar.
Proof. solve_decision. Defined.

Definition parsevar (s : string) : envvar :=
  let '(n, v) := Str.cut "=" s in
  mk_envvar n (default "" v) false false.

Definition getsublevel (src : varsource) : sublevel :=
  match src_sublevel src with
  | Some l => l
  | None => defaultsub (kind src)
  end.

Definition setsublevel (src : varsource) (level : sublevel) : varsource :=
  mk_varsource (data src) (kind src) (explicit src) (optional src) (Some level).

(** The values [json.Unmarshal] stores in an [interface{}]: nil, bool,
    float64 (every JSON number), string, slice, map.  The number is kept
    as its literal. *)
#[local] Unset Elimination Schemes.
Inductive jsonval : Set :=
| JNull
| JBool (b : bool)
| JFloat64 (literal : string)
| JString (s : string)
| JArray (items : list jsonval)
| JObject (fields : list (string * jsonval)).
#[local] Set Elimination Schemes.

Inductive error : Set :=
| ErrOpen (path : string)                 (* os.Open / ioutil.ReadFile failed *)
| ErrUnclosed (qkind : string)            (* Unclosed %s-quoted value *)
| ErrReadToEnd (rest : string)            (* Couldn't read to end [%q] *)
| ErrJson (text : string)                 (* Failed to parse JSON [%q]: %v *)
| ErrPidSpec (spec : string) (msg : string) (* Failed to parse pid spec [%q]: %s *)
| ErrUnknownKind (k : sourcetype) (d : string)
| OutOfFuel.  (* no error of the program: the model's step budget ran out *)

Inductive event : Set :=
| InvalidLine (line : string)             (* warn.Printf: Invalid line (%q) *)
| ErrorParsing (d : string) (e : error).  (* Error parsing %s: %v, on stderr *)

(** What the program reads from outside. *)
Record world : Type := mk_world {
  os_environ : list string;                       (* os.Environ() *)
  open_file : string -> option string;            (* os.Open, then the bytes scanned *)
  read_file : string -> option string;            (* ioutil.ReadFile *)
  json_unmarshal : string -> option (list (string * jsonval));
    (* json.Unmarshal into a map, in the order a range over it visits *)
  shellwords_parse : string -> option (list string);  (* shellwords Parse *)
  stat_proc : option bool;                        (* os.Stat of /proc, IsDir *)
  geteuid : Z;                                    (* os.Geteuid() *)
  sudo_cat : string -> option string              (* sudo cat <path> *)
}.

(** The package-level switches. *)
Record flags : Set := mk_flags {
  alphanumeric : bool;
  warn : bool;
  sudoenv : bool
}.

Definition parse_result : Type := list event * (error + list envvar).

(** *** Parsers *)

Section Parsers.
Variable w : world.
Variable fl : flags.

(** [parseFile]: the lines of an opened file that are no comment and
  match the assignment pattern in force. *)
Definition parseFile (src : varsource) : parse_result :=
  match open_file w (data src) with
  | None => ([], inl (ErrOpen (data src)))
  | Some content =>
      let matcher := if alphanumeric fl then assignment else nonstrict in
      let keep line :=
        if MatchString comment line then []
        else if MatchString matcher line then [parsevar line] else [] in
      ([], inr (flat_map keep (Str.scan_lines content)))
  end.

(** The variable of one tokenized line of [parseShell], if any. *)
Definition shell_tokens (tokens : list string) : list envvar :=
  let tokens :=
    match tokens with
    | t :: rest => if String.eqb t "export" then rest else tokens
    | [] => tokens
    end in
  match tokens with
  | [] => []
  | t0 :: rest =>
      if MatchString assignment t0 then [parsevar t0]
      else
        match rest with
        | t1 :: rest' =>
            if MatchString name_re t0 then
              let v :=
                match rest' with
                | t2 :: _ => if String.eqb t1 "=" then t2 else t1
                | [] => t1
                end in
              [mk_envvar t0 v true false]
            else []
        | [] => []
        end
  end.

(** The scanning loop of [parseShell]; [pending] is the text of the
  lines joined so far while the tokenizer reports an error. *)
Fixpoint shell_lines (lines : list string) (pending : option string)
  : list envvar :=
  match lines with
  | [] => []
  | l :: rest =>
      let attempt line :=
        match shellwords_parse w line with
        | Some tokens => (shell_tokens tokens ++ shell_lines rest None)%list
        | None => shell_lines rest (Some line)
        end in
      match pending with
      | Some p => attempt (p +:+ String Chars.nl l)
      | None => if MatchString comment l then shell_lines rest None else attempt l
      end
  end.

Definition parseShell (src : varsource) : parse_result :=
  match open_file w (data src) with
  | None => ([], inl (ErrOpen (data src)))
  | Some content =>
      ([], inr (shell_lines (Str.scan_lines content) None))
  end.

(** [trimRegexMatches]: on a match, the string without the first
  [len(matches[0])] bytes, and the matches; [None] leaves it as it is. *)
Definition trimRegexMatches (s : string) (r : regex)
  : option (string * list string) :=
  match FindStringSubmatch r s with
  | None => None
  | Some matches => Some (Str.drop (String.length (nth 0 matches "")) s, matches)
  end.

Definition trimRegex (s : string) (r : regex) : option string :=
  fst <$> trimRegexMatches s r.

(** [trimRegex(&data, r)] where the outcome is not looked at. *)
Definition trimmed (s : string) (r : regex) : string :=
  default s (trimRegex s r).

(* substitutions valid for single-quoted strings *)
Definition laxsqsubs (c : ascii) : option string :=
  if Ascii.eqb c Chars.squote then Some "'"
  else if Ascii.eqb c Chars.backslash then Some "\"
  else None.

(* substitutions valid for double-quoted strings *)
Definition laxdqsubs (c : ascii) : option string :=
  if Ascii.eqb c Chars.squote then Some "'"
  else if Ascii.eqb c Chars.backslash then Some "\"
  else if Ascii.eqb c Chars.dquote then Some (String Chars.dquote "")
  else if Ascii.eqb c "a" then Some (String Chars.bel "")
  else if Ascii.eqb c "b" then Some (String Chars.bs "")
  else if Ascii.eqb c "f" then Some (String Chars.ff "")
  else if Ascii.eqb c "n" then Some (String Chars.nl "")
  else if Ascii.eqb c "r" then Some (String Chars.cr "")
  else if Ascii.eqb c "t" then Some (String Chars.tab "")
  else if Ascii.eqb c "v" then Some (String Chars.vt "")
  else None.

(** [laxsubsq] and [laxsubdq]: [e] is a backslash and one character. *)
Definition laxsub (table : ascii -> option string) (e : string) : string :=
  match e with
  | String _ (String c _) => default e (table c)
  | _ => e
  end.
Definition laxsubsq : string -> string := laxsub laxsqsubs.
Definition laxsubdq : string -> string := laxsub laxdqsubs.

Definition laxparsesq (s : string) : string :=
  ReplaceAllStringFunc laxescaped s laxsubsq.
Definition laxparsedq (s : string) : string :=
  ReplaceAllStringFunc laxescaped s laxsubdq.

(** One iteration of the loop of [parseLax] on a buffer that is not
  empty. *)
Inductive lax_step_result : Set :=
  | LaxSkip (rest : string)                      (* comment or empty line *)
  | LaxInvalid (line : string) (rest : string)   (* warning, line dropped *)
  | LaxVar (v : envvar) (rest : string)
  | LaxErr (e : error).

(** The value after the equals sign: the value, whether it may be
  interpolated, and the buffer after its line. *)
Definition lax_value (data0 : string) : error + (string * bool * string) :=
  match trimRegexMatches data0 laxqstart with
  | Some (data1, qmatch) =>
      let single := String.eqb (nth 1 qmatch "") "'" in
      let qkind := if single then "single" else "double" in
      let qmatcher := if single then laxsingleq else laxdoubleq in
      let unquoter := if single then laxparsesq else laxparsedq in
      let allow := negb single in
      match trimRegexMatches data1 qmatcher with
      | None => inl (ErrUnclosed qkind)
      | Some (data2, qvals) =>
          let v := unquoter (nth 1 qvals "") in
          let data3 :=
            match trimRegex data2 laxcomment with
            | Some d => d
            | None => trimmed data2 laxdiscard
            end in
          inr (v, allow, data3)
      end
  | None =>
      match trimRegexMatches data0 laxdiscard with
      | None => inl (ErrReadToEnd data0)
      | Some (data1, lvals) =>
          let v := Str.TrimSpace (nth 1 lvals "") in
          let v :=
            match FindStringSubmatch laxtrailer v with
            | Some trailmatch => nth 1 trailmatch ""
            | None => v
            end in
          inr (v, true, data1)
      end
  end.

Definition lax_step (data0 : string) : lax_step_result :=
  let line := fst (Str.cut Chars.nl data0) in
  match trimRegex data0 laxcomment with
  | Some d => LaxSkip d
  | None =>
  match trimRegex data0 laxempty with
  | Some d => LaxSkip d
  | None =>
  match trimRegexMatches data0 laxID with
  | Some (data1, idmatch) =>
      let n := nth 1 idmatch "" in
      match trimRegex data1 laxcomment with
      | Some d => LaxVar (mk_envvar n "" true false) d
      | None =>
      match trimRegex data1 laxempty with
      | Some d => LaxVar (mk_envvar n "" true false) d
      | None =>
      match trimRegex data1 laxequals with
      | Some data2 =>
          match lax_value data2 with
          | inl e => LaxErr e
          | inr (v, allow, d) => LaxVar (mk_envvar n v allow false) d
          end
      | None => LaxInvalid line (trimmed data1 laxdiscard)
      end end end
  | None => LaxInvalid line (trimmed data0 laxdiscard)
  end end end.

(** The loop [for len(data) > 0] of [parseLax]. *)
Fixpoint lax_loop (fuel : nat) (data0 : string) (vars : list envvar)
  (log : list event) : parse_result :=
  match data0 with
  | "" => (log, inr vars)
  | _ =>
      match fuel with
      | 0 => (log, inl OutOfFuel)
      | S fuel' =>
          match lax_step data0 with
          | LaxSkip d => lax_loop fuel' d vars log
          | LaxInvalid line d =>
              lax_loop fuel' d vars
                (if warn fl then (log ++ [InvalidLine line])%list else log)
          | LaxVar v d => lax_loop fuel' d (vars ++ [v])%list log
          | LaxErr e => (log, inl e)
          end
      end
  end.

(** [parseLax]: every iteration shortens the buffer, so its length is
  budget enough (see [lax_loop_enough]). *)
Definition parseLax (src : varsource) : parse_result :=
  match read_file w (data src) with
  | None => ([], inl (ErrOpen (data src)))
  | Some content => lax_loop (String.length content) content [] []
  end.

Definition parseOsEnviron (src : varsource) : parse_result :=
  ([], inr (map parsevar (os_environ w))).

(** The loop of [parseJsonMap] over the decoded map.  Its [case int]
  matches none of the values the decoder produces (a number arrives as
  a float64), so only nil and string have an arm. *)
Definition json_entry (kv : string * jsonval) : envvar :=
  match snd kv with
  | JNull => mk_envvar (fst kv) "" false true
  | JString v => mk_envvar (fst kv) v false false
  | _ => mk_envvar (fst kv) "" false false
  end.

Definition parseJsonMap (src : varsource) : parse_result :=
  match json_unmarshal w (data src) with
  | None => ([], inl (ErrJson (data src)))
  | Some env => ([], inr (map json_entry env))
  end.
End Parsers.

(** [strconv.ParseUint(s, 10, 32)]. *)
Fixpoint decimal_digits (s : string) (acc : N) : option N :=
  match s with
  | "" => Some acc
  | String c s' =>
      if Chars.between "0" "9" c
      then decimal_digits s' (10 * acc + (N_of_ascii c - 48))%N
      else None
  end.

Definition ParseUint32 (s : string) : option N :=
  match s with
  | "" => None
  | _ =>
      match decimal_digits s 0%N with
      | Some n => if (n <? 2 ^ 32)%N then Some n else None
      | None => None
      end
  end.

Section PidParser.
Variable w : world.
Variable fl : flags.

(** [readenv]: the records of /proc/<p>/environ, read directly or, when
  that fails and the policy allows, through sudo. *)
Definition readenv (p : N) : option (list envvar) :=
  match stat_proc w with
  | None => None
  | Some false => None
  | Some true =>
      let environ :=
        "/proc/" +:+ NilEmpty.string_of_uint (N.to_uint p) +:+ "/environ" in
      let contents :=
        match read_file w environ with
        | Some d => Some d
        | None =>
            if bool_decide (geteuid w ≤ 0)%Z || negb (sudoenv fl) then None
            else sudo_cat w environ
        end in
      let matcher := if alphanumeric fl then assignment else nonstrict in
      (fun d => map parsevar
                  (filter (fun v => Is_true (MatchString matcher v))
                          (Str.split "000"%char d)))
        <$> contents
  end.

Definition parseFromPid (src : varsource) : parse_result :=
  let fmterr msg : parse_result := ([], inl (ErrPidSpec (data src) msg)) in
  match Str.cut ":" (data src) with
  | (_, None) => fmterr "too few parts"
  | (p0, Some rest1) =>
      if negb (String.eqb p0 "p") && negb (String.eqb p0 "pid")
      then fmterr "first part should be 'p'/'pid'"
      else
        let '(p1, rest2) := Str.cut ":" rest1 in
        let include : list string :=
          match rest2 with
          | None => []
          | Some names =>
              match names with
              | String c0 (String c1 names') =>
                  if Ascii.eqb c1 ":" then Str.split c0 names'
                  else Str.split "," names
              | _ => Str.split "," names
              end
          end in
        match ParseUint32 p1 with
        | None => fmterr "second part should be a PID"
        | Some p =>
            match readenv p with
            | None => fmterr "couldn't read PID env vars"
            | Some allvars =>
                ([], inr (filter
                            (fun v => ¬ (0 < length include ∧ name v ∉ include))
                            allvars))
            end
        end
  end.

(** [parse]: the parser of the source's kind. *)
Definition parse (src : varsource) : parse_result :=
  match kind src with
  | file => parseFile w fl src
  | shell => parseShell w src
  | laxfile => parseLax w fl src
  | raw => ([], inr [parsevar (data src)])
  | osenv => parseOsEnviron w src
  | jsonmap => parseJsonMap w src
  | pid => parseFromPid src
  | notype => ([], inl (ErrUnknownKind (kind src) (data src)))
  end.
End PidParser.

(** *** Interpolation *)

(** The function [substitutevars] hands to [ReplaceAllStringFunc]: the
    value of the name in group 1, or in group 2 when group 1 is empty and
    the pattern has a second group; [""] when the name is unknown. *)
Definition resolve (varmatch : regex) (vals : gmap string string) (s : string)
  : string :=
  match FindStringSubmatch varmatch s with
  | Some (_ :: p1 :: rest) =>
      let n :=
        match rest with
        | p2 :: _ => if String.eqb p1 "" then p2 else p1
        | [] => p1
        end in
      default "" (vals !! n)
  | _ => ""
  end.

Definition set_allowsubs (b : bool) (r : envvar) : envvar :=
  mk_envvar (name r) (val r) b (tombstone r).

(** The last loop of [substitutevars]: each assignment is rewritten with
    the table as it stands ([subbed]), then recorded in the table. *)
Definition subbed (varmatch : regex) (vals : gmap string string) (r : envvar)
  : string :=
  if allowsubs r
  then ReplaceAllStringFunc varmatch (val r) (resolve varmatch vals)
  else val r.

Fixpoint subst_loop (varmatch : regex) (vals : gmap string string)
  (raws : list envvar) : list envvar :=
  match raws with
  | [] => []
  | r :: rest =>
      let v := subbed varmatch vals r in
      mk_envvar (name r) v (allowsubs r) (tombstone r)
        :: subst_loop varmatch (<[name r := v]> vals) rest
  end.

(** The table before the batch: the process environment, then the
    assignments of the sources already read, later entries on top. *)
Definition initial_vals (w : world) (env : list envvar) : gmap string string :=
  let vals :=
    foldl (fun m v => let e := parsevar v in <[name e := val e]> m) ∅ (os_environ w) in
  foldl (fun m v => <[name v := val v]> m) vals env.

(** The flags of the batch once the source's level is applied. *)
Definition apply_level (src : varsource) (raws : list envvar) : list envvar :=
  let level := getsublevel src in
  if decide (level = defaultsub (kind src)) then raws
  else map (set_allowsubs (bool_decide (level ≠ neversub))) raws.

Definition substitutevars (w : world) (src : varsource) (env raws : list envvar)
  (varmatch : regex) : list envvar :=
  subst_loop varmatch (initial_vals w env) (apply_level src raws).

(** *** Priority order *)

Record priority : Set := mk_priority { source : varsource; pos : nat }.

(** [Less] of [prioritysort]. *)
Definition Less (a b : priority) : bool :=
  let ra := rank (kind (source a)) in
  let rb := rank (kind (source b)) in
  if decide (ra ≠ rb) then bool_decide (ra < rb) else bool_decide (pos a < pos b).

(** [sort.Sort]: positions are distinct, so [Less] orders the elements
    totally and the sorted sequence is unique; insertion is one way to
    reach it. *)
Fixpoint insert_by (x : priority) (l : list priority) : list priority :=
  match l with
  | [] => [x]
  | y :: l' => if Less y x then y :: insert_by x l' else x :: l
  end.

Definition Sort (l : list priority) : list priority := foldr insert_by [] l.

Definition bypriority (sources : list varsource) : list priority :=
  imap (fun i s => mk_priority s i) sources.

Definition sort_sources (p : list priority) : list varsource :=
  map source (Sort p).

(** *** Merge *)

(** One iteration of [uniqVarsByName]; [None] is the panic of an index
    out of range. *)
Definition uniq_step (st : list envvar * list string * gmap string nat) (v : envvar)
  : option (list envvar * list string * gmap string nat) :=
  let '(vars, varnames, varindex) := st in
  match varindex !! name v with
  | None =>
      Some ((vars ++ [v])%list, (varnames ++ [name v])%list,
            <[name v := length vars]> varindex)
  | Some i =>
      if tombstone v then
        if decide (i < length vars) then Some (<[i := v]> vars, varnames, varindex)
        else None
      else Some st
  end.

Fixpoint uniq_loop (st : list envvar * list string * gmap string nat)
  (allvars : list envvar) : option (list envvar * list string * gmap string nat) :=
  match allvars with
  | [] => Some st
  | v :: rest =>
      match uniq_step st v with
      | Some st' => uniq_loop st' rest
      | None => None
      end
  end.

Definition uniqVarsByName (allvars : list envvar)
  : option (list string * list envvar) :=
  (fun '(vars, varnames, _) => (varnames, vars)) <$> uniq_loop ([], [], ∅) allvars.

(** The loop of [main] that keeps the assignments that are no tombstone. *)
Definition strip_tombstones (vars : list envvar) : list envvar :=
  filter (fun v => tombstone v = false) vars.

(** Lines 857 to 865 of [main]. *)
Definition merge (vars : list envvar) : option (list envvar) :=
  (fun '(_, vars') => strip_tombstones vars') <$> uniqVarsByName vars.

(** *** The source loop of [main] *)

Inductive outcome : Type :=
| Fatal (log : list event) (e : error)     (* log.Fatalf *)
| Panic (log : list event)
| Finished (log : list event) (vars : list envvar) (cmd : list string).

Section Main.
Variable w : world.
Variable fl : flags.
Variable varmatch : regex.

(** The loop over the sorted sources; [sources] is [sources[i:]]. *)
Fixpoint process (sources : list varsource) (vars : list envvar)
  (cmd : list string) (log : list event)
  : list event * option error * list envvar * list string :=
  match sources with
  | [] => (log, None, vars, cmd)
  | src :: rest =>
      let '(plog, res) := parse w fl src in
      let log := (log ++ plog)%list in
      match res with
      | inl err =>
          if explicit src then (log, Some err, vars, cmd)
          else if negb (optional src) then
            (log, None, vars, (map data sources ++ cmd)%list)
          else
            let parsed := substitutevars w src vars [] varmatch in
            process rest (vars ++ parsed)%list cmd
                    (log ++ [ErrorParsing (data src) err])%list
      | inr parsed =>
          let parsed := substitutevars w src vars parsed varmatch in
          process rest (vars ++ parsed)%list cmd log
      end
  end.

(** What follows the loop: a fatal error ends the run; otherwise the
  merge, and [sh] as the command when none was given. *)
Definition finish (res : list event * option error * list envvar * list string)
  : outcome :=
  match res with
  | (log, Some err, _, _) => Fatal log err
  | (log, None, vars, cmd) =>
      match merge vars with
      | None => Panic log
      | Some vars => Finished log vars (match cmd with [] => ["sh"] | _ => cmd end)
      end
  end.

(** [setDefaultType(defaultType)] as called after the arguments are read. *)
Definition setDefaultType (t : sourcetype) (sources : list varsource)
  : list varsource :=
  map (fun s => if decide (kind s = notype)
                then mk_varsource (data s) t (explicit s) (optional s) (src_sublevel s)
                else s) sources.

(** The source [main] puts in front unless the environment is cleared:
  [varsource{kind: osenv}]. *)
Definition osenv_src : varsource := mk_varsource "" osenv false false None.

(** [main] from the classified sources on: default kind, the implicit
  environment source, priority order, the source loop, the merge and
  the default command. *)
Definition run (defaultType : sourcetype) (clearEnv : bool)
  (sources : list varsource) (cmd : list string) : outcome :=
  let sources := setDefaultType defaultType sources in
  let sources := if clearEnv then sources else osenv_src :: sources in
  let sources := sort_sources (bypriority sources) in
  finish (process sources [] cmd []).
End Main.

(** The value the final mapping gives a name. *)
Definition lookup_var (n : string) (vars : list envvar) : option string :=
  val <$> find (fun v => String.eqb (name v) n) vars.

End Dotenv.

(** ** Notions used in the statements *)

Module Notions.
Import Re Dotenv.

(** Every character of a string satisfies [P]. *)
Fixpoint all_chars (P : ascii -> Prop) (s : string) : Prop :=
  match s with
  | "" => True
  | String c s' => P c ∧ all_chars P s'
  end.

(** Every character a pattern can consume satisfies [P]. *)
Fixpoint only (P : ascii -> Prop) (r : regex) : Prop :=
  match r with
  | Chr c => P c
  | Cls p => ∀ a, p a = true → P a
  | Seq r1 r2 | Alt r1 r2 => only P r1 ∧ only P r2
  | Star _ r' | Grp _ r' => only P r'
  | _ => True
  end.

(** Whether a pattern can match without consuming a character, at the
    end of the text ([at_end]) or before it. *)
Fixpoint nullable (at_end : bool) (r : regex) : bool :=
  match r with
  | Bot | WordB | Eps => true
  | Eot => at_end
  | Chr _ | Cls _ => false
  | Seq r1 r2 => nullable at_end r1 && nullable at_end r2
  | Alt r1 r2 => nullable at_end r1 || nullable at_end r2
  | Star _ _ => true
  | Grp _ r' => nullable at_end r'
  end.

(** A pattern that begins with [^]. *)
Definition anchored (r : regex) : Prop :=
  match r with
  | Seq Bot _ => True
  | _ => False
  end.

(** What a successful match tells: the continuation succeeded on a
    suffix, the text in between is made of characters satisfying [P], and
    it is empty only if the pattern allows it there. *)
Definition reaches {A : Type} (P : ascii -> Prop) (r : regex) (s : string)
  (k : @cont A) (x : A) : Prop :=
  ∃ m p' s' c', s = m +:+ s' ∧ k p' s' c' = Some x ∧ all_chars P m ∧
                (m = "" → nullable (Str.is_empty s) r = true).

(** The position after the longest run of characters of a class. *)
Fixpoint skip_class (p : ascii -> bool) (prev : option ascii) (s : string)
  : option ascii * string :=
  match s with
  | String b s' => if p b then skip_class p (Some b) s' else (prev, s)
  | "" => (prev, "")
  end.

(** The first line of a buffer and the buffer after that line. *)
Definition first_line (s : string) : string := fst (Str.cut Chars.nl s).
Definition after_line (s : string) : string := default "" (snd (Str.cut Chars.nl s)).

(** A quote [q] that no backslash escapes occurs in [s]. *)
Fixpoint closing_quote (q : ascii) (s : string) : bool :=
  match s with
  | "" => false
  | String c s' =>
      if Ascii.eqb c q then true
      else if Ascii.eqb c Chars.backslash then
        match s' with
        | "" => false
        | String _ s'' => closing_quote q s''
        end
      else closing_quote q s'
  end.

Definition starts_with (q : ascii) (s : string) : bool :=
  match s with
  | String b _ => Ascii.eqb b q
  | "" => false
  end.

(** [t] is what is left of [s] after some prefix. *)
Definition suffix_of (t s : string) : Prop := ∃ m, s = m +:+ t.

(** The buffer [s] begins with a quote that is not closed, and [e] is the
    error [parseLax] gives for it. *)
Definition unclosed_at (e : error) (s : string) : Prop :=
  ∃ qc body, s = String qc body ∧ closing_quote qc body = false ∧
    ((qc = Chars.squote ∧ e = ErrUnclosed "single") ∨
     (qc = Chars.dquote ∧ e = ErrUnclosed "double")).

(** [d] is what is left of [s] after a prefix that is not empty. *)
Definition progress (d s : string) : Prop := ∃ m, s = m +:+ d ∧ m ≠ "".

(** The buffer begins with a line [parseLax] calls invalid: neither a
    comment nor blank, and either no name starts it or the name is followed
    by none of a comment, the end of the line, an equals sign. *)
Definition invalid_line (data0 : string) : Prop :=
  trimRegex data0 laxcomment = None ∧ trimRegex data0 laxempty = None ∧
  match trimRegexMatches data0 laxID with
  | None => True
  | Some (data1, _) =>
      trimRegex data1 laxcomment = None ∧ trimRegex data1 laxempty = None ∧
      trimRegex data1 laxequals = None
  end.

(** What the loop of [parseLax] returns when it has collected [vars] and
    logged [log] and the parse of what is left of the buffer gives [rest]:
    the log goes on with that of [rest], an error of [rest] is the error,
    and the assignments of [rest] come after [vars]. *)
Definition resume (vars : list envvar) (log : list event) (rest : parse_result)
  : parse_result :=
  ((log ++ rest.1)%list,
   match rest.2 with
   | inl e => inl e
   | inr more => inr (vars ++ more)%list
   end).

(** The assignment the merge holds for a name after a stream: the first
    one seen, replaced by each later tombstone. *)
Definition entry_step (n : string) (cur : option envvar) (v : envvar)
  : option envvar :=
  if String.eqb (name v) n then
    match cur with
    | None => Some v
    | Some e => if tombstone v then Some v else Some e
    end
  else cur.

Definition entry_for (n : string) (stream : list envvar) : option envvar :=
  foldl (entry_step n) None stream.

(** [b] does not come before [a] in the order of [Less]. *)
Definition not_before (a b : priority) : Prop := Less b a = false.

(** An assignment that is no tombstone. *)
Definition live (v : envvar) : Prop := tombstone v = false.

(** The value the merge gives a name after a stream. *)
Definition merged_value (n : string) (stream : list envvar) : option string :=
  match entry_for n stream with
  | Some e => if tombstone e then None else Some (val e)
  | None => None
  end.

(** The invariant of the loop of [uniqVarsByName] once the assignments
    [seen] are read: the index maps each name to the one position that
    holds it, and that position holds [entry_for] the name. *)
Definition uniq_inv (st : list envvar * list string * gmap string nat)
  (seen : list envvar) : Prop :=
  (∀ n i, st.2 !! n = Some i ↔ ∃ v, st.1.1 !! i = Some v ∧ name v = n) ∧
  (∀ n, entry_for n seen = st.2 !! n ≫= λ i, st.1.1 !! i).

(** The lookup table once a batch has been rewritten on top of [vals]. *)
Definition table_after (varmatch : regex) (vals : gmap string string)
  (raws : list envvar) : gmap string string :=
  foldl (fun m r => <[name r := subbed varmatch m r]> m) vals raws.

(** A source's level applied to one assignment. *)
Definition adjusted (src : varsource) (r : envvar) : envvar :=
  if decide (getsublevel src = defaultsub (kind src)) then r
  else set_allowsubs (bool_decide (getsublevel src ≠ neversub)) r.

(** An assignment rewritten with a table. *)
Definition rewritten (varmatch : regex) (vals : gmap string string) (r : envvar)
  : envvar :=
  mk_envvar (name r) (subbed varmatch vals r) (allowsubs r) (tombstone r).

(** One table on top of another. *)
Definition overlay (vals : gmap string string) (vars : list envvar)
  : gmap string string :=
  foldl (fun m v => <[name v := val v]> m) vals vars.

(** The table an assignment meets when the assignments [pre] of its
    batch come before it. *)
Definition batch_table (w : world) (src : varsource) (env pre : list envvar)
  (varmatch : regex) : gmap string string :=
  overlay (initial_vals w env) (substitutevars w src env pre varmatch).

(** The two patterns [main] chooses between. *)
Definition pattern_of (strict : bool) : regex :=
  if strict then tointerp else anyinterp.

End Notions.

(** ** Sample inputs *)

Module Samples.
Import Dotenv.

Definition NL : string := String Chars.nl "".
Definition DQ : string := String Chars.dquote "".

Fixpoint assoc {V : Type} (k : string) (l : list (string * V)) : option V :=
  match l with
  | [] => None
  | (k', v) :: l' => if String.eqb k k' then Some v else assoc k l'
  end.

(** A world with the given environment, files and JSON texts, no
    tokenizer and no process table. *)
Definition sample_world (os : list string) (files : list (string * string))
  (jsons : list (string * list (string * jsonval))) : world :=
  mk_world os (fun p => assoc p files) (fun p => assoc p files)
           (fun t => assoc t jsons) (fun _ => None) None 1000 (fun _ => None).

Definition one_file (content : string) : world :=
  sample_world [] [("f", content)] [].

Definition fl0 : flags := mk_flags false true true.
Definition lax_src : varsource := mk_varsource "f" laxfile false false None.

Definition two_lines : string := "A=foo" +:+ NL +:+ "B=bar" +:+ NL.
Definition dq_file : string :=
  "A=foo" +:+ NL +:+ "B=" +:+ DQ +:+ "${A}bar" +:+ DQ +:+ NL.
Definition sq_file : string := "A=foo" +:+ NL +:+ "B='${A}bar'" +:+ NL.
Definition var_A : envvar := mk_envvar "A" "foo" true false.
Definition var_B : envvar := mk_envvar "B" "${A}bar" true false.
Definition var_B_quoted : envvar := mk_envvar "B" "${A}bar" false false.
Definition forced_src : varsource := setsublevel lax_src forcesub.
Definition raw_src : varsource := mk_varsource "A=1" raw false false None.
Definition json_text : string := "{" +:+ DQ +:+ "A" +:+ DQ +:+ ": null}".
Definition json_src : varsource := mk_varsource json_text jsonmap false false None.
Definition json_number : string := "{" +:+ DQ +:+ "A" +:+ DQ +:+ ": 1}".
Definition number_src : varsource := mk_varsource json_number jsonmap false false None.
Definition scenario_world (content : string) : world :=
  sample_world ["A=9"; "HOME=/root"] [("f", content)]
    [(json_text, [("A", JNull)]); (json_number, [("A", JFloat64 "1")])].
Definition missing_src : varsource := mk_varsource "missing" laxfile true true None.
Definition open_quote : string := "KEY=" +:+ DQ +:+ "open".
Definition bad_line : string := "FOO bar" +:+ NL +:+ "A=1".

End Samples.

(** ** The command line and the environment handed on *)

Module Cli.
Import Re Dotenv.

Inductive operation : Set := runcmd | dump | names | values.

Inductive outputmode : Set :=
  textoutput | jsonoutput | nuloutput | base64output | rawoutput.

#[global] Instance outputmode_eq_dec : EqDecision outputmode.
Proof. solve_decision. Defined.

(** The variables of [main] that the reading of the arguments sets, with
    the package switches [alphanumeric] and [warn]. *)
Record options : Type := mk_options {
  mode : operation;
  modeset : bool;
  outmode : outputmode;
  defaultType : sourcetype;
  specifiedDefault : bool;
  defaultSublevel : option sublevel;
  varmatch : regex;
  sorted : bool;
  clearEnv : bool;
  alphanumeric : bool;
  warn : bool;
  sources : list varsource
}.

(** The values at the start of [main]. *)
Definition initial : options :=
  mk_options runcmd false textoutput laxfile false None anyinterp true false
             false true [].

Definition with_mode (m : operation) (o : options) : options :=
  mk_options m true (outmode o) (defaultType o) (specifiedDefault o)
    (defaultSublevel o) (varmatch o) (sorted o) (clearEnv o) (alphanumeric o)
    (warn o) (sources o).

Definition with_outmode (m : outputmode) (o : options) : options :=
  mk_options (mode o) (modeset o) m (defaultType o) (specifiedDefault o)
    (defaultSublevel o) (varmatch o) (sorted o) (clearEnv o) (alphanumeric o)
    (warn o) (sources o).

(** The closure [setDefaultType] of [main]: the kind also goes to the
    sources read so far that have none. *)
Definition with_defaultType (t : sourcetype) (o : options) : options :=
  mk_options (mode o) (modeset o) (outmode o) t true
    (defaultSublevel o) (varmatch o) (sorted o) (clearEnv o) (alphanumeric o)
    (warn o) (setDefaultType t (sources o)).

(** The closure [setDefaultSublevel], and the reset to nil. *)
Definition with_defaultSublevel (l : option sublevel) (o : options) : options :=
  mk_options (mode o) (modeset o) (outmode o) (defaultType o) (specifiedDefault o)
    l (varmatch o) (sorted o) (clearEnv o) (alphanumeric o) (warn o) (sources o).

Definition with_varmatch (r : regex) (o : options) : options :=
  mk_options (mode o) (modeset o) (outmode o) (defaultType o) (specifiedDefault o)
    (defaultSublevel o) r (sorted o) (clearEnv o) (alphanumeric o) (warn o)
    (sources o).

Definition with_sorted (b : bool) (o : options) : options :=
  mk_options (mode o) (modeset o) (outmode o) (defaultType o) (specifiedDefault o)
    (defaultSublevel o) (varmatch o) b (clearEnv o) (alphanumeric o) (warn o)
    (sources o).

Definition with_clearEnv (b : bool) (o : options) : options :=
  mk_options (mode o) (modeset o) (outmode o) (defaultType o) (specifiedDefault o)
    (defaultSublevel o) (varmatch o) (sorted o) b (alphanumeric o) (warn o)
    (sources o).

Definition with_alphanumeric (b : bool) (o : options) : options :=
  mk_options (mode o) (modeset o) (outmode o) (defaultType o) (specifiedDefault o)
    (defaultSublevel o) (varmatch o) (sorted o) (clearEnv o) b (warn o)
    (sources o).

Definition with_warn (b : bool) (o : options) : options :=
  mk_options (mode o) (modeset o) (outmode o) (defaultType o) (specifiedDefault o)
    (defaultSublevel o) (varmatch o) (sorted o) (clearEnv o) (alphanumeric o) b
    (sources o).

(** The end of an iteration that adds a source: the level in force is
    copied to it, and it is appended. *)
Definition add_source (source : varsource) (o : options) : options :=
  let source :=
    match defaultSublevel o with
    | Some l => setsublevel source l
    | None => source
    end in
  mk_options (mode o) (modeset o) (outmode o) (defaultType o) (specifiedDefault o)
    (defaultSublevel o) (varmatch o) (sorted o) (clearEnv o) (alphanumeric o)
    (warn o) (sources o ++ [source]).

(** [strings.HasPrefix] and [strings.HasSuffix]. *)
Definition HasPrefix (s p : string) : bool := String.prefix p s.
Definition HasSuffix (s p : string) : bool := String.prefix (Str.rev p) (Str.rev s).

Definition is_one_of (arg : string) (l : list string) : bool :=
  existsb (String.eqb arg) l.

(** The branches of the argument loop that end in [continue]: what the
    flag changes; [None] when the argument is none of these flags. *)
Definition flag_update (orig arg : string) : option (options -> options) :=
  if is_one_of arg ["-o"; "-dump"] then Some (with_mode dump)
  else if is_one_of arg ["-n"; "-names"] then Some (with_mode names)
  else if is_one_of arg ["-p"; "-vals"] then Some (with_mode values)
  else if is_one_of arg ["-s"; "-shell"] then Some (with_defaultType shell)
  else if is_one_of arg ["-x"; "-strict"] then Some (with_defaultType file)
  else if is_one_of arg ["-a"; "-strict-vars"] then Some (with_alphanumeric true)
  else if is_one_of arg ["-no-sort"; "-unsorted"] then Some (with_sorted true)
  else if is_one_of arg ["-sort"; "-sorted"] then Some (with_sorted false)
  else if is_one_of arg ["-q"; "-quiet"] then Some (with_warn false)
  else if is_one_of arg ["-0"; "-z"; "-nul"; "-null"] then Some (with_outmode nuloutput)
  else if is_one_of arg ["-j"; "-json"] then Some (with_outmode jsonoutput)
  else if is_one_of arg ["-b"; "-b64"; "-base64"] then Some (with_outmode base64output)
  else if is_one_of arg ["-r"; "-raw"] then Some (with_outmode rawoutput)
  else if String.eqb orig "-" || is_one_of arg ["-u"; "-clear"]
    then Some (with_clearEnv true)
  else if is_one_of arg ["-sub"; "-interpolate"]
    then Some (with_defaultSublevel (Some maybesub))
  else if is_one_of arg ["-no-sub"; "-no-interpolate"]
    then Some (with_defaultSublevel (Some neversub))
  else if is_one_of arg ["-force-sub"; "-force-interpolate"]
    then Some (with_defaultSublevel (Some forcesub))
  else if is_one_of arg ["-reset-sub"; "-reset-interpolate"]
    then Some (with_defaultSublevel None)
  else if is_one_of arg ["-A"; "-interpolate-any"] then Some (with_varmatch anyinterp)
  else if is_one_of arg ["-S"; "-interpolate-strict"] then Some (with_varmatch tointerp)
  else None.

(** The last branches of the loop: the kind an argument that is no flag
    gets from its shape, and whether it is explicit. *)
Definition shaped (doSplit : bool) (arg : string) (source : varsource) : varsource :=
  if MatchString assignment arg then
    mk_varsource (data source) raw (explicit source) (optional source)
                 (src_sublevel source)
  else if HasPrefix arg "{" && HasSuffix arg "}" then
    mk_varsource (data source) jsonmap (explicit source) (optional source)
                 (src_sublevel source)
  else if HasPrefix arg "p:" || HasPrefix arg "pid:" then
    mk_varsource (data source) pid (explicit source) (optional source)
                 (src_sublevel source)
  else if doSplit then
    mk_varsource (data source) (kind source) true (optional source)
                 (src_sublevel source)
  else source.

Inductive arg_result : Type :=
| Usage                    (* the usage text is printed, exit status 0 *)
| MissingFilename          (* log.Fatal: Flag `-f` requires a filename *)
| Parsed (o : options).

(** The loop [for len(args) > 0] of [main]. *)
Fixpoint read_args (doSplit : bool) (args : list string) (o : options)
  : arg_result :=
  match args with
  | [] => Parsed o
  | orig :: args' =>
      let source :=
        mk_varsource orig (if specifiedDefault o then defaultType o else notype)
                     false false None in
      let arg := if HasPrefix orig "--" then Str.drop 1 orig else orig in
      if is_one_of arg ["-h"; "-help"] then Usage
      else if String.eqb arg "-f" then
        match args' with
        | [] => MissingFilename
        | f :: args'' =>
            read_args doSplit args''
              (add_source (mk_varsource f (kind source) true false None) o)
        end
      else
        match flag_update orig arg with
        | Some change => read_args doSplit args' (change o)
        | None => read_args doSplit args' (add_source (shaped doSplit arg source) o)
        end
  end.

(** The search for the first [--]: the arguments before it and, when
    there is one, the command after it. *)
Fixpoint split_args (args : list string) : list string * option (list string) :=
  match args with
  | [] => ([], None)
  | a :: rest =>
      if String.eqb a "--" then ([], Some rest)
      else let '(before, cmd) := split_args rest in (a :: before, cmd)
  end.

Inductive main_result : Type :=
| Exit0
| FatalArgs
| Ran (o : options) (out : outcome).

(** [main] up to the merge: the arguments are split and read, the mode
    falls back to [dump] when only an output type was chosen, and the
    sources are run. *)
Definition main (w : world) (args : list string) : main_result :=
  let '(args, cmd) := split_args args in
  let doSplit := match cmd with Some _ => true | None => false end in
  match read_args doSplit args initial with
  | Usage => Exit0
  | MissingFilename => FatalArgs
  | Parsed o =>
      let o :=
        if negb (modeset o) && negb (bool_decide (outmode o = textoutput))
        then mk_options dump (modeset o) (outmode o) (defaultType o)
               (specifiedDefault o) (defaultSublevel o) (varmatch o) (sorted o)
               (clearEnv o) (alphanumeric o) (warn o) (sources o)
        else o in
      Ran o (run w (mk_flags (alphanumeric o) (warn o) true) (varmatch o)
                 (defaultType o) (clearEnv o) (sources o) (default [] cmd))
  end.

(** The entry of the command's environment for an assignment:
    [fmt.Sprintf] with [%s=%s] of its name and value. *)
Definition render (v : envvar) : string := name v +:+ "=" +:+ val v.

End Cli.

(** ** What [main] writes in the dumping modes *)

Module Output.
Import Re Dotenv.

(** [strings.Join]. *)
Fixpoint Join (elems : list string) (sep : string) : string :=
  match elems with
  | [] => ""
  | e :: rest =>
      match rest with
      | [] => e
      | _ :: _ => e +:+ sep +:+ Join rest sep
      end
  end.

(** [sort.Strings]: increasing byte order.  The order is total, so the
    sorted list is unique; insertion is one way to reach it. *)
Fixpoint insert_string (x : string) (l : list string) : list string :=
  match l with
  | [] => [x]
  | y :: l' => if String.ltb y x then y :: insert_string x l' else x :: l
  end.

Definition SortStrings (l : list string) : list string := foldr insert_string [] l.

(** What the dumping modes hand on: nothing in mode [runcmd]; the
    assignments given to the JSON encoder (which is not modelled); or the
    text written to the standard output, with the keys reported as not
    set. *)
Inductive dumped : Type :=
| NotDumping
| ToJson (toDump : list envvar) (notset : list string)
| Written (out : string) (notset : list string).

Section Dump.
Variable getenv : string -> string.   (* os.Getenv *)
Variable base64 : string -> string.   (* base64.StdEncoding.EncodeToString *)

(** One key of mode [values]: the assignments of that name; when there is
    none, the process environment's value for the key, read by [parsevar],
    unless it is empty, and then the key is reported. *)
Definition lookup_key (vars : list envvar) (key : string)
  : list envvar * list string :=
  match filter (fun v => name v = key) vars with
  | [] =>
      let val := getenv key in
      if String.eqb val "" then ([], [key]) else ([parsevar val], [])
  | found => (found, [])
  end.

(** The switch on [mode] of lines 876 to 903; [cmd] is the command after
    its default. *)
Definition select (mode : Cli.operation) (vars : list envvar) (cmd : list string)
  : option (list envvar * list string) :=
  match mode with
  | Cli.dump | Cli.names => Some (vars, [])
  | Cli.values =>
      Some (foldl (fun '(toDump, notset) key =>
                     let '(found, missing) := lookup_key vars key in
                     ((toDump ++ found)%list, (notset ++ missing)%list))
                  ([], []) cmd)
  | Cli.runcmd => None
  end.

(** Lines 906 to 919: the names are sorted, and each is looked up in a
    map from names to assignments. *)
Definition sort_dump (toDump : list envvar) : list envvar :=
  let dumpnames := map name toDump in
  let byname : gmap string envvar :=
    foldl (fun m v => <[name v := v]> m) ∅ toDump in
  map (fun n => default (mk_envvar "" "" false false) (byname !! n))
      (SortStrings dumpnames).

(** The fields of one assignment, and the separator and terminator of each
    output type (the switch has no case for JSON). *)
Definition outfields (mode : Cli.operation) (v : envvar) : list string :=
  ((match mode with Cli.names | Cli.dump => [name v] | _ => [] end)
   ++ (match mode with Cli.values | Cli.dump => [val v] | _ => [] end))%list.

Definition layout (outmode : Cli.outputmode) : string * string :=
  match outmode with
  | Cli.textoutput => ("=", String Chars.nl "")
  | Cli.nuloutput => (String "000" "", String "000" "")
  | Cli.base64output => (" ", String Chars.nl "")
  | Cli.rawoutput => ("", "")
  | Cli.jsonoutput => ("", "")
  end.

(** One turn of the loop of lines 948 to 975. *)
Definition print_var (mode : Cli.operation) (outmode : Cli.outputmode) (v : envvar)
  : string :=
  let fields := outfields mode v in
  let fields :=
    match outmode with
    | Cli.base64output => map base64 fields
    | _ => fields
    end in
  Join fields (fst (layout outmode)) +:+ snd (layout outmode).

Definition print_vars (mode : Cli.operation) (outmode : Cli.outputmode)
  (toDump : list envvar) : string :=
  foldr (fun v out => print_var mode outmode v +:+ out) "" toDump.

(** Lines 876 to 977. *)
Definition dump_vars (mode : Cli.operation) (outmode : Cli.outputmode)
  (sorted : bool) (vars : list envvar) (cmd : list string) : dumped :=
  match select mode vars cmd with
  | None => NotDumping
  | Some (toDump, notset) =>
      let toDump := if sorted then sort_dump toDump else toDump in
      match outmode with
      | Cli.jsonoutput => ToJson toDump notset
      | _ => Written (print_vars mode outmode toDump) notset
      end
  end.
End Dump.

End Output.

(** ** Further notions *)

Module MoreNotions.
Import Re Dotenv Notions.

(** The assignment is named [n]. *)
Definition named (n : string) (v : envvar) : bool := String.eqb (name v) n.

(** The assignment is a tombstone named [n]. *)
Definition deletes (n : string) (v : envvar) : bool := named n v && tombstone v.

(** Some assignment of the stream is a tombstone named [n]. *)
Definition deleted (n : string) (stream : list envvar) : bool :=
  existsb (deletes n) stream.

(** The names of a stream, each once, in the order of their first
    appearance. *)
Definition first_names (names : list string) : list string :=
  foldl (λ acc n, if decide (n ∈ acc) then acc else acc ++ [n]) [] names.

(** The assignment a stream leaves for a name: its last tombstone when it
    has one, its first assignment otherwise. *)
Definition kept (n : string) (stream : list envvar) : option envvar :=
  match find (deletes n) (reverse stream) with
  | Some t => Some t
  | None => find (named n) stream
  end.

(** The character occurs in the string. *)
Fixpoint has_char (c : ascii) (s : string) : bool :=
  match s with
  | "" => false
  | String b s' => Ascii.eqb b c || has_char c s'
  end.

(** A source read from an argument of the form NAME=value that was not
    given through [-f]. *)
Definition assignment_source (s : varsource) : Prop :=
  explicit s = false ∧ MatchString assignment (data s) = true.

(** What the reading of the arguments keeps true of every source. *)
Definition well_read (s : varsource) : Prop :=
  optional s = false ∧ (kind s = raw ↔ assignment_source s).

(** The kinds a default can be. *)
Definition file_kind (t : sourcetype) : Prop := t = laxfile ∨ t = shell ∨ t = file.

(** A warning of the lax parser. *)
Definition is_warning (e : event) : Prop := ∃ line, e = InvalidLine line.

(** The sources [run] orders and reads. *)
Definition given (defaultType : sourcetype) (clearEnv : bool)
  (sources : list varsource) : list varsource :=
  if clearEnv then setDefaultType defaultType sources
  else osenv_src :: setDefaultType defaultType sources.

(** The events a run has logged when it ends; the two messages [log.Printf]
    and [log.Fatalf] write when a run is aborted are not events, the
    outcome [Fatal] stands for them. *)
Definition outcome_log (out : outcome) : list event :=
  match out with
  | Fatal log _ | Panic log | Finished log _ _ => log
  end.

(** The text [tail] does not go on with a character of the class: it is
    empty or begins with a character outside it. *)
Definition stops (p : ascii → bool) (tail : string) : Prop :=
  match tail with
  | "" => True
  | String x _ => p x = false
  end.

(** The end of a line: a newline and what follows it, or the end of the
    text; [after_eol] is what follows. *)
Definition at_eol (tail : string) : Prop :=
  match tail with
  | "" => True
  | String x _ => x = Chars.nl
  end.

Definition after_eol (tail : string) : string :=
  match tail with
  | "" => ""
  | String _ rest => rest
  end.

(** Every character of the text is in the class. *)
Definition within (p : ascii → bool) (s : string) : Prop :=
  all_chars (λ c, p c = true) s.

(** Escapes decoded from the left: a backslash and the character after
    it are replaced by [f] of the two; a backslash that ends the text
    stays. *)
Fixpoint unescape (f : string → string) (s : string) : string :=
  match s with
  | "" => ""
  | String b s' =>
      if Ascii.eqb b Chars.backslash then
        match s' with
        | "" => String b ""
        | String d s'' => f (String b (String d "")) +:+ unescape f s''
        end
      else String b (unescape f s')
  end.

(** The text between quotes [q]: no quote that a backslash does not
    escape, and no backslash at its end. *)
Fixpoint quote_text (q : ascii) (s : string) : bool :=
  match s with
  | "" => true
  | String b s' =>
      if Ascii.eqb b q then false
      else if Ascii.eqb b Chars.backslash then
        match s' with
        | "" => false
        | String _ s'' => quote_text q s''
        end
      else quote_text q s'
  end.

(** No part of the pattern is a group. *)
Fixpoint no_group (r : regex) : Prop :=
  match r with
  | Seq r1 r2 | Alt r1 r2 => no_group r1 ∧ no_group r2
  | Star _ r' => no_group r'
  | Grp _ _ => False
  | _ => True
  end.

(** The start of a line that names [n]: white space, then the name, or
    white space, [export], white space and the name.  Without [export]
    the name does not begin with it. *)
Definition name_head (head n : string) : Prop :=
  n ≠ "" ∧ within name_char n ∧
  ∃ ws0, within Chars.is_hspace ws0 ∧
    ((head = ws0 +:+ n ∧ String.prefix "export" n = false) ∨
     (∃ ws, ws ≠ "" ∧ within Chars.is_hspace ws ∧
            head = ws0 +:+ "export" +:+ ws +:+ n)).

(** An assignment that a text dump writes as a line [parseFile] reads
    back: its name is not empty, holds no white space and no equals sign
    and does not begin with a hash; its value holds no newline and does not
    end with a carriage return; and the line, the name, an equals sign and
    the value, is shorter than the buffer of the scanner. *)
Definition dumpable (v : envvar) : Prop :=
  name v ≠ "" ∧ within not_space_eq (name v) ∧ stops (Ascii.eqb "#") (name v) ∧
  within (λ c, negb (Ascii.eqb c Chars.nl)) (val v) ∧
  stops (Ascii.eqb Chars.cr) (Str.rev (val v)) ∧
  (N.of_nat (String.length (name v +:+ String "=" (val v))) < Str.MaxScanTokenSize)%N.

(** The names are in increasing order. *)
Definition by_name (a b : envvar) : Prop := String.leb (name a) (name b) = true.

(** No part of the pattern looks at what comes before the position. *)
Fixpoint no_anchor (r : regex) : Prop :=
  match r with
  | Bot | WordB => False
  | Seq r1 r2 | Alt r1 r2 => no_anchor r1 ∧ no_anchor r2
  | Star _ r' | Grp _ r' => no_anchor r'
  | _ => True
  end.

(** The quote character of each kind. *)
Definition quote_char (single : bool) : ascii :=
  if single then Chars.squote else Chars.dquote.

End MoreNotions.

(** ** Further sample inputs *)

Module MoreSamples.
Import Dotenv.

Definition some_args : list string := ["A=1"; "-f"; "B=2"; "x.env"; "--shell"].
Definition strict_file : Dotenv.varsource := mk_varsource "f" file false false None.
Definition mixed_lines : string :=
  "A=1" +:+ Samples.NL +:+ "# note" +:+ Samples.NL +:+ "a.b=2" +:+ Samples.NL.
Definition quoted_line : string :=
  "B=" +:+ Samples.DQ +:+ "${A}bar" +:+ Samples.DQ +:+ " # note" +:+ Samples.NL.
Definition export_line : string :=
  "export A = foo" +:+ Samples.NL +:+ "B=bar" +:+ Samples.NL.
Definition noted : string := " # note" +:+ Samples.NL +:+ "A=1".
Definition two_vars : list envvar :=
  [mk_envvar "B" "2" false false; mk_envvar "A" "1" false false].
Definition no_env (key : string) : string := "".
Definition home_table : gmap string string := {[ "HOME" := "/root" ]}.
Definition dump_world : world :=
  Samples.one_file ("B=2" +:+ Samples.NL +:+ "A=1" +:+ Samples.NL).

End MoreSamples.

(** ** Facts about strings and the matcher *)

Module StrFacts.

Lemma str_app_cons (c : ascii) (a b : string) :
  String c a +:+ b = String c (a +:+ b).
Proof. reflexivity. Qed.

Lemma str_app_nil_l (s : string) : "" +:+ s = s.
Proof. reflexivity. Qed.

Ltac str_simpl :=
  repeat first [rewrite str_app_cons | rewrite str_app_nil_l]; simpl.

Lemma str_app_nil_r (s : string) : s +:+ "" = s.
Proof. induction s as [|c s IH]; str_simpl; congruence. Qed.

Lemma str_app_assoc (a b c : string) : (a +:+ b) +:+ c = a +:+ (b +:+ c).
Proof. induction a as [|x a IH]; str_simpl; congruence. Qed.

Lemma str_length_app (a b : string) :
  String.length (a +:+ b) = String.length a + String.length b.
Proof. induction a as [|x a IH]; str_simpl; congruence. Qed.

Lemma str_app_eq_nil (a b : string) : a +:+ b = "" → a = "" ∧ b = "".
Proof. destruct a; str_simpl; [done | discriminate]. Qed.

Lemma take_app (a b : string) : Str.take (String.length a) (a +:+ b) = a.
Proof. induction a as [|x a IH]; str_simpl; [by destruct b | congruence]. Qed.

Lemma drop_app (a b : string) : Str.drop (String.length a) (a +:+ b) = b.
Proof. induction a as [|x a IH]; str_simpl; [by destruct b | done]. Qed.

Lemma consumed_app (a b : string) : Re.consumed (a +:+ b) b = a.
Proof.
  unfold Re.consumed. rewrite str_length_app.
  replace (String.length a + String.length b - String.length b)
    with (String.length a) by lia.
  apply take_app.
Qed.

Lemma all_chars_app (P : ascii → Prop) (a b : string) :
  Notions.all_chars P a → Notions.all_chars P b → Notions.all_chars P (a +:+ b).
Proof. induction a as [|x a IH]; str_simpl; [done | intros [? ?] ?; auto]. Qed.

End StrFacts.

Module ReFacts.
Import Re Notions StrFacts.

Section Inversion.
Context {A : Type} (P : ascii → Prop).

Lemma star_loop_inv (body : option ascii → string → caps → @cont A → option A)
  (g : bool) (r : regex) (k : @cont A) :
  (∀ prev s c k' (x : A), body prev s c k' = Some x → reaches P r s k' x) →
  ∀ n prev s c (x : A), star_loop body g k n prev s c = Some x →
                  reaches P (Star g r) s k x.
Proof.
  intros Hbody n. induction n as [|n IH]; intros prev s c x Hx; simpl in Hx.
  - exists "", prev, s, c. by repeat split.
  - set (again := fun p' s' c' =>
           if (String.length s' <? String.length s)%nat
           then star_loop body g k n p' s' c' else None) in Hx.
    assert (Hstop : k prev s c = Some x → reaches P (Star g r) s k x).
    { intros Hk. exists "", prev, s, c. by repeat split. }
    assert (Hiter : body prev s c again = Some x → reaches P (Star g r) s k x).
    { intros Hb. apply Hbody in Hb as (m1 & p1 & s1 & c1 & -> & Hag & Hm1 & _).
      unfold again in Hag. destruct (_ <? _)%nat; [|done].
      apply IH in Hag as (m2 & p2 & s2 & c2 & -> & Hk & Hm2 & _).
      exists (m1 +:+ m2), p2, s2, c2. rewrite str_app_assoc.
      repeat split; auto using all_chars_app. }
    destruct g.
    + destruct (body prev s c again) eqn:Hb; [inversion Hx; subst; auto | auto].
    + destruct (k prev s c) eqn:Hk; [inversion Hx; subst; auto | auto].
Qed.

Lemma rmatch_inv (r : regex) :
  only P r → ∀ prev s c (k : @cont A) (x : A),
  rmatch r prev s c k = Some x → reaches P r s k x.
Proof.
  induction r as [| | | |a|p|r1 IH1 r2 IH2|r1 IH1 r2 IH2|g r IH|i r IH];
    intros Honly prev s c k x Hx; cbn [rmatch] in Hx.
  - destruct prev; [done|]. exists "", None, s, c. by repeat split.
  - destruct s; [|done]. exists "", prev, "", c. by repeat split.
  - destruct (at_word_boundary prev s); [|done].
    exists "", prev, s, c. by repeat split.
  - exists "", prev, s, c. by repeat split.
  - destruct s as [|b s]; [done|]. destruct (Ascii.eqb b a) eqn:Hb; [|done].
    apply Ascii.eqb_eq in Hb as ->.
    exists (String a ""), (Some a), s, c. simpl in *. by repeat split.
  - destruct s as [|b s]; [done|]. destruct (p b) eqn:Hb; [|done].
    exists (String b ""), (Some b), s, c. simpl in *. repeat split; auto. done.
  - destruct Honly as [H1 H2].
    apply (IH1 H1) in Hx as (m1 & p1 & s1 & c1 & -> & Hx & Hm1 & Hn1).
    apply (IH2 H2) in Hx as (m2 & p2 & s2 & c2 & -> & Hx & Hm2 & Hn2).
    exists (m1 +:+ m2), p2, s2, c2. rewrite str_app_assoc.
    repeat split; auto using all_chars_app.
    intros [-> ->]%str_app_eq_nil.
    specialize (Hn1 eq_refl). specialize (Hn2 eq_refl).
    rewrite !str_app_nil_l in *. simpl. by rewrite Hn1, Hn2.
  - destruct Honly as [H1 H2]. simpl.
    destruct (rmatch r1 prev s c k) eqn:Hr1.
    + inversion Hx; subst.
      apply (IH1 H1) in Hr1 as (m & p' & s' & c' & -> & ? & ? & Hn).
      exists m, p', s', c'. repeat split; auto.
      intros Hm. simpl. rewrite (Hn Hm). done.
    + apply (IH2 H2) in Hx as (m & p' & s' & c' & -> & ? & ? & Hn).
      exists m, p', s', c'. repeat split; auto.
      intros Hm. simpl. rewrite (Hn Hm). by rewrite orb_true_r.
  - eapply star_loop_inv; [|exact Hx]. intros; by eapply IH.
  - apply (IH Honly) in Hx as (m & p' & s' & c' & -> & Hx & ? & Hn).
    exists m, p', s', ((i, consumed (m +:+ s') s') :: c'). by repeat split.
Qed.
End Inversion.

End ReFacts.

(** ** Facts about the trimming of anchored patterns *)

Module TrimFacts.
Import Re Dotenv Notions StrFacts ReFacts.

Lemma find_later (r : regex) (b : ascii) (s : string) :
  anchored r → find_from r (Some b) s = None.
Proof.
  destruct r as [| | | | | |[] r2| | |]; try done. intros _.
  revert b. induction s as [|b' s IH]; intros b; simpl; [done | apply IH].
Qed.

Lemma find_anchored (r : regex) (s : string) :
  anchored r →
  FindStringSubmatch r s = submatches r s <$> match_here r None s.
Proof.
  intros Ha. unfold FindStringSubmatch. destruct s as [|b s]; simpl.
  - by destruct (match_here r None "").
  - destruct (match_here r None (String b s)); [done|]. by apply find_later.
Qed.

Lemma match_here_inv (P : ascii → Prop) (r : regex) (s rest : string) (cps : caps) :
  only P r → match_here r None s = Some (rest, cps) →
  ∃ m, s = m +:+ rest ∧ all_chars P m ∧
       (m = "" → nullable (Str.is_empty s) r = true).
Proof.
  intros Ho Hm. apply (rmatch_inv P r Ho) in Hm as (m & p' & s' & c' & -> & Hk & ? & ?).
  inversion Hk; subst. by exists m.
Qed.

Lemma only_True (r : regex) : only (λ _, True) r.
Proof. induction r; simpl; auto. Qed.

(** Trimming an anchored pattern leaves what the match left. *)
Lemma trim_match_here (r : regex) (s : string) :
  anchored r →
  trimRegexMatches s r =
    match match_here r None s with
    | Some res => Some (fst res, submatches r s res)
    | None => None
    end.
Proof.
  intros Ha. unfold trimRegexMatches. rewrite (find_anchored _ _ Ha).
  destruct (match_here r None s) as [[rest cps]|] eqn:Hm; simpl; [|done].
  apply (match_here_inv (λ _, True) _ _ _ _ (only_True r)) in Hm as (m & -> & _ & _).
  by rewrite consumed_app, drop_app.
Qed.

Lemma trim_inv (P : ascii → Prop) (r : regex) (s s' : string) (ms : list string) :
  anchored r → only P r → trimRegexMatches s r = Some (s', ms) →
  ∃ m, s = m +:+ s' ∧ all_chars P m ∧
       (m = "" → nullable (Str.is_empty s) r = true).
Proof.
  intros Ha Ho. rewrite (trim_match_here _ _ Ha).
  destruct (match_here r None s) as [[rest cps]|] eqn:Hm; [|done].
  intros [= <- <-]. by eapply match_here_inv.
Qed.

Lemma trimRegex_inv (P : ascii → Prop) (r : regex) (s s' : string) :
  anchored r → only P r → trimRegex s r = Some s' →
  ∃ m, s = m +:+ s' ∧ all_chars P m ∧
       (m = "" → nullable (Str.is_empty s) r = true).
Proof.
  unfold trimRegex. intros Ha Ho.
  destruct (trimRegexMatches s r) as [[d ms]|] eqn:Ht; [|done].
  intros [= <-]. by eapply trim_inv.
Qed.

Lemma suffix_refl (s : string) : suffix_of s s.
Proof. by exists "". Qed.

Lemma suffix_trans (a b c : string) : suffix_of a b → suffix_of b c → suffix_of a c.
Proof.
  intros [m1 ->] [m2 ->]. exists (m2 +:+ m1). by rewrite str_app_assoc.
Qed.

Lemma suffix_length (a b : string) :
  suffix_of a b → (String.length a ≤ String.length b)%nat.
Proof. intros [m ->]. rewrite str_length_app. lia. Qed.

Lemma trimRegex_suffix (r : regex) (s s' : string) :
  anchored r → trimRegex s r = Some s' → suffix_of s' s.
Proof.
  intros Ha Ht.
  apply (trimRegex_inv (λ _, True) _ _ _ Ha (only_True r)) in Ht as (m & -> & _).
  by exists m.
Qed.

Lemma trimMatches_suffix (r : regex) (s s' : string) (ms : list string) :
  anchored r → trimRegexMatches s r = Some (s', ms) → suffix_of s' s.
Proof.
  intros Ha Ht.
  apply (trim_inv (λ _, True) _ _ _ _ Ha (only_True r)) in Ht as (m & -> & _).
  by exists m.
Qed.

Lemma trimmed_suffix (r : regex) (s : string) :
  anchored r → suffix_of (trimmed s r) s.
Proof.
  intros Ha. unfold trimmed. destruct (trimRegex s r) eqn:Ht; simpl.
  - by eapply trimRegex_suffix.
  - apply suffix_refl.
Qed.

(** A match that cannot be empty takes at least one character. *)
Lemma trim_progress (r : regex) (s s' : string) (ms : list string) :
  anchored r → nullable (Str.is_empty s) r = false →
  trimRegexMatches s r = Some (s', ms) →
  ∃ m, s = m +:+ s' ∧ m ≠ "".
Proof.
  intros Ha Hn Ht.
  apply (trim_inv (λ _, True) _ _ _ _ Ha (only_True r)) in Ht as (m & -> & _ & Hm).
  exists m. split; [done|]. intros ->. rewrite Hm in Hn; done.
Qed.

Lemma trimRegex_progress (r : regex) (s s' : string) :
  anchored r → nullable (Str.is_empty s) r = false →
  trimRegex s r = Some s' → ∃ m, s = m +:+ s' ∧ m ≠ "".
Proof.
  unfold trimRegex. intros Ha Hn.
  destruct (trimRegexMatches s r) as [[d ms]|] eqn:Ht; [|done].
  intros [= <-]. by eapply trim_progress.
Qed.

End TrimFacts.

(** ** Equations of the matcher, greedy stars of a class, and [laxdiscard] *)

Module StarFacts.
Import Re Dotenv Notions StrFacts ReFacts TrimFacts.

Section Equations.
Context {A : Type}.
Implicit Types (k : @cont A).

Lemma rmatch_seq r1 r2 prev s c k :
  rmatch (Seq r1 r2) prev s c k
  = rmatch r1 prev s c (λ p' s' c', rmatch r2 p' s' c' k).
Proof. reflexivity. Qed.

Lemma rmatch_bot s c k : rmatch Bot None s c k = k None s c.
Proof. reflexivity. Qed.

Lemma rmatch_grp i r prev s c k :
  rmatch (Grp i r) prev s c k
  = rmatch r prev s c (λ p' s' c', k p' s' ((i, consumed s s') :: c')).
Proof. reflexivity. Qed.

Lemma rmatch_star g r prev s c k :
  rmatch (Star g r) prev s c k
  = star_loop (rmatch r) g k (S (String.length s)) prev s c.
Proof. reflexivity. Qed.

Lemma ltb_tail (b : ascii) (s : string) :
  (String.length s <? String.length (String b s))%nat = true.
Proof. apply Nat.ltb_lt. simpl. lia. Qed.

Lemma star_cls_greedy (p : ascii → bool) k :
  ∀ n s prev c, (String.length s < n)%nat →
  is_Some (k (skip_class p prev s).1 (skip_class p prev s).2 c) →
  star_loop (rmatch (Cls p)) true k n prev s c
  = k (skip_class p prev s).1 (skip_class p prev s).2 c.
Proof.
  induction n as [|n IH]; intros s prev c Hn Hk; [lia|].
  destruct s as [|b s]; [done|].
  cbn [star_loop rmatch skip_class] in *.
  destruct (p b) eqn:Hb; [|done].
  rewrite ltb_tail. rewrite IH; [|simpl in Hn; lia|done].
  by destruct Hk as [x ->].
Qed.

Lemma rmatch_star_cls (p : ascii → bool) k prev s c :
  is_Some (k (skip_class p prev s).1 (skip_class p prev s).2 c) →
  rmatch (Star true (Cls p)) prev s c k
  = k (skip_class p prev s).1 (skip_class p prev s).2 c.
Proof. intros Hk. rewrite rmatch_star. apply star_cls_greedy; [lia | done]. Qed.
End Equations.

Lemma skip_not_nl (prev : option ascii) (s : string) :
  (skip_class (λ c, negb (existsb (Ascii.eqb c) [Chars.nl])) prev s).2
  = match Str.cut Chars.nl s with
    | (_, Some r) => String Chars.nl r
    | (_, None) => ""
    end.
Proof.
  revert prev. induction s as [|b s IH]; intros prev; [done|].
  cbn [skip_class Str.cut existsb]. rewrite orb_false_r.
  destruct (Ascii.eqb b Chars.nl) eqn:Hb; simpl.
  - by apply Ascii.eqb_eq in Hb as ->.
  - rewrite IH. by destruct (Str.cut Chars.nl s) as [? [?|]].
Qed.

Lemma match_laxdiscard (s : string) :
  ∃ cps, match_here laxdiscard None s = Some (after_line s, cps).
Proof.
  unfold match_here, laxdiscard, not_nl, NoneOf.
  rewrite rmatch_seq, rmatch_bot, rmatch_seq, rmatch_grp.
  set (k := λ (p' : option ascii) (s' : string) (c' : caps), _).
  assert (Hk : ∃ cps, k (skip_class (λ c, negb (existsb (Ascii.eqb c) [Chars.nl])) None s).1
                   (skip_class (λ c, negb (existsb (Ascii.eqb c) [Chars.nl])) None s).2 [] = Some (after_line s, cps)).
  { unfold k, after_line, eol. rewrite skip_not_nl.
    destruct (Str.cut Chars.nl s) as [? [r|]]; simpl; eauto. }
  destruct Hk as [cps Hc].
  exists cps. rewrite rmatch_star_cls; [done | by rewrite Hc].
Qed.

Lemma trim_laxdiscard (s : string) : trimRegex s laxdiscard = Some (after_line s).
Proof.
  unfold trimRegex. rewrite trim_match_here by exact I.
  destruct (match_laxdiscard s) as [cps ->]. done.
Qed.

Lemma trimmed_laxdiscard (s : string) : trimmed s laxdiscard = after_line s.
Proof. unfold trimmed. by rewrite trim_laxdiscard. Qed.

End StarFacts.

(** ** The patterns of quoted values *)

Module QuoteFacts.
Import Re Dotenv Notions StrFacts ReFacts TrimFacts StarFacts.

Section Quoted.
Variable q : ascii.
Hypothesis q_not_backslash : q ≠ Chars.backslash.

Lemma body_eq {A} prev s c (k : @cont A) :
  rmatch (quote_body q) prev s c k =
    match s with
    | "" => None
    | String b s' =>
        if Ascii.eqb b q then None
        else if Ascii.eqb b Chars.backslash then
          match s' with
          | "" => None
          | String d s'' => k (Some d) s'' c
          end
        else k (Some b) s' c
    end.
Proof.
  unfold quote_body, NoneOf. cbn [rmatch existsb].
  destruct s as [|b s']; [done|]. rewrite orb_false_r.
  destruct (Ascii.eqb b q) eqn:Hq.
  - apply Ascii.eqb_eq in Hq as ->. rewrite orb_true_r. simpl.
    by destruct (Ascii.eqb q Chars.backslash) eqn:Hb;
      [apply Ascii.eqb_eq in Hb|].
  - rewrite orb_false_r.
    destruct (Ascii.eqb b Chars.backslash); simpl; [done|].
    by destruct (k (Some b) s' c).
Qed.

Lemma quoted_loop {A} (K : @cont A) :
  (∀ p s c, is_Some (K p s c) ↔ starts_with q s = true) →
  ∀ n s prev c, (String.length s < n)%nat →
  is_Some (star_loop (rmatch (quote_body q)) true K n prev s c) ↔ closing_quote q s = true.
Proof.
  intros HK. induction n as [|n IH]; intros s prev c Hn; [lia|].
  assert (Hstop : ∀ x : option A,
             is_Some (match x with Some y => Some y | None => K prev s c end)
             ↔ is_Some x ∨ starts_with q s = true).
  { intros [y|]; rewrite <- (HK prev s c).
    - split; [left; eauto | eauto].
    - split; [by right | intros [[? ?]|?]; [done | done]]. }
  cbn [star_loop]. rewrite Hstop, body_eq. clear Hstop.
  destruct s as [|b s].
  { cbn. split; [intros [[? ?]|?]; done | done]. }
  cbn [starts_with closing_quote].
  destruct (Ascii.eqb b q) eqn:Hq.
  { split; auto. }
  destruct (Ascii.eqb b Chars.backslash) eqn:Hb.
  - destruct s as [|d s].
    { split; [intros [[? ?]|?]; done | done]. }
    assert (Hlt : (String.length s <? String.length (String b (String d s)))%nat = true).
    { apply Nat.ltb_lt. simpl. lia. }
    rewrite Hlt. rewrite <- (IH s (Some d) c) by (simpl in Hn; lia).
    split; [intros [?|?]; [done | done] | by left].
  - rewrite ltb_tail, <- (IH s (Some b) c) by (simpl in Hn; lia).
    split; [intros [?|?]; [done | done] | by left].
Qed.

Lemma quoted_some_iff (s : string) :
  is_Some (match_here (quoted q) None s) ↔ closing_quote q s = true.
Proof.
  unfold match_here, quoted.
  rewrite rmatch_seq, rmatch_bot, rmatch_seq, rmatch_grp, rmatch_star.
  apply quoted_loop; [|lia].
  intros p s' c. destruct s' as [|b s']; cbn.
  { split; [intros [? ?]; done | done]. }
  destruct (Ascii.eqb b q); split; try done; eauto.
Qed.
End Quoted.

Lemma quoted_unclosed (q : ascii) (s : string) :
  q ≠ Chars.backslash →
  trimRegexMatches s (quoted q) = None ↔ closing_quote q s = false.
Proof.
  intros Hq. rewrite trim_match_here by exact I.
  pose proof (quoted_some_iff q Hq s) as H.
  destruct (match_here (quoted q) None s) as [res|]; destruct (closing_quote q s);
    split; try done.
  - intros _. destruct H as [H _]. by specialize (H (mk_is_Some _ _ eq_refl)).
  - intros _. destruct H as [_ H]. by destruct (H eq_refl).
Qed.

Lemma consumed_cons (b : ascii) (s : string) : consumed (String b s) s = String b "".
Proof. exact (consumed_app (String b "") s). Qed.

Lemma trim_laxqstart (s : string) :
  trimRegexMatches s laxqstart =
    match s with
    | String b rest =>
        if Ascii.eqb b Chars.squote || Ascii.eqb b Chars.dquote
        then Some (rest, [String b ""; String b ""]) else None
    | "" => None
    end.
Proof.
  rewrite trim_match_here by exact I. unfold match_here, laxqstart.
  destruct s as [|b rest]; [done|]. cbn [rmatch].
  unfold submatches.
  destruct (Ascii.eqb b Chars.squote) eqn:H1; cbn [orb fst snd ngroups seq map group Nat.max Nat.eqb].
  - by rewrite !consumed_cons.
  - destruct (Ascii.eqb b Chars.dquote) eqn:H2; [|done].
    cbn [orb fst snd ngroups seq map group Nat.max Nat.eqb]. by rewrite !consumed_cons.
Qed.

End QuoteFacts.

(** ** The lax parser: progress, termination, errors *)

Module LaxFacts.
Import Re Dotenv Notions StrFacts ReFacts TrimFacts StarFacts QuoteFacts.

Lemma suffix_cons (b : ascii) (t s : string) : suffix_of t s → suffix_of t (String b s).
Proof. intros [m ->]. by exists (String b m). Qed.

Lemma after_line_suffix (s : string) : suffix_of (after_line s) s.
Proof. rewrite <- trimmed_laxdiscard. (apply trimmed_suffix; exact I). Qed.

Lemma after_line_app (m s : string) :
  all_chars (λ c, c ≠ Chars.nl) m → after_line (m +:+ s) = after_line s.
Proof.
  induction m as [|b m IH]; [done|]. intros [Hb Hm]. rewrite str_app_cons.
  unfold after_line in *. cbn [Str.cut].
  destruct (Ascii.eqb b Chars.nl) eqn:E; [by apply Ascii.eqb_eq in E|].
  specialize (IH Hm). by destruct (Str.cut Chars.nl (m +:+ s)), (Str.cut Chars.nl s).
Qed.

Lemma laxID_no_newline : only (λ c, c ≠ Chars.nl) laxID.
Proof.
  unfold laxID, hspace, Opt, Plus. simpl.
  repeat split; try discriminate; intros a Ha ->; vm_compute in Ha; discriminate.
Qed.

Lemma lax_value_inv (data0 : string) :
  match lax_value data0 with
  | inr (_, _, d) => suffix_of d data0
  | inl e => unclosed_at e data0
  end.
Proof.
  assert (Hplain : ∀ s, match
      match trimRegexMatches s laxdiscard with
      | None => inl (ErrReadToEnd s)
      | Some (data1, lvals) =>
          let v := Str.TrimSpace (nth 1 lvals "") in
          let v := match FindStringSubmatch laxtrailer v with
                   | Some trailmatch => nth 1 trailmatch ""
                   | None => v
                   end in
          inr (v, true, data1)
      end with inr (_, _, d) => suffix_of d s | inl e => unclosed_at e s end).
  { intros s. rewrite trim_match_here by exact I.
    destruct (match_laxdiscard s) as [cps ->]. simpl. apply after_line_suffix. }
  assert (Hafter : ∀ d2, suffix_of
            match trimRegex d2 laxcomment with
            | Some d => d
            | None => trimmed d2 laxdiscard
            end d2).
  { intros d2. destruct (trimRegex d2 laxcomment) eqn:E.
    - (eapply trimRegex_suffix; [|eassumption]; exact I).
    - (apply trimmed_suffix; exact I). }
  unfold lax_value. rewrite trim_laxqstart.
  destruct data0 as [|b rest]; [apply Hplain|].
  destruct (Ascii.eqb b Chars.squote) eqn:H1.
  - apply Ascii.eqb_eq in H1 as ->. cbn [orb nth].
    change (String.eqb (String Chars.squote "") "'") with true. cbv iota.
    destruct (trimRegexMatches rest laxsingleq) as [[d2 qvals]|] eqn:Hq.
    + apply suffix_cons. eapply suffix_trans; [apply Hafter|].
      (eapply trimMatches_suffix; [|eassumption]; exact I).
    + exists Chars.squote, rest. split; [done|]. split; [|by left].
      by apply quoted_unclosed in Hq.
  - destruct (Ascii.eqb b Chars.dquote) eqn:H2; [|apply Hplain].
    apply Ascii.eqb_eq in H2 as ->. cbn [orb nth].
    change (String.eqb (String Chars.dquote "") "'") with false. cbv iota.
    destruct (trimRegexMatches rest laxdoubleq) as [[d2 qvals]|] eqn:Hq.
    + apply suffix_cons. eapply suffix_trans; [apply Hafter|].
      (eapply trimMatches_suffix; [|eassumption]; exact I).
    + exists Chars.dquote, rest. split; [done|]. split; [|by right].
      by apply quoted_unclosed in Hq.
Qed.

Lemma progress_suffix (d d' s : string) : suffix_of d d' → progress d' s → progress d s.
Proof.
  intros [m1 ->] (m2 & -> & Hm). exists (m2 +:+ m1). rewrite str_app_assoc.
  split; [done|]. intros [? ?]%str_app_eq_nil. done.
Qed.

Lemma progress_length (d s : string) : progress d s → (String.length d < String.length s)%nat.
Proof.
  intros (m & -> & Hm). rewrite str_length_app. destruct m; [done|]. simpl. lia.
Qed.

Lemma lax_step_inv (data0 : string) :
  data0 ≠ "" →
  match lax_step data0 with
  | LaxSkip d | LaxVar _ d => progress d data0
  | LaxInvalid line d =>
      line = first_line data0 ∧ d = after_line data0 ∧ progress d data0
  | LaxErr e => ∃ t, suffix_of t data0 ∧ unclosed_at e t
  end.
Proof.
  intros Hne. unfold lax_step.
  assert (He : Str.is_empty data0 = false) by by destruct data0.
  destruct (trimRegex data0 laxcomment) as [d|] eqn:Hc.
  { eapply (trimRegex_progress laxcomment); [exact I | | exact Hc]. by destruct (Str.is_empty _). }
  destruct (trimRegex data0 laxempty) as [d|] eqn:Hemp.
  { eapply (trimRegex_progress laxempty); [exact I | | exact Hemp]. by rewrite He. }
  destruct (trimRegexMatches data0 laxID) as [[data1 idmatch]|] eqn:Hid.
  - assert (Hp : progress data1 data0).
    { eapply (trim_progress laxID); [exact I | | exact Hid]. by destruct (Str.is_empty _). }
    destruct (trimRegex data1 laxcomment) as [d|] eqn:Hc1.
    { eapply progress_suffix; [|exact Hp]. (eapply trimRegex_suffix; [|eassumption]; exact I). }
    destruct (trimRegex data1 laxempty) as [d|] eqn:He1.
    { eapply progress_suffix; [|exact Hp]. (eapply trimRegex_suffix; [|eassumption]; exact I). }
    destruct (trimRegex data1 laxequals) as [data2|] eqn:Heq.
    + assert (Hs2 : suffix_of data2 data1) by (eapply trimRegex_suffix; [|eassumption]; exact I).
      pose proof (lax_value_inv data2) as Hv.
      destruct (lax_value data2) as [e|[[v allow] d]].
      * exists data2. split; [|done].
        eapply suffix_trans; [exact Hs2|]. destruct Hp as (m & -> & _). by exists m.
      * eapply progress_suffix; [|exact Hp]. by eapply suffix_trans.
    + rewrite trimmed_laxdiscard. split; [done|].
      apply (trim_inv _ laxID _ _ _ I laxID_no_newline) in Hid as (m & -> & Hm & _).
      rewrite (after_line_app _ _ Hm). split; [done|].
      eapply progress_suffix; [apply after_line_suffix | exact Hp].
  - rewrite trimmed_laxdiscard. split; [done|]. split; [done|].
    pose proof (trim_laxdiscard data0) as Ht. unfold trimRegex in Ht.
    destruct (trimRegexMatches data0 laxdiscard) as [[d ms]|] eqn:Hd; [|done].
    injection Ht as <-.
    eapply (trim_progress laxdiscard); [exact I | | exact Hd]. by rewrite He.
Qed.

Lemma invalid_line_step (data0 : string) :
  invalid_line data0 ↔ ∃ line d, lax_step data0 = LaxInvalid line d.
Proof.
  unfold invalid_line, lax_step.
  destruct (trimRegex data0 laxcomment); [split; [intros [? _]|intros (? & ? & ?)]; done|].
  destruct (trimRegex data0 laxempty); [split; [intros (_ & ? & _)|intros (? & ? & ?)]; done|].
  destruct (trimRegexMatches data0 laxID) as [[data1 idmatch]|]; [|split; eauto].
  destruct (trimRegex data1 laxcomment);
    [split; [intros (_ & _ & ? & _)|intros (? & ? & ?)]; done|].
  destruct (trimRegex data1 laxempty);
    [split; [intros (_ & _ & _ & ? & _)|intros (? & ? & ?)]; done|].
  destruct (trimRegex data1 laxequals).
  - split; [intros (_ & _ & _ & _ & ?); done|].
    intros (? & ? & H). by destruct (lax_value s) as [|[[] ]].
  - split; eauto.
Qed.

Section Loop.
Variable fl : flags.

Lemma lax_loop_enough (fuel : nat) :
  ∀ data0 vars log, (String.length data0 ≤ fuel)%nat →
  (lax_loop fl fuel data0 vars log).2 ≠ inl OutOfFuel ∧
  ∀ fuel', (String.length data0 ≤ fuel')%nat →
           lax_loop fl fuel' data0 vars log = lax_loop fl fuel data0 vars log.
Proof.
  induction fuel as [|fuel IH]; intros data0 vars log Hlen.
  - destruct data0; [|simpl in Hlen; lia]. split; [done|]. by intros [|?] _.
  - destruct data0 as [|b s] eqn:Hd; [split; [done | by intros [|?] _]|].
    rewrite <- Hd in *. assert (Hne : data0 ≠ "") by by rewrite Hd.
    pose proof (lax_step_inv data0 Hne) as Hstep.
    assert (Hun : ∀ f, lax_loop fl (S f) data0 vars log =
              match lax_step data0 with
              | LaxSkip d => lax_loop fl f d vars log
              | LaxInvalid line d =>
                  lax_loop fl f d vars
                    (if warn fl then (log ++ [InvalidLine line])%list else log)
              | LaxVar v d => lax_loop fl f d (vars ++ [v])%list log
              | LaxErr e => (log, inl e)
              end).
    { intros f. by rewrite Hd. }
    assert (Hshort : ∀ d, progress d data0 → (String.length d ≤ fuel)%nat).
    { intros d Hp%progress_length. lia. }
    assert (Hfuel' : ∀ fuel', (String.length data0 ≤ fuel')%nat →
               ∃ f, fuel' = S f ∧ ∀ d, progress d data0 → (String.length d ≤ f)%nat).
    { intros [|f] Hf; [rewrite Hd in Hf; simpl in Hf; lia|].
      exists f. split; [done|]. intros d Hp%progress_length. lia. }
    rewrite Hun. split.
    + destruct (lax_step data0) as [d|line d|v d|e].
      * apply IH. by apply Hshort.
      * apply IH. apply Hshort, Hstep.
      * apply IH. by apply Hshort.
      * destruct Hstep as (t & _ & qc & body & _ & _ & [[_ ->]|[_ ->]]); done.
    + intros fuel' (f & -> & Hf)%Hfuel'. rewrite Hun.
      destruct (lax_step data0) as [d|line d|v d|e]; [| |  |done].
      * apply IH; [by apply Hshort | by apply Hf].
      * apply IH; [apply Hshort | apply Hf]; apply Hstep.
      * apply IH; [by apply Hshort | by apply Hf].
Qed.

Lemma lax_loop_error (fuel : nat) :
  ∀ data0 vars log log' e,
  lax_loop fl fuel data0 vars log = (log', inl e) →
  e = OutOfFuel ∨ ∃ t, suffix_of t data0 ∧ unclosed_at e t.
Proof.
  induction fuel as [|fuel IH]; intros data0 vars log log' e Hl.
  - destruct data0; simpl in Hl; [done|]. left. congruence.
  - destruct data0 as [|b s] eqn:Hd; [done|].
    rewrite <- Hd in *. assert (Hne : data0 ≠ "") by by rewrite Hd.
    pose proof (lax_step_inv data0 Hne) as Hstep.
    assert (Hsuf : ∀ d, progress d data0 → suffix_of d data0).
    { intros d (m & -> & _). by exists m. }
    replace (lax_loop fl (S fuel) data0 vars log) with
              (match lax_step data0 with
              | LaxSkip d => lax_loop fl fuel d vars log
              | LaxInvalid line d =>
                  lax_loop fl fuel d vars
                    (if warn fl then (log ++ [InvalidLine line])%list else log)
              | LaxVar v d => lax_loop fl fuel d (vars ++ [v])%list log
              | LaxErr e => (log, inl e)
              end) in Hl by by rewrite Hd.
    destruct (lax_step data0) as [d|line d|v d|e'].
    + apply IH in Hl as [?|(t & Ht & ?)]; [by left|right].
      exists t. split; [|done]. eapply suffix_trans; [exact Ht | by apply Hsuf].
    + apply IH in Hl as [?|(t & Ht & ?)]; [by left|right].
      exists t. split; [|done]. eapply suffix_trans; [exact Ht | apply Hsuf, Hstep].
    + apply IH in Hl as [?|(t & Ht & ?)]; [by left|right].
      exists t. split; [|done]. eapply suffix_trans; [exact Ht | by apply Hsuf].
    + injection Hl as <- <-. by right.
Qed.

Lemma resume_resume (vars vars' : list envvar) (log log' : list event)
  (r : parse_result) :
  resume vars log (resume vars' log' r) = resume (vars ++ vars') (log ++ log') r.
Proof.
  destruct r as [l [e|more]]; unfold resume; simpl; by rewrite !app_assoc.
Qed.

(** The loop only appends to what it has collected and logged. *)
Lemma lax_loop_resume (fuel : nat) :
  ∀ data0 vars log,
  lax_loop fl fuel data0 vars log = resume vars log (lax_loop fl fuel data0 [] []).
Proof.
  induction fuel as [|fuel IH]; intros data0 vars log.
  - destruct data0; unfold resume; simpl; by rewrite !app_nil_r.
  - destruct data0 as [|b s] eqn:Hd.
    { unfold resume. simpl. by rewrite !app_nil_r. }
    rewrite <- Hd.
    assert (Hun : ∀ vs lg, lax_loop fl (S fuel) data0 vs lg =
              match lax_step data0 with
              | LaxSkip d => lax_loop fl fuel d vs lg
              | LaxInvalid line d =>
                  lax_loop fl fuel d vs
                    (if warn fl then (lg ++ [InvalidLine line])%list else lg)
              | LaxVar v d => lax_loop fl fuel d (vs ++ [v])%list lg
              | LaxErr e => (lg, inl e)
              end).
    { intros vs lg. by rewrite Hd. }
    rewrite !Hun. destruct (lax_step data0) as [d|line d|v d|e].
    + apply IH.
    + rewrite IH. rewrite (IH d [] (if warn fl then _ else _)), resume_resume.
      rewrite app_nil_r. by destruct (warn fl); rewrite ?app_nil_r.
    + rewrite IH. rewrite (IH d ([] ++ [v]) []), resume_resume.
      by rewrite app_nil_r.
    + unfold resume. simpl. by rewrite app_nil_r.
Qed.
End Loop.

(** C10.  [parseLax] terminates on every buffer: an iteration of its loop
    on a buffer that is not empty leaves a strictly shorter buffer, whatever
    branch it takes (comment, blank line, name and value, discarded line),
    so a budget of as many steps as the buffer has characters is never
    exhausted, any larger budget gives the same result, and [parseLax]
    never answers that the budget ran out. *)
Theorem parseLax_terminates (fl : flags) (data0 : string) :
  (data0 ≠ "" →
   match lax_step data0 with
   | LaxSkip d | LaxInvalid _ d | LaxVar _ d =>
       (String.length d < String.length data0)%nat
   | LaxErr _ => True
   end) ∧
  (∀ fuel vars log, (String.length data0 ≤ fuel)%nat →
     lax_loop fl fuel data0 vars log
       = lax_loop fl (String.length data0) data0 vars log ∧
     (lax_loop fl fuel data0 vars log).2 ≠ inl OutOfFuel) ∧
  (∀ w src, read_file w (data src) = Some data0 →
     (parseLax w fl src).2 ≠ inl OutOfFuel).
Proof.
  split; [|split].
  - intros Hne. pose proof (lax_step_inv data0 Hne) as H.
    destruct (lax_step data0); try done; try by apply progress_length.
    by apply progress_length, H.
  - intros fuel vars log Hlen.
    destruct (lax_loop_enough fl (String.length data0) data0 vars log) as [_ Heq];
      [done|].
    split; [by apply Heq|]. by apply lax_loop_enough.
  - intros w src Hread. unfold parseLax. rewrite Hread.
    by apply lax_loop_enough.
Qed.

Lemma parseLax_terminates_witness :
  (String.length (after_line Samples.two_lines) < String.length Samples.two_lines)%nat ∧
  (lax_loop Samples.fl0 40 Samples.two_lines [] []).2 ≠ inl OutOfFuel ∧
  (parseLax (Samples.one_file Samples.two_lines) Samples.fl0 Samples.lax_src).2
    ≠ inl OutOfFuel.
Proof.
  destruct (parseLax_terminates Samples.fl0 Samples.two_lines) as (Hstep & Hloop & Hparse).
  split; [|split].
  - assert (Hne : Samples.two_lines ≠ "") by discriminate.
    exact (Hstep Hne).
  - assert (Hlen : (String.length Samples.two_lines ≤ 40)%nat) by (vm_compute; lia).
    exact (proj2 (Hloop 40 [] [] Hlen)).
  - apply Hparse. reflexivity.
Defined.

(** The loop on a buffer that begins with an invalid line, with budget
    enough: the warning, when warnings are on, then the loop on the buffer
    after that line. *)
Lemma lax_loop_invalid (fl : flags) (data0 : string) (fuel : nat)
  (vars : list envvar) (log : list event) :
  data0 ≠ "" → invalid_line data0 → (String.length data0 ≤ fuel)%nat →
  lax_step data0 = LaxInvalid (first_line data0) (after_line data0) ∧
  lax_loop fl fuel data0 vars log
  = resume vars (log ++ if warn fl then [InvalidLine (first_line data0)] else [])
      (lax_loop fl (String.length (after_line data0)) (after_line data0) [] []).
Proof.
  intros Hne (line & d & Hstep)%invalid_line_step Hfuel.
  pose proof (lax_step_inv data0 Hne) as Hinv. rewrite Hstep in Hinv.
  destruct Hinv as (-> & -> & Hp). split; [done|].
  apply progress_length in Hp.
  destruct fuel as [|fuel]; [destruct data0; [done | simpl in Hfuel; lia]|].
  destruct data0 as [|b s] eqn:Hd; [done|]. rewrite <- Hd in *.
  assert (lax_loop fl (S fuel) data0 vars log
          = lax_loop fl fuel (after_line data0) vars
              (if warn fl then log ++ [InvalidLine (first_line data0)] else log)) as ->.
  { rewrite Hd at 1. cbn [lax_loop]. rewrite <- Hd. by rewrite Hstep. }
  destruct (lax_loop_enough fl (String.length (after_line data0)) (after_line data0)
              vars (if warn fl then log ++ [InvalidLine (first_line data0)] else log)
              (Nat.le_refl _)) as [_ Heq].
  rewrite (Heq fuel) by lia.
  rewrite lax_loop_resume. by destruct (warn fl); rewrite ?app_nil_r.
Qed.

(** C8.  [parseLax] gives an error only when the origin cannot be read or
    when, somewhere in the buffer, a value opens with a quote that no
    unescaped quote of the same kind closes.  A line that is invalid (no
    comment, not blank, and not a name followed by an equals sign, a comment
    or the end of the line) is no error.  What [parseLax] returns for a
    file that begins with such a line is what it returns for the file
    without that line, with the warning put first in the log when warnings
    are on.  And wherever the loop meets such a line, having collected
    assignments and warnings, it keeps them, logs the warning, and goes on
    as [parseLax] does on the text after the line: the assignments of the
    later lines follow the earlier ones, and only an error of the later
    text is an error. *)
Theorem parseLax_fails_only_unclosed (w : world) (fl : flags) (src : varsource) :
  (∀ log e, parseLax w fl src = (log, inl e) →
     (read_file w (data src) = None ∧ e = ErrOpen (data src)) ∨
     (∃ content t, read_file w (data src) = Some content ∧
                   suffix_of t content ∧ unclosed_at e t)) ∧
  (∀ data0 w' src',
     read_file w (data src) = Some data0 → data0 ≠ "" → invalid_line data0 →
     read_file w' (data src') = Some (after_line data0) →
     parseLax w fl src
     = ((if warn fl then [InvalidLine (first_line data0)] else [])
          ++ (parseLax w' fl src').1,
        (parseLax w' fl src').2)) ∧
  (∀ data0 fuel vars log w' src',
     data0 ≠ "" → invalid_line data0 → (String.length data0 ≤ fuel)%nat →
     read_file w' (data src') = Some (after_line data0) →
     lax_step data0 = LaxInvalid (first_line data0) (after_line data0) ∧
     lax_loop fl fuel data0 vars log
     = resume vars (log ++ if warn fl then [InvalidLine (first_line data0)] else [])
         (parseLax w' fl src')).
Proof.
  split; [|split].
  - intros log e. unfold parseLax.
    destruct (read_file w (data src)) as [content|] eqn:Hread.
    + intros Hl. right. exists content.
      pose proof (lax_loop_enough fl _ content [] [] (Nat.le_refl _)) as [Hfuel _].
      rewrite Hl in Hfuel.
      apply lax_loop_error in Hl as [->|(t & ? & ?)]; [done|]. by exists t.
    + intros [= <- <-]. by left.
  - intros data0 w' src' Hread Hne Hinv Hread'. unfold parseLax.
    rewrite Hread, Hread'.
    destruct (lax_loop_invalid fl data0 (String.length data0) [] [] Hne Hinv
                (Nat.le_refl _)) as [_ ->].
    unfold resume. simpl. by destruct (lax_loop _ _ _ _ _).2.
  - intros data0 fuel vars log w' src' Hne Hinv Hfuel Hread'. unfold parseLax.
    rewrite Hread'. by apply lax_loop_invalid.
Qed.

Lemma parseLax_fails_only_unclosed_witness :
  (∃ t, suffix_of t Samples.open_quote ∧ unclosed_at (ErrUnclosed "double") t) ∧
  parseLax (Samples.one_file Samples.bad_line) Samples.fl0 Samples.lax_src
    = ([InvalidLine "FOO bar"], inr [mk_envvar "A" "1" true false]) ∧
  lax_loop Samples.fl0 20 Samples.bad_line [Samples.var_A] []
    = ([InvalidLine "FOO bar"], inr [Samples.var_A; mk_envvar "A" "1" true false]).
Proof.
  assert (Hne : Samples.bad_line ≠ "") by discriminate.
  assert (Hinv : invalid_line Samples.bad_line) by (vm_compute; repeat split).
  split; [|split].
  - destruct (proj1 (parseLax_fails_only_unclosed
                       (Samples.one_file Samples.open_quote) Samples.fl0 Samples.lax_src)
                    [] (ErrUnclosed "double") eq_refl)
      as [[Hnone _]|(content & t & Hread & Hsuf & Hun)].
    + discriminate Hnone.
    + injection Hread as <-. by exists t.
  - exact (eq_trans
             (proj1 (proj2 (parseLax_fails_only_unclosed
                              (Samples.one_file Samples.bad_line) Samples.fl0
                              Samples.lax_src))
                Samples.bad_line (Samples.one_file "A=1") Samples.lax_src
                eq_refl Hne Hinv eq_refl)
             eq_refl).
  - assert (Hlen : (String.length Samples.bad_line ≤ 20)%nat) by (vm_compute; lia).
    exact (eq_trans
             (proj2 (proj2 (proj2 (parseLax_fails_only_unclosed
                              (Samples.one_file Samples.bad_line) Samples.fl0
                              Samples.lax_src))
                Samples.bad_line 20 [Samples.var_A] [] (Samples.one_file "A=1")
                Samples.lax_src Hne Hinv Hlen eq_refl))
             eq_refl).
Defined.

End LaxFacts.

(** ** The merge *)

Module MergeFacts.
Import Re Dotenv Notions.

Lemma entry_for_snoc (n : string) (seen : list envvar) (v : envvar) :
  entry_for n (seen ++ [v]) = entry_step n (entry_for n seen) v.
Proof. unfold entry_for. by rewrite foldl_snoc. Qed.

Lemma uniq_inv_init : uniq_inv ([], [], ∅) [].
Proof.
  split; simpl.
  - intros n i. rewrite lookup_empty. split; [done|]. by intros (? & ? & _).
  - intros n. by rewrite lookup_empty.
Qed.

Lemma uniq_step_inv (st : list envvar * list string * gmap string nat)
  (seen : list envvar) (v : envvar) :
  uniq_inv st seen → ∃ st', uniq_step st v = Some st' ∧ uniq_inv st' (seen ++ [v]).
Proof.
  destruct st as [[vars varnames] varindex]. intros [Hidx Hent]. simpl in *.
  unfold uniq_step.
  destruct (varindex !! name v) as [i|] eqn:Hv.
  - destruct (proj1 (Hidx _ _) Hv) as (e & Hi & He).
    assert (Hlt : i < length vars) by by eapply lookup_lt_Some.
    assert (Hcur : entry_for (name v) seen = Some e) by by rewrite Hent, Hv.
    assert (Hother : ∀ n j, n ≠ name v → varindex !! n = Some j → j ≠ i).
    { intros n j Hn Hj ->. destruct (proj1 (Hidx _ _) Hj) as (e' & Hi' & He').
      congruence. }
    destruct (tombstone v) eqn:Ht.
    + rewrite decide_True by done. eexists. split; [done|]. split; simpl.
      * intros n j. destruct (decide (j = i)) as [->|Hj].
        -- rewrite list_lookup_insert_eq by done. rewrite Hidx. split.
           ++ intros (e' & Hi' & <-). exists v. split; [done|]. congruence.
           ++ intros (e' & [= <-] & <-). by exists e.
        -- rewrite list_lookup_insert_ne by done. apply Hidx.
      * intros n. rewrite entry_for_snoc. unfold entry_step.
        destruct (String.eqb_spec (name v) n) as [<-|Hn].
        -- rewrite Hcur, Ht, Hv. simpl. by rewrite list_lookup_insert_eq.
        -- rewrite Hent. destruct (varindex !! n) as [j|] eqn:Hj; simpl; [|done].
           rewrite list_lookup_insert_ne; [done|]. intros <-.
           by eapply (Hother n).
    + eexists. split; [done|]. split; simpl; [done|].
      intros n. rewrite entry_for_snoc. unfold entry_step.
      destruct (String.eqb_spec (name v) n) as [<-|Hn]; [|done].
      by rewrite Hcur, Ht, Hv.
  - assert (Hfresh : ∀ j e, vars !! j = Some e → name e ≠ name v).
    { intros j e Hj He. assert (varindex !! name v = Some j) by (apply Hidx; eauto).
      congruence. }
    eexists. split; [done|]. split; simpl.
    + intros n j. destruct (decide (n = name v)) as [->|Hn].
      * rewrite lookup_insert_eq. split.
        -- intros [= <-]. exists v. by rewrite list_lookup_middle.
        -- intros (e & He & Hne). apply lookup_snoc_Some in He as [[Hlt He]|[-> _]]; [|done].
           by apply Hfresh in He.
      * rewrite lookup_insert_ne by done. rewrite Hidx. split.
        -- intros (e & He & <-). exists e. split; [|done].
           rewrite lookup_app_l; [done | by eapply lookup_lt_Some].
        -- intros (e & He & <-). apply lookup_snoc_Some in He as [[Hlt He]|[-> ->]]; [|done].
           by exists e.
    + intros n. rewrite entry_for_snoc. unfold entry_step.
      destruct (String.eqb_spec (name v) n) as [<-|Hn].
      * rewrite Hent, Hv, lookup_insert_eq. simpl. by rewrite list_lookup_middle.
      * rewrite lookup_insert_ne by done. rewrite Hent.
        destruct (varindex !! n) as [j|] eqn:Hj; simpl; [|done].
        destruct (proj1 (Hidx _ _) Hj) as (e & He & _).
        rewrite lookup_app_l; [done | by eapply lookup_lt_Some].
Qed.

Lemma uniq_loop_inv (rest : list envvar) :
  ∀ st seen, uniq_inv st seen →
  ∃ st', uniq_loop st rest = Some st' ∧ uniq_inv st' (seen ++ rest).
Proof.
  induction rest as [|v rest IH]; intros st seen Hinv; simpl.
  - exists st. by rewrite app_nil_r.
  - destruct (uniq_step_inv st seen v Hinv) as (st1 & -> & Hinv1).
    destruct (IH st1 _ Hinv1) as (st' & -> & Hinv').
    exists st'. split; [done|]. by rewrite <- app_assoc in Hinv'.
Qed.

(** The names of the merged list are distinct. *)
Lemma uniq_inv_NoDup (st : list envvar * list string * gmap string nat)
  (seen : list envvar) :
  uniq_inv st seen → NoDup (map name st.1.1).
Proof.
  intros [Hidx _]. change (map name st.1.1) with (name <$> st.1.1).
  apply NoDup_alt. intros i j n Hi Hj.
  rewrite list_lookup_fmap in Hi, Hj.
  destruct (st.1.1 !! i) as [vi|] eqn:Hvi; [|done].
  destruct (st.1.1 !! j) as [vj|] eqn:Hvj; [|done].
  simpl in Hi, Hj. injection Hi as Hi. injection Hj as Hj.
  assert (st.2 !! n = Some i) by (apply Hidx; eauto).
  assert (st.2 !! n = Some j) by (apply Hidx; eauto).
  congruence.
Qed.

Lemma find_name_none (P : envvar → Prop) `{!∀ x, Decision (P x)}
  (n : string) (l : list envvar) :
  (∀ e, e ∈ l → name e ≠ n) →
  find (λ v, String.eqb (name v) n) (filter P l) = None.
Proof.
  induction l as [|x l IH]; intros Hl; [done|].
  rewrite filter_cons. destruct (decide (P x)); simpl.
  - destruct (String.eqb_spec (name x) n) as [Hx|_].
    + exfalso. apply (Hl x); [left | done].
    + apply IH. intros e He. apply Hl. by right.
  - apply IH. intros e He. apply Hl. by right.
Qed.

Lemma find_name_unique (P : envvar → Prop) `{!∀ x, Decision (P x)}
  (n : string) (l : list envvar) (e : envvar) :
  NoDup (map name l) → e ∈ l → name e = n →
  find (λ v, String.eqb (name v) n) (filter P l) = if decide (P e) then Some e else None.
Proof.
  induction l as [|x l IH]; intros Hnd He Hn; [by apply elem_of_nil in He|].
  simpl in Hnd. apply NoDup_cons in Hnd as [Hx Hnd].
  assert (Hmem : ∀ y, y ∈ l → name y ∈ map name l).
  { intros y Hy. change (map name l) with (name <$> l). by apply list_elem_of_fmap_2. }
  rewrite filter_cons. apply elem_of_cons in He as [->|He].
  - destruct (decide (P x)); simpl.
    + by rewrite <- Hn, String.eqb_refl.
    + apply find_name_none. intros y Hy Hyn. apply Hx. rewrite Hn, <- Hyn. by apply Hmem.
  - assert (name x ≠ n). { intros Hxn. apply Hx. rewrite Hxn, <- Hn. by apply Hmem. }
    destruct (decide (P x)); simpl; [|by apply IH].
    destruct (String.eqb_spec (name x) n); [done|]. by apply IH.
Qed.

(** What [merge] returns: it never panics, and it binds each name as
    [merged_value] says. *)
Lemma merge_spec (allvars : list envvar) :
  ∃ final, merge allvars = Some final ∧
           NoDup (map name final) ∧
           Forall (λ v, tombstone v = false) final ∧
           ∀ n, lookup_var n final = merged_value n allvars.
Proof.
  destruct (uniq_loop_inv allvars _ _ uniq_inv_init) as ([[vars names] idx] & Hl & Hinv).
  simpl in Hinv. pose proof (uniq_inv_NoDup _ _ Hinv) as Hnd. simpl in Hnd.
  exists (strip_tombstones vars). unfold merge, uniqVarsByName. rewrite Hl. simpl.
  split; [done|]. unfold strip_tombstones. split; [|split].
  - change (NoDup (name <$> filter (λ v, tombstone v = false) vars)).
    change (map name vars) with (name <$> vars) in Hnd.
    eapply sublist_NoDup; [exact Hnd | apply fmap_sublist, sublist_filter].
  - apply Forall_forall. intros v [Hv _]%list_elem_of_filter. done.
  - intros n. destruct Hinv as [Hidx Hent]. simpl in *.
    unfold lookup_var, merged_value. rewrite Hent.
    destruct (idx !! n) as [i|] eqn:Hi; simpl.
    + destruct (proj1 (Hidx _ _) Hi) as (e & He & Hn). rewrite He.
      rewrite (find_name_unique _ n vars e Hnd); [|by eapply list_elem_of_lookup_2|done].
      destruct (tombstone e); [by rewrite decide_False | by rewrite decide_True].
    + rewrite find_name_none; [done|].
      intros e (j & Hj)%list_elem_of_lookup_1 Hn.
      assert (idx !! n = Some j) by (apply Hidx; eauto). congruence.
Qed.

(** C1.  Whatever the stream of assignments, the merge ([uniqVarsByName],
    then the loop that drops tombstones) returns a list (the indexed
    store never goes out of range) in which no two assignments have the same
    name and none is a tombstone; so no run panics in the merge, and the
    assignments a run ends with have distinct names and hold no tombstone. *)
Theorem merge_no_duplicate_no_tombstone :
  (∀ allvars, ∃ final, merge allvars = Some final ∧
                       NoDup (map name final) ∧
                       Forall (λ v, tombstone v = false) final) ∧
  (∀ w fl vm defaultType clearEnv sources cmd log,
     run w fl vm defaultType clearEnv sources cmd ≠ Panic log) ∧
  (∀ w fl vm defaultType clearEnv sources cmd log vars cmd',
     run w fl vm defaultType clearEnv sources cmd = Finished log vars cmd' →
     NoDup (map name vars) ∧ Forall (λ v, tombstone v = false) vars).
Proof.
  split; [|split].
  - intros allvars.
    destruct (merge_spec allvars) as (final & ? & ? & ? & _). by exists final.
  - intros w fl vm defaultType clearEnv sources cmd log. unfold run.
    destruct (process _ _ _ _ _ _ _) as [[[plog [err|]] vars] pcmd]; [done|].
    simpl. by destruct (merge_spec vars) as (final & -> & _).
  - intros w fl vm defaultType clearEnv sources cmd log vars cmd'. unfold run.
    destruct (process _ _ _ _ _ _ _) as [[[plog [err|]] pvars] pcmd]; [done|].
    simpl. destruct (merge_spec pvars) as (final & -> & Hnd & Hlive & _).
    by intros [= <- <- <-].
Qed.

Lemma merge_no_duplicate_no_tombstone_witness :
  NoDup (map name [mk_envvar "A" "1" false false; mk_envvar "HOME" "/root" false false]) ∧
  Forall (λ v, tombstone v = false)
         [mk_envvar "A" "1" false false; mk_envvar "HOME" "/root" false false].
Proof.
  exact (proj2 (proj2 merge_no_duplicate_no_tombstone)
           (Samples.scenario_world ("A=x" +:+ Samples.NL)) Samples.fl0 anyinterp
           laxfile false [Samples.lax_src; Samples.raw_src] []
           [] [mk_envvar "A" "1" false false; mk_envvar "HOME" "/root" false false]
           ["sh"] eq_refl).
Defined.

End MergeFacts.

(** ** Interpolation *)

Module SubstFacts.
Import Re Dotenv Notions.

Lemma apply_level_map (src : varsource) (raws : list envvar) :
  apply_level src raws = map (adjusted src) raws.
Proof.
  unfold apply_level, adjusted. destruct (decide _); [|done].
  induction raws as [|r raws IH]; simpl; congruence.
Qed.

Lemma table_after_cons (vm : regex) (vals : gmap string string) (r : envvar)
  (raws : list envvar) :
  table_after vm vals (r :: raws)
  = table_after vm (<[name r := subbed vm vals r]> vals) raws.
Proof. reflexivity. Qed.

Lemma subst_loop_app (vm : regex) (a b : list envvar) :
  ∀ vals, subst_loop vm vals (a ++ b)
          = subst_loop vm vals a ++ subst_loop vm (table_after vm vals a) b.
Proof.
  induction a as [|r a IH]; intros vals; [done|].
  rewrite <- app_comm_cons. cbn [subst_loop]. rewrite IH. by rewrite table_after_cons.
Qed.

(** The table after a batch is the table before it with the rewritten
    assignments on top. *)
Lemma table_after_overlay (vm : regex) (a : list envvar) :
  ∀ vals, table_after vm vals a = overlay vals (subst_loop vm vals a).
Proof.
  induction a as [|r a IH]; intros vals; [done|].
  rewrite table_after_cons, IH. reflexivity.
Qed.

Lemma subst_loop_length (vm : regex) (a : list envvar) :
  ∀ vals, length (subst_loop vm vals a) = length a.
Proof. induction a as [|r a IH]; intros vals; simpl; [done | by rewrite IH]. Qed.

Lemma subst_loop_names (vm : regex) (a : list envvar) :
  ∀ vals, map name (subst_loop vm vals a) = map name a.
Proof. induction a as [|r a IH]; intros vals; simpl; [done | by rewrite IH]. Qed.

Lemma subst_loop_tombstones (vm : regex) (a : list envvar) :
  ∀ vals, map tombstone (subst_loop vm vals a) = map tombstone a.
Proof. induction a as [|r a IH]; intros vals; simpl; [done | by rewrite IH]. Qed.

Lemma substitutevars_lookup (w : world) (src : varsource) (env pre : list envvar)
  (r : envvar) (post : list envvar) (vm : regex) :
  substitutevars w src env (pre ++ r :: post) vm !! length pre
  = Some (rewritten vm (table_after vm (initial_vals w env) (apply_level src pre))
                    (adjusted src r)).
Proof.
  unfold substitutevars. rewrite !apply_level_map, map_app, subst_loop_app.
  cbn [map subst_loop].
  rewrite <- (length_map (adjusted src) pre),
    <- (subst_loop_length vm _ (initial_vals w env)).
  by rewrite list_lookup_middle.
Qed.

(** The assignment at a position of a batch, once rewritten. *)
Lemma substitutevars_at (w : world) (src : varsource) (env pre : list envvar)
  (r : envvar) (post : list envvar) (vm : regex) :
  substitutevars w src env (pre ++ r :: post) vm !! length pre
  = Some (rewritten vm (batch_table w src env pre vm) (adjusted src r)).
Proof.
  rewrite substitutevars_lookup. unfold batch_table, substitutevars.
  by rewrite table_after_overlay.
Qed.

(** C4 (amended).  The table with which an assignment of a batch is
    rewritten is the process environment, overlaid with the assignments of
    the sources read before, overlaid with the already rewritten assignments
    that precede it in the same batch; so its rewritten value depends on the
    assignments before it in the batch and on none of those after it. *)
Theorem substitutevars_table (w : world) (src : varsource)
  (env pre : list envvar) (r : envvar) (post : list envvar) (vm : regex) :
  initial_vals w env = overlay (overlay ∅ (map parsevar (os_environ w))) env ∧
  substitutevars w src env (pre ++ r :: post) vm !! length pre
    = Some (rewritten vm (batch_table w src env pre vm) (adjusted src r)) ∧
  ∀ post', substitutevars w src env (pre ++ r :: post') vm !! length pre
           = substitutevars w src env (pre ++ r :: post) vm !! length pre.
Proof.
  split; [|split].
  - unfold initial_vals, overlay. f_equal.
    generalize (∅ : gmap string string).
    induction (os_environ w) as [|e l IH]; intros m; [done|]. simpl. apply IH.
  - apply substitutevars_at.
  - intros post'. by rewrite !substitutevars_at.
Qed.

(** C4, as stated, fails: in the batch A=foo, B=${A}bar the value of B is
    rewritten with the A of the same batch; alone in its batch it is not. *)
Lemma same_batch_is_visible :
  lookup_var "B" (substitutevars (Samples.sample_world [] [] []) Samples.lax_src []
                    [Samples.var_A; Samples.var_B] anyinterp) = Some "foobar" ∧
  lookup_var "B" (substitutevars (Samples.sample_world [] [] []) Samples.lax_src []
                    [Samples.var_B] anyinterp) = Some "bar".
Proof. split; vm_compute; reflexivity. Qed.

(** The parser marks a value by the quote that opens it. *)
Lemma lax_value_single_quoted (rest : string) :
  match lax_value (String Chars.squote rest) with
  | inr (_, allow, _) => allow = false
  | inl _ => True
  end.
Proof.
  unfold lax_value. rewrite QuoteFacts.trim_laxqstart. cbn [Ascii.eqb orb nth].
  change (Ascii.eqb Chars.squote Chars.squote) with true. cbn [orb nth].
  change (String.eqb (String Chars.squote "") "'") with true. cbv iota.
  by destruct (trimRegexMatches rest laxsingleq) as [[d qvals]|].
Qed.

Lemma lax_value_double_quoted (rest : string) :
  match lax_value (String Chars.dquote rest) with
  | inr (_, allow, _) => allow = true
  | inl _ => True
  end.
Proof.
  unfold lax_value. rewrite QuoteFacts.trim_laxqstart.
  change (Ascii.eqb Chars.dquote Chars.squote) with false.
  change (Ascii.eqb Chars.dquote Chars.dquote) with true. cbn [orb nth].
  change (String.eqb (String Chars.dquote "") "'") with false. cbv iota.
  by destruct (trimRegexMatches rest laxdoubleq) as [[d qvals]|].
Qed.

Lemma adjusted_default (src : varsource) (r : envvar) :
  getsublevel src = defaultsub (kind src) → adjusted src r = r.
Proof. intros H. unfold adjusted. by rewrite decide_True. Qed.

Lemma adjusted_override (src : varsource) (r : envvar) :
  getsublevel src ≠ defaultsub (kind src) →
  adjusted src r = set_allowsubs (bool_decide (getsublevel src ≠ neversub)) r.
Proof. intros H. unfold adjusted. by rewrite decide_False. Qed.

(** C6 (amended).  For a source of kind laxfile: the parser marks a
    single-quoted value as not to be interpolated, and under the level
    [maybesub] (the default of the kind, or set on the source) an assignment
    so marked comes out of [substitutevars] as it went in.  Under [forcesub]
    every assignment of the batch is interpolated, the single-quoted ones
    too; under [neversub] none is. *)
Theorem quote_wins_unless_forced (w : world) (src : varsource)
  (env pre : list envvar) (r : envvar) (post : list envvar) (vm : regex) :
  kind src = laxfile →
  (∀ rest, match lax_value (String Chars.squote rest) with
           | inr (_, allow, _) => allow = false
           | inl _ => True
           end) ∧
  (getsublevel src = maybesub → allowsubs r = false →
   substitutevars w src env (pre ++ r :: post) vm !! length pre = Some r) ∧
  (getsublevel src = forcesub →
   substitutevars w src env (pre ++ r :: post) vm !! length pre
   = Some (mk_envvar (name r)
             (ReplaceAllStringFunc vm (val r)
                (resolve vm (batch_table w src env pre vm)))
             true (tombstone r))) ∧
  (getsublevel src = neversub →
   substitutevars w src env (pre ++ r :: post) vm !! length pre
   = Some (mk_envvar (name r) (val r) false (tombstone r))).
Proof.
  intros Hkind. split; [apply lax_value_single_quoted|].
  rewrite substitutevars_at.
  split; [|split]; intros Hlevel.
  - intros Hr. rewrite adjusted_default by (by rewrite Hlevel, Hkind).
    unfold rewritten, subbed. destruct r as [n v a t]. simpl in *. by subst a.
  - rewrite adjusted_override by (by rewrite Hlevel, Hkind).
    rewrite Hlevel. reflexivity.
  - rewrite adjusted_override by (by rewrite Hlevel, Hkind).
    rewrite Hlevel. reflexivity.
Qed.

Lemma quote_wins_unless_forced_witness :
  substitutevars (Samples.sample_world [] [] []) Samples.forced_src []
    ([Samples.var_A] ++ Samples.var_B_quoted :: []) anyinterp !! 1
  = Some (mk_envvar "B" "foobar" true false) ∧
  substitutevars (Samples.sample_world [] [] []) Samples.lax_src []
    ([Samples.var_A] ++ Samples.var_B_quoted :: []) anyinterp !! 1
  = Some Samples.var_B_quoted.
Proof.
  split.
  - destruct (quote_wins_unless_forced (Samples.sample_world [] [] [])
                Samples.forced_src [] [Samples.var_A] Samples.var_B_quoted []
                anyinterp eq_refl) as (_ & _ & Hforced & _).
    refine (eq_trans (Hforced eq_refl) _). vm_compute. reflexivity.
  - destruct (quote_wins_unless_forced (Samples.sample_world [] [] [])
                Samples.lax_src [] [Samples.var_A] Samples.var_B_quoted []
                anyinterp eq_refl) as (_ & Hmaybe & _).
    exact (Hmaybe eq_refl eq_refl).
Defined.

(** C6, as stated, fails: with the level forced on a laxfile source, the
    single-quoted value of B, which the parser marked as not to be
    interpolated, is interpolated. *)
Lemma forced_interpolates_single_quoted :
  parse (Samples.one_file Samples.sq_file) Samples.fl0 Samples.forced_src
  = ([], inr [Samples.var_A; Samples.var_B_quoted]) ∧
  getsublevel Samples.forced_src = forcesub ∧
  lookup_var "B"
    (substitutevars (Samples.one_file Samples.sq_file) Samples.forced_src []
       [Samples.var_A; Samples.var_B_quoted] anyinterp) = Some "foobar".
Proof. repeat split; vm_compute; reflexivity. Qed.

(** The rewriting of the two values of the example, whatever the table. *)
Lemma replace_foo (strict : bool) (f : string → string) :
  ReplaceAllStringFunc (pattern_of strict) "foo" f = "foo".
Proof. by destruct strict. Qed.

Lemma replace_ref_A (strict : bool) (f : string → string) :
  ReplaceAllStringFunc (pattern_of strict) "${A}bar" f = f "${A}" +:+ "bar".
Proof. by destruct strict. Qed.

Lemma resolve_ref_A (strict : bool) (vals : gmap string string) :
  resolve (pattern_of strict) vals "${A}" = default "" (vals !! "A").
Proof. by destruct strict. Qed.

Lemma example_batch_double (w : world) (src : varsource) (env : list envvar)
  (strict : bool) :
  getsublevel src = defaultsub (kind src) →
  substitutevars w src env [Samples.var_A; Samples.var_B] (pattern_of strict)
  = [Samples.var_A; mk_envvar "B" "foobar" true false].
Proof.
  intros Hl. unfold substitutevars, apply_level. rewrite decide_True by done.
  cbn [subst_loop]. unfold subbed. cbn [allowsubs val name tombstone Samples.var_A Samples.var_B].
  rewrite replace_foo, replace_ref_A, resolve_ref_A, lookup_insert_eq. reflexivity.
Qed.

Lemma example_batch_single (w : world) (src : varsource) (env : list envvar)
  (strict : bool) :
  getsublevel src = defaultsub (kind src) →
  substitutevars w src env [Samples.var_A; Samples.var_B_quoted] (pattern_of strict)
  = [Samples.var_A; Samples.var_B_quoted].
Proof.
  intros Hl. unfold substitutevars, apply_level. rewrite decide_True by done.
  cbn [subst_loop]. unfold subbed.
  cbn [allowsubs val name tombstone Samples.var_A Samples.var_B_quoted].
  rewrite replace_foo. reflexivity.
Qed.

End SubstFacts.

(** ** The run: priority order, source loop, failures *)

Module RunFacts.
Import Re Dotenv Notions MergeFacts SubstFacts.

(** *** Only JSON sources produce tombstones *)

Lemma live_parsevar (s : string) : live (parsevar s).
Proof. unfold live, parsevar. by destruct (Str.cut "=" s). Qed.

Lemma Forall_live_map_parsevar (l : list string) : Forall live (map parsevar l).
Proof. induction l; simpl; constructor; auto using live_parsevar. Qed.

Lemma live_shell_tokens (tokens : list string) : Forall live (shell_tokens tokens).
Proof.
  unfold shell_tokens.
  repeat case_match; repeat constructor; auto using live_parsevar.
Qed.

Lemma live_shell_lines (w : world) (lines : list string) :
  ∀ pending, Forall live (shell_lines w lines pending).
Proof.
  induction lines as [|l lines IH]; intros pending; simpl; [constructor|].
  repeat case_match; try apply Forall_app_2; auto using live_shell_tokens.
Qed.

Lemma live_lax_step (data0 : string) (v : envvar) (d : string) :
  lax_step data0 = LaxVar v d → live v.
Proof.
  unfold lax_step. intros H. repeat case_match; simplify_eq; done.
Qed.

Lemma live_lax_loop (fl : flags) (fuel : nat) :
  ∀ data0 vars log log' out,
  Forall live vars → lax_loop fl fuel data0 vars log = (log', inr out) →
  Forall live out.
Proof.
  induction fuel as [|fuel IH]; intros data0 vars log log' out Hv Hl.
  - destruct data0; simpl in Hl; by simplify_eq.
  - destruct data0 as [|b s] eqn:Hd; [simpl in Hl; by simplify_eq|].
    cbn [lax_loop] in Hl. rewrite <- Hd in *.
    destruct (lax_step data0) as [d|line d|v d|e] eqn:Hs; [| | |done].
    + by eapply IH.
    + by eapply IH.
    + eapply IH; [|exact Hl]. apply Forall_app_2; [done|].
      constructor; [|constructor]. by eapply live_lax_step.
Qed.

Lemma live_filter (P : envvar → Prop) `{!∀ x, Decision (P x)} (l : list envvar) :
  Forall live l → Forall live (filter P l).
Proof.
  rewrite !Forall_forall. intros Hl v [_ Hv]%list_elem_of_filter. by apply Hl.
Qed.

Lemma live_readenv (w : world) (fl : flags) (p : N) (l : list envvar) :
  readenv w fl p = Some l → Forall live l.
Proof.
  unfold readenv. intros H.
  repeat case_match; simplify_eq; simplify_option_eq;
    apply Forall_live_map_parsevar.
Qed.

Lemma parse_live (w : world) (fl : flags) (src : varsource) (log : list event)
  (vars : list envvar) :
  kind src ≠ jsonmap → parse w fl src = (log, inr vars) → Forall live vars.
Proof.
  intros Hk. unfold parse. destruct (kind src) eqn:Hkind; try done.
  - unfold parseFile. destruct (open_file w (data src)); [|done].
    intros [= <- <-]. generalize (Str.scan_lines s).
    intros l. induction l as [|x l IH]; simpl; [constructor|].
    apply Forall_app_2; [|done].
    repeat case_match; repeat constructor; apply live_parsevar.
  - unfold parseShell. destruct (open_file w (data src)); [|done].
    intros [= <- <-]. apply live_shell_lines.
  - intros [= <- <-]. constructor; [apply live_parsevar | constructor].
  - intros [= <- <-]. apply Forall_live_map_parsevar.
  - unfold parseLax. destruct (read_file w (data src)); [|done].
    intros Hl. eapply live_lax_loop; [|exact Hl]. constructor.
  - unfold parseFromPid. intros H.
    repeat case_match; simplify_eq; eapply live_filter, live_readenv; eassumption.
Qed.

(** [substitutevars] changes neither names nor tombstones. *)
Lemma substitutevars_names (w : world) (src : varsource) (env raws : list envvar)
  (vm : regex) :
  map name (substitutevars w src env raws vm) = map name raws.
Proof.
  unfold substitutevars. rewrite SubstFacts.subst_loop_names, SubstFacts.apply_level_map.
  rewrite map_map. apply map_ext. intros r. unfold adjusted. by destruct (decide _).
Qed.

Lemma substitutevars_tombstones (w : world) (src : varsource)
  (env raws : list envvar) (vm : regex) :
  map tombstone (substitutevars w src env raws vm) = map tombstone raws.
Proof.
  unfold substitutevars.
  rewrite SubstFacts.subst_loop_tombstones, SubstFacts.apply_level_map.
  rewrite map_map. apply map_ext. intros r. unfold adjusted. by destruct (decide _).
Qed.

Lemma live_same_tombstones (a : list envvar) :
  ∀ b, map tombstone a = map tombstone b → Forall live b → Forall live a.
Proof.
  induction a as [|x a IH]; intros [|y b] Heq Hb; try done.
  apply Forall_cons in Hb as [Hy Hb]. simpl in Heq. injection Heq as Hx Heq.
  constructor; [unfold live in *; congruence | by eapply IH].
Qed.

Lemma substitutevars_live (w : world) (src : varsource) (env raws : list envvar)
  (vm : regex) :
  Forall live raws → Forall live (substitutevars w src env raws vm).
Proof. apply live_same_tombstones, substitutevars_tombstones. Qed.

(** *** The entry of a name *)

Lemma entry_keep (n : string) (rest : list envvar) :
  ∀ e, Forall live rest → foldl (entry_step n) (Some e) rest = Some e.
Proof.
  induction rest as [|v rest IH]; intros e Hl; [done|].
  apply Forall_cons in Hl as [Hv Hl]. simpl. unfold entry_step at 2.
  rewrite Hv. destruct (String.eqb (name v) n); by apply IH.
Qed.

Lemma entry_dead (n : string) (rest : list envvar) :
  ∀ e, tombstone e = true →
       ∃ e', foldl (entry_step n) (Some e) rest = Some e' ∧ tombstone e' = true.
Proof.
  induction rest as [|v rest IH]; intros e He; [by exists e|].
  simpl. unfold entry_step at 2.
  destruct (String.eqb (name v) n); [|by apply IH].
  destruct (tombstone v) eqn:Hv; by apply IH.
Qed.

Lemma entry_absent (n : string) (l : list envvar) :
  Forall (λ v, name v ≠ n) l → foldl (entry_step n) None l = None.
Proof.
  induction l as [|v l IH]; [done|]. intros [Hv Hl]%Forall_cons.
  simpl. unfold entry_step at 2.
  destruct (String.eqb_spec (name v) n); [done | by apply IH].
Qed.

Lemma merged_first_live (n : string) (v : envvar) (pre rest : list envvar) :
  Forall (λ u, name u ≠ n) pre → name v = n → live v → Forall live rest →
  merged_value n (pre ++ v :: rest) = Some (val v).
Proof.
  intros Hpre Hn Hv Hrest. unfold merged_value, entry_for.
  rewrite foldl_app, (entry_absent _ _ Hpre). simpl. unfold entry_step at 2.
  rewrite <- Hn, String.eqb_refl, entry_keep by done. by rewrite Hv.
Qed.

Lemma merged_head_live (n : string) (v : envvar) (rest : list envvar) :
  name v = n → live v → Forall live rest →
  merged_value n (v :: rest) = Some (val v).
Proof. intros. by apply (merged_first_live n v []); [constructor| | |]. Qed.

Lemma merged_first_dead (n : string) (v : envvar) (rest : list envvar) :
  name v = n → tombstone v = true → merged_value n (v :: rest) = None.
Proof.
  intros Hn Hv. unfold merged_value, entry_for. simpl. unfold entry_step at 2.
  rewrite <- Hn, String.eqb_refl.
  destruct (entry_dead (name v) rest v Hv) as (e' & -> & ->). done.
Qed.

Lemma lookup_var_None (n : string) (l : list envvar) :
  lookup_var n l = None → Forall (λ v, name v ≠ n) l.
Proof.
  unfold lookup_var. induction l as [|x l IH]; simpl; [constructor|].
  destruct (String.eqb_spec (name x) n); [done|]. intros H. constructor; auto.
Qed.

(** *** The source loop *)

Section Process.
Variable w : world.
Variable fl : flags.
Variable vm : regex.

Lemma process_ok (src : varsource) (rest : list varsource) (vars : list envvar)
  (cmd : list string) (log plog : list event) (parsed : list envvar) :
  parse w fl src = (plog, inr parsed) →
  process w fl vm (src :: rest) vars cmd log
  = process w fl vm rest (vars ++ substitutevars w src vars parsed vm) cmd (log ++ plog).
Proof. intros H. cbn [process]. by rewrite H. Qed.

Lemma process_nil (vars : list envvar) (cmd : list string) (log : list event) :
  process w fl vm [] vars cmd log = (log, None, vars, cmd).
Proof. reflexivity. Qed.

Lemma finish_merged (log : list event) (vars : list envvar) (cmd : list string) :
  ∃ final cmd', finish (log, None, vars, cmd) = Finished log final cmd' ∧
                ∀ n, lookup_var n final = merged_value n vars.
Proof.
  destruct (MergeFacts.merge_spec vars) as (final & Hm & _ & _ & Hl).
  exists final. eexists. unfold finish. rewrite Hm. done.
Qed.

Lemma finish_merged_once (log : list event) (vars : list envvar) (cmd : list string) :
  ∃ final cmd', finish (log, None, vars, cmd) = Finished log final cmd' ∧
                NoDup (map name final) ∧ Forall (λ v, tombstone v = false) final ∧
                ∀ n, lookup_var n final = merged_value n vars.
Proof.
  destruct (MergeFacts.merge_spec vars) as (final & Hm & Hnd & Hts & Hl).
  exists final. eexists. unfold finish. rewrite Hm. done.
Qed.
End Process.

Lemma filter_none (n : string) (l : list envvar) :
  n ∉ map name l → filter (λ v, name v = n) l = [].
Proof.
  induction l as [|x l IH]; intros Hn; [done|]. simpl in Hn.
  apply not_elem_of_cons in Hn as [Hx Hn].
  rewrite filter_cons, decide_False by done. by apply IH.
Qed.

(** In a list without two assignments of a name, the assignment a lookup
    finds is the only one of its name. *)
Lemma lookup_only (n value : string) (l : list envvar) :
  NoDup (map name l) → Forall (λ v, tombstone v = false) l →
  lookup_var n l = Some value →
  ∃ a, filter (λ v, name v = n) l = [mk_envvar n value a false].
Proof.
  unfold lookup_var. induction l as [|x l IH]; intros Hnd Hts Hl; [done|].
  simpl in Hnd. apply NoDup_cons in Hnd as [Hx Hnd].
  apply Forall_cons in Hts as [Htx Hts]. simpl in Hl.
  rewrite filter_cons. destruct (String.eqb_spec (name x) n) as [Hn|Hn].
  - rewrite decide_True by done. injection Hl as Hv. exists (allowsubs x).
    f_equal; [destruct x; simpl in *; congruence|].
    apply filter_none. by rewrite <- Hn.
  - rewrite decide_False by done. by apply IH.
Qed.

Lemma parse_raw (w : world) (fl : flags) (src : varsource) :
  kind src = raw → parse w fl src = ([], inr [parsevar (data src)]).
Proof. intros H. unfold parse. by rewrite H. Qed.

Lemma parse_osenv (w : world) (fl : flags) (src : varsource) :
  kind src = osenv → parse w fl src = ([], inr (map parsevar (os_environ w))).
Proof. intros H. unfold parse. by rewrite H. Qed.

(** *** [Sort] sorts *)

Lemma not_before_trans (a b c : priority) :
  not_before a b → not_before b c → not_before a c.
Proof.
  unfold not_before, Less. intros H1 H2.
  repeat (case_decide || case_bool_decide); try done; lia.
Qed.

Lemma not_before_total (a b : priority) : not_before a b ∨ not_before b a.
Proof.
  unfold not_before, Less.
  repeat (case_decide || case_bool_decide); auto; lia.
Qed.

Lemma insert_by_perm (x : priority) (l : list priority) : insert_by x l ≡ₚ x :: l.
Proof.
  induction l as [|y l IH]; simpl; [done|].
  destruct (Less y x); [|done]. by rewrite IH, Permutation_swap.
Qed.

Lemma Sort_perm (l : list priority) : Sort l ≡ₚ l.
Proof.
  induction l as [|x l IH]; simpl; [done|].
  by rewrite insert_by_perm, IH.
Qed.

Lemma insert_by_sorted (x : priority) (l : list priority) :
  StronglySorted not_before l → StronglySorted not_before (insert_by x l).
Proof.
  induction 1 as [|y l Hl IH Hy]; simpl; [repeat constructor|].
  destruct (Less y x) eqn:Hyx.
  - constructor; [done|]. rewrite insert_by_perm. constructor; [|done].
    destruct (not_before_total y x) as [H|H]; [done|].
    unfold not_before in H. congruence.
  - constructor; [by constructor|]. constructor; [done|].
    eapply Forall_impl; [exact Hy|]. intros z Hz.
    by eapply not_before_trans.
Qed.

Lemma Sort_sorted (l : list priority) : StronglySorted not_before (Sort l).
Proof.
  induction l as [|x l IH]; simpl; [constructor | by apply insert_by_sorted].
Qed.

(** *** The priority order of two and of three sources *)

Lemma Less_by_rank (x y : priority) :
  rank (kind (source x)) < rank (kind (source y)) →
  Less x y = true ∧ Less y x = false.
Proof.
  intros H. unfold Less. split.
  - rewrite decide_True by lia. by rewrite bool_decide_eq_true_2.
  - rewrite decide_True by lia. rewrite bool_decide_eq_false_2; [done | lia].
Qed.

Lemma sort_two (a b : varsource) :
  rank (kind a) < rank (kind b) →
  sort_sources (bypriority [a; b]) = [a; b] ∧
  sort_sources (bypriority [b; a]) = [a; b].
Proof.
  intros H. unfold sort_sources, bypriority, Sort. cbn [imap foldr insert_by].
  destruct (Less_by_rank (mk_priority a 0) (mk_priority b 1) H) as [H1 H2].
  destruct (Less_by_rank (mk_priority a 1) (mk_priority b 0) H) as [H3 H4].
  unfold compose. by rewrite ?H1, ?H2, ?H3, ?H4.
Qed.

Lemma sort_three (o a b : varsource) :
  rank (kind a) < rank (kind o) → rank (kind o) < rank (kind b) →
  sort_sources (bypriority [o; a; b]) = [a; o; b] ∧
  sort_sources (bypriority [o; b; a]) = [a; o; b].
Proof.
  intros Hao Hob. assert (Hab : rank (kind a) < rank (kind b)) by lia.
  unfold sort_sources, bypriority, Sort. cbn [imap foldr insert_by]. unfold compose.
  destruct (Less_by_rank (mk_priority a 1) (mk_priority b 2) Hab) as [E1 E2].
  destruct (Less_by_rank (mk_priority a 2) (mk_priority b 1) Hab) as [E3 E4].
  destruct (Less_by_rank (mk_priority a 1) (mk_priority o 0) Hao) as [E5 E6].
  destruct (Less_by_rank (mk_priority a 2) (mk_priority o 0) Hao) as [E7 E8].
  destruct (Less_by_rank (mk_priority o 0) (mk_priority b 2) Hob) as [E9 E10].
  destruct (Less_by_rank (mk_priority o 0) (mk_priority b 1) Hob) as [E11 E12].
  split.
  - rewrite E2. cbn [insert_by]. rewrite E5. cbn [insert_by]. by rewrite E10.
  - rewrite E3. cbn [insert_by]. rewrite E7. cbn [insert_by]. by rewrite E12.
Qed.

Lemma setDefaultType_typed (t : sourcetype) (sources : list varsource) :
  Forall (λ s, kind s ≠ notype) sources → setDefaultType t sources = sources.
Proof.
  induction 1 as [|s l Hs Hl IH]; [done|]. unfold setDefaultType in *. simpl.
  rewrite decide_False by done. by rewrite IH.
Qed.

(** The sources of a run with one source of rank below the environment's
    and one file, in either order, as the loop meets them. *)
Lemma scenario_order (t : sourcetype) (clearEnv : bool) (a fsrc : varsource)
  (sources : list varsource) :
  rank (kind a) < 2 → kind a ≠ notype →
  kind fsrc = file ∨ kind fsrc = shell ∨ kind fsrc = laxfile →
  sources = [a; fsrc] ∨ sources = [fsrc; a] →
  sort_sources (bypriority (if clearEnv then setDefaultType t sources
                            else osenv_src :: setDefaultType t sources))
  = if clearEnv then [a; fsrc] else [a; osenv_src; fsrc].
Proof.
  intros Ha Hna Hf Hs.
  assert (Hrf : rank (kind fsrc) = 3) by (by destruct Hf as [->|[->| ->]]).
  assert (Hnf : kind fsrc ≠ notype) by (by destruct Hf as [->|[->| ->]]).
  rewrite setDefaultType_typed
    by (destruct Hs as [-> | ->]; repeat constructor; done).
  destruct clearEnv.
  - destruct (sort_two a fsrc) as [E1 E2]; [lia|]. by destruct Hs as [-> | ->].
  - destruct (sort_three osenv_src a fsrc) as [E1 E2];
      [exact Ha | rewrite Hrf; change (rank (kind osenv_src)) with 2; lia |].
    by destruct Hs as [-> | ->].
Qed.

Lemma live_osenv (w : world) (src : varsource) (env : list envvar) (vm : regex) :
  Forall live (substitutevars w src env (map parsevar (os_environ w)) vm).
Proof. apply substitutevars_live, Forall_live_map_parsevar. Qed.

Lemma replace_one (strict : bool) (f : string → string) :
  ReplaceAllStringFunc (pattern_of strict) "1" f = "1".
Proof. by destruct strict. Qed.

Lemma replace_empty (strict : bool) (f : string → string) :
  ReplaceAllStringFunc (pattern_of strict) "" f = "".
Proof. by destruct strict. Qed.

Lemma subst_raw_A1 (w : world) (src : varsource) (env : list envvar) (strict : bool) :
  ∃ a, substitutevars w src env [parsevar "A=1"] (pattern_of strict)
       = [mk_envvar "A" "1" a false].
Proof.
  unfold substitutevars. rewrite SubstFacts.apply_level_map.
  change (parsevar "A=1") with (mk_envvar "A" "1" false false).
  cbn [map subst_loop]. unfold adjusted, subbed.
  destruct (decide _); [by eexists|].
  destruct (bool_decide _); cbn [set_allowsubs allowsubs val name tombstone];
    rewrite ?replace_one; by eexists.
Qed.

Lemma subst_tombstone_A (w : world) (src : varsource) (env : list envvar)
  (strict : bool) :
  ∃ a, substitutevars w src env [mk_envvar "A" "" false true] (pattern_of strict)
       = [mk_envvar "A" "" a true].
Proof.
  unfold substitutevars. rewrite SubstFacts.apply_level_map.
  cbn [map subst_loop]. unfold adjusted, subbed.
  destruct (decide _); [by eexists|].
  destruct (bool_decide _); cbn [set_allowsubs allowsubs val name tombstone];
    rewrite ?replace_empty; by eexists.
Qed.

(** C2.  With the sources a raw assignment A=1 and a file that parses,
    given in either order, with or without the implicit environment source:
    the raw source has rank 0 and is read first, the file has rank 3 and is
    read last, the merge keeps the first assignment of A and drops the
    later ones, and the run ends with A bound to 1, whatever the file and
    the environment define: the final mapping holds one assignment of A,
    it has the value 1, and it is the one a lookup finds. *)
Theorem raw_beats_file (w : world) (fl : flags) (strict : bool)
  (defaultType : sourcetype) (clearEnv : bool) (rsrc fsrc : varsource)
  (flog : list event) (fvars : list envvar) (cmd : list string)
  (sources : list varsource) :
  kind rsrc = raw → data rsrc = "A=1" →
  kind fsrc = file ∨ kind fsrc = shell ∨ kind fsrc = laxfile →
  parse w fl fsrc = (flog, inr fvars) →
  sources = [rsrc; fsrc] ∨ sources = [fsrc; rsrc] →
  ∃ log vars cmd',
    run w fl (pattern_of strict) defaultType clearEnv sources cmd
      = Finished log vars cmd' ∧
    lookup_var "A" vars = Some "1" ∧
    ∃ a, filter (λ v, name v = "A") vars = [mk_envvar "A" "1" a false].
Proof.
  intros Hk Hd Hf Hparse Hs.
  assert (Hfj : kind fsrc ≠ jsonmap) by (by destruct Hf as [->|[->| ->]]).
  pose proof (parse_live _ _ _ _ _ Hfj Hparse) as Hflive.
  unfold run.
  rewrite (scenario_order defaultType clearEnv rsrc fsrc sources);
    [|rewrite Hk; change (rank raw) with 0; lia | by rewrite Hk | done | done].
  pose proof (parse_raw w fl rsrc Hk) as Hpr. rewrite Hd in Hpr.
  destruct (subst_raw_A1 w rsrc [] strict) as [a Ha].
  destruct clearEnv.
  - rewrite (process_ok _ _ _ _ _ _ _ _ _ _ Hpr), (process_ok _ _ _ _ _ _ _ _ _ _ Hparse),
      process_nil.
    destruct (finish_merged_once (([] ++ []) ++ flog)
                (([] ++ substitutevars w rsrc [] [parsevar "A=1"] (pattern_of strict)) ++
                 substitutevars w fsrc
                   ([] ++ substitutevars w rsrc [] [parsevar "A=1"] (pattern_of strict))
                   fvars (pattern_of strict)) cmd)
      as (final & cmd' & -> & Hnd & Hts & Hl).
    eexists _, final, cmd'. split; [done|].
    assert (Hone : lookup_var "A" final = Some "1").
    { rewrite Hl, Ha. cbn [app].
      apply (merged_head_live "A" (mk_envvar "A" "1" a false)); [done | done |].
      by apply substitutevars_live. }
    split; [done | by apply lookup_only].
  - rewrite (process_ok _ _ _ _ _ _ _ _ _ _ Hpr),
      (process_ok _ _ _ _ _ _ _ _ _ _ (parse_osenv w fl osenv_src eq_refl)),
      (process_ok _ _ _ _ _ _ _ _ _ _ Hparse), process_nil.
    match goal with |- context [finish (?l, None, ?v, ?c)] =>
      destruct (finish_merged_once l v c) as (final & cmd' & -> & Hnd & Hts & Hl) end.
    eexists _, final, cmd'. split; [done|].
    assert (Hone : lookup_var "A" final = Some "1").
    { rewrite Hl, Ha. cbn [app].
      apply (merged_head_live "A" (mk_envvar "A" "1" a false)); [done | done |].
      apply Forall_app_2; [apply live_osenv | by apply substitutevars_live]. }
    split; [done | by apply lookup_only].
Qed.

Lemma raw_beats_file_witness :
  ∃ log vars cmd',
    run (Samples.scenario_world ("A=2" +:+ Samples.NL)) Samples.fl0
        (pattern_of false) laxfile false [Samples.lax_src; Samples.raw_src] []
      = Finished log vars cmd' ∧
    lookup_var "A" vars = Some "1" ∧
    ∃ a, filter (λ v, name v = "A") vars = [mk_envvar "A" "1" a false].
Proof.
  apply (raw_beats_file (Samples.scenario_world ("A=2" +:+ Samples.NL)) Samples.fl0
           false laxfile false Samples.raw_src Samples.lax_src []
           [mk_envvar "A" "2" true false] []).
  - reflexivity.
  - reflexivity.
  - right. right. reflexivity.
  - vm_compute. reflexivity.
  - right. reflexivity.
Defined.

Lemma parse_json_null (w : world) (fl : flags) (src : varsource) :
  kind src = jsonmap → json_unmarshal w (data src) = Some [("A", JNull)] →
  parse w fl src = ([], inr [mk_envvar "A" "" false true]).
Proof. intros Hk Hj. unfold parse, parseJsonMap. by rewrite Hk, Hj. Qed.

(** C3.  With the sources a JSON map whose text decodes to A: null and a
    file that parses, in either order, with or without the implicit
    environment source: the JSON source has rank 1 and is read before the
    environment (rank 2) and the file (rank 3), so the tombstone is the first
    assignment of A in the stream; the merge retains it, no later assignment
    replaces it, and stripping removes it: the run ends with no assignment
    named A, whatever the file and the environment define for A. *)
Theorem json_null_deletes (w : world) (fl : flags) (strict : bool)
  (defaultType : sourcetype) (clearEnv : bool) (jsrc fsrc : varsource)
  (flog : list event) (fvars : list envvar) (cmd : list string)
  (sources : list varsource) :
  kind jsrc = jsonmap → json_unmarshal w (data jsrc) = Some [("A", JNull)] →
  kind fsrc = file ∨ kind fsrc = shell ∨ kind fsrc = laxfile →
  parse w fl fsrc = (flog, inr fvars) →
  sources = [jsrc; fsrc] ∨ sources = [fsrc; jsrc] →
  ∃ log vars cmd',
    run w fl (pattern_of strict) defaultType clearEnv sources cmd
      = Finished log vars cmd' ∧
    lookup_var "A" vars = None ∧ Forall (λ v, name v ≠ "A") vars.
Proof.
  intros Hk Hj Hf Hparse Hs. unfold run.
  rewrite (scenario_order defaultType clearEnv jsrc fsrc sources);
    [|rewrite Hk; change (rank jsonmap) with 1; lia | by rewrite Hk | done | done].
  pose proof (parse_json_null w fl jsrc Hk Hj) as Hpj.
  destruct (subst_tombstone_A w jsrc [] strict) as [a Ha].
  assert (Hgoal : ∀ l v c, (∃ rest, v = mk_envvar "A" "" a true :: rest) →
            ∃ log vars cmd', finish (l, None, v, c) = Finished log vars cmd' ∧
                             lookup_var "A" vars = None ∧
                             Forall (λ u, name u ≠ "A") vars).
  { intros l v c [rest ->].
    destruct (finish_merged l (mk_envvar "A" "" a true :: rest) c)
      as (final & cmd' & -> & Hl).
    assert (lookup_var "A" final = None)
      by (rewrite Hl; by apply merged_first_dead).
    eexists _, final, cmd'. split; [done|]. split; [done|].
    by apply lookup_var_None. }
  destruct clearEnv.
  - rewrite (process_ok _ _ _ _ _ _ _ _ _ _ Hpj), (process_ok _ _ _ _ _ _ _ _ _ _ Hparse),
      process_nil.
    apply Hgoal. rewrite Ha. by eexists.
  - rewrite (process_ok _ _ _ _ _ _ _ _ _ _ Hpj),
      (process_ok _ _ _ _ _ _ _ _ _ _ (parse_osenv w fl osenv_src eq_refl)),
      (process_ok _ _ _ _ _ _ _ _ _ _ Hparse), process_nil.
    apply Hgoal. rewrite Ha. by eexists.
Qed.

Lemma json_null_deletes_witness :
  ∃ log vars cmd',
    run (Samples.scenario_world ("A=x" +:+ Samples.NL)) Samples.fl0
        (pattern_of false) laxfile false [Samples.lax_src; Samples.json_src] []
      = Finished log vars cmd' ∧
    lookup_var "A" vars = None ∧ Forall (λ v, name v ≠ "A") vars.
Proof.
  apply (json_null_deletes (Samples.scenario_world ("A=x" +:+ Samples.NL)) Samples.fl0
           false laxfile false Samples.json_src Samples.lax_src []
           [mk_envvar "A" "x" true false] []).
  - reflexivity.
  - reflexivity.
  - right. right. reflexivity.
  - vm_compute. reflexivity.
  - right. reflexivity.
Defined.

(** C7 at the failing input: the text A: 1, whose number the decoder hands
    over as a float64, gives A the empty value, not 1; a null gives a
    tombstone, a string its text, any other value the empty string, and a
    text the decoder rejects gives the error. *)
Theorem parseJsonMap_number_is_empty :
  parseJsonMap (Samples.scenario_world "") Samples.number_src
  = ([], inr [mk_envvar "A" "" false false]) ∧
  (∀ k lit, json_entry (k, JFloat64 lit) = mk_envvar k "" false false) ∧
  (∀ k, json_entry (k, JNull) = mk_envvar k "" false true) ∧
  (∀ k s, json_entry (k, JString s) = mk_envvar k s false false) ∧
  (∀ k b, json_entry (k, JBool b) = mk_envvar k "" false false) ∧
  (∀ k l, json_entry (k, JArray l) = mk_envvar k "" false false) ∧
  (∀ k l, json_entry (k, JObject l) = mk_envvar k "" false false) ∧
  (∀ w src, parseJsonMap w src
            = match json_unmarshal w (data src) with
              | None => ([], inl (ErrJson (data src)))
              | Some env => ([], inr (map json_entry env))
              end).
Proof. repeat split. Qed.

Lemma Forall_names (n : string) (l : list envvar) :
  Forall (λ u, name u ≠ n) l ↔ Forall (λ m, m ≠ n) (map name l).
Proof.
  induction l as [|x l IH]; simpl; [split; constructor|].
  by rewrite !Forall_cons, IH.
Qed.

Lemma sort_one (a : varsource) : sort_sources (bypriority [a]) = [a].
Proof. reflexivity. Qed.

Lemma parse_lax_file (w : world) (fl : flags) (src : varsource)
  (content : string) (vars : list envvar) :
  kind src = laxfile → read_file w (data src) = Some content →
  lax_loop fl (String.length content) content [] [] = ([], inr vars) →
  parse w fl src = ([], inr vars).
Proof. intros Hk Hr Hl. unfold parse, parseLax. by rewrite Hk, Hr. Qed.

(** The run whose only source is a lax file with the two lines of the
    example. *)
Lemma example_run (w : world) (fl : flags) (src : varsource) (strict : bool)
  (defaultType : sourcetype) (clearEnv : bool) (cmd : list string)
  (b : envvar) (b' : envvar) :
  kind src = laxfile →
  (clearEnv = false → Forall (λ e, name (parsevar e) ≠ "B") (os_environ w)) →
  parse w fl src = ([], inr [Samples.var_A; b]) →
  (∀ env, substitutevars w src env [Samples.var_A; b] (pattern_of strict)
          = [Samples.var_A; b']) →
  name b' = "B" → live b' →
  ∃ log vars cmd',
    run w fl (pattern_of strict) defaultType clearEnv [src] cmd
      = Finished log vars cmd' ∧
    lookup_var "B" vars = Some (val b').
Proof.
  intros Hk Hos Hparse Hsub Hn Hlive. unfold run.
  rewrite setDefaultType_typed by (repeat constructor; by rewrite Hk).
  destruct clearEnv.
  - rewrite sort_one, (process_ok _ _ _ _ _ _ _ _ _ _ Hparse), process_nil, Hsub.
    match goal with |- context [finish (?l, None, ?v, ?c)] =>
      destruct (finish_merged l v c) as (final & cmd' & -> & Hl) end.
    eexists _, final, cmd'. split; [done|]. rewrite Hl.
    apply (merged_first_live "B" b' [Samples.var_A] []);
      [repeat constructor; done | done | done | constructor].
  - destruct (sort_two osenv_src src) as [-> _];
      [rewrite Hk; change (rank (kind osenv_src)) with 2;
       change (rank laxfile) with 3; lia|].
    rewrite (process_ok _ _ _ _ _ _ _ _ _ _ (parse_osenv w fl osenv_src eq_refl)),
      (process_ok _ _ _ _ _ _ _ _ _ _ Hparse), process_nil, Hsub.
    match goal with |- context [finish (?l, None, ?v, ?c)] =>
      destruct (finish_merged l v c) as (final & cmd' & -> & Hl) end.
    eexists _, final, cmd'. split; [done|]. rewrite Hl.
    rewrite app_nil_l.
    change [Samples.var_A; b'] with ([Samples.var_A] ++ [b']).
    rewrite app_assoc.
    apply merged_first_live; [|done|done|constructor].
    apply Forall_app_2; [|repeat constructor; done].
    apply Forall_names. rewrite substitutevars_names. apply Forall_names.
    specialize (Hos eq_refl). clear -Hos.
    induction Hos; simpl; constructor; auto.
Qed.

(** C5.  For a laxfile source at the level maybe whose file is the line
    A=foo followed by the line B="${A}bar": the parser yields A and B, B
    marked for interpolation; [substitutevars] rewrites B to foobar with
    either pattern, whatever the environment and the earlier sources hold;
    and in the run whose only source is this file B ends bound to foobar
    (when the environment source takes part, as long as it does not itself
    define B, which would come first).  With B='${A}bar' instead, B is marked
    as not to be interpolated and keeps the value ${A}bar. *)
Theorem lax_interpolation_example (w : world) (fl : flags) (src : varsource)
  (env : list envvar) (strict : bool) (defaultType : sourcetype)
  (clearEnv : bool) (cmd : list string) :
  kind src = laxfile → getsublevel src = maybesub →
  (clearEnv = false → Forall (λ e, name (parsevar e) ≠ "B") (os_environ w)) →
  (read_file w (data src) = Some Samples.dq_file →
   parse w fl src = ([], inr [Samples.var_A; Samples.var_B]) ∧
   substitutevars w src env [Samples.var_A; Samples.var_B] (pattern_of strict)
     = [Samples.var_A; mk_envvar "B" "foobar" true false] ∧
   ∃ log vars cmd',
     run w fl (pattern_of strict) defaultType clearEnv [src] cmd
       = Finished log vars cmd' ∧
     lookup_var "B" vars = Some "foobar") ∧
  (read_file w (data src) = Some Samples.sq_file →
   parse w fl src = ([], inr [Samples.var_A; Samples.var_B_quoted]) ∧
   substitutevars w src env [Samples.var_A; Samples.var_B_quoted] (pattern_of strict)
     = [Samples.var_A; Samples.var_B_quoted] ∧
   ∃ log vars cmd',
     run w fl (pattern_of strict) defaultType clearEnv [src] cmd
       = Finished log vars cmd' ∧
     lookup_var "B" vars = Some "${A}bar").
Proof.
  intros Hk Hsl Hos.
  assert (Hlevel : getsublevel src = defaultsub (kind src))
    by (by rewrite Hsl, Hk).
  split; intros Hread.
  - assert (Hparse : parse w fl src = ([], inr [Samples.var_A; Samples.var_B]))
      by (eapply parse_lax_file; [done | done | by vm_compute]).
    split; [done|]. split; [by apply example_batch_double|].
    apply (example_run w fl src strict defaultType clearEnv cmd Samples.var_B
             (mk_envvar "B" "foobar" true false)); try done.
    intros env'. by apply example_batch_double.
  - assert (Hparse : parse w fl src = ([], inr [Samples.var_A; Samples.var_B_quoted]))
      by (eapply parse_lax_file; [done | done | by vm_compute]).
    split; [done|]. split; [by apply example_batch_single|].
    apply (example_run w fl src strict defaultType clearEnv cmd Samples.var_B_quoted
             Samples.var_B_quoted); try done.
    intros env'. by apply example_batch_single.
Qed.

Lemma lax_interpolation_example_witness :
  (∃ log vars cmd',
     run (Samples.scenario_world Samples.dq_file) Samples.fl0 (pattern_of false)
         laxfile false [Samples.lax_src] []
       = Finished log vars cmd' ∧
     lookup_var "B" vars = Some "foobar") ∧
  (∃ log vars cmd',
     run (Samples.scenario_world Samples.sq_file) Samples.fl0 (pattern_of false)
         laxfile false [Samples.lax_src] []
       = Finished log vars cmd' ∧
     lookup_var "B" vars = Some "${A}bar").
Proof.
  assert (Hos : ∀ c, false = false →
            Forall (λ e, name (parsevar e) ≠ "B")
                   (os_environ (Samples.scenario_world c))).
  { intros c _. repeat constructor; vm_compute; discriminate. }
  split.
  - exact (proj2 (proj2 (proj1 (lax_interpolation_example
             (Samples.scenario_world Samples.dq_file) Samples.fl0 Samples.lax_src
             [] false laxfile false [] eq_refl eq_refl (Hos _)) eq_refl))).
  - exact (proj2 (proj2 (proj2 (lax_interpolation_example
             (Samples.scenario_world Samples.sq_file) Samples.fl0 Samples.lax_src
             [] false laxfile false [] eq_refl eq_refl (Hos _)) eq_refl))).
Defined.

End RunFacts.

(** ** The priority order: what [sort.Sort] must return *)

Module OrderFacts.
Import Re Dotenv Notions.

Lemma bypriority_lookup (sources : list varsource) (x : priority) :
  x ∈ bypriority sources → sources !! pos x = Some (source x).
Proof.
  unfold bypriority. rewrite elem_of_lookup_imap.
  intros (i & s & -> & Hs). done.
Qed.

Lemma bypriority_inj (sources : list varsource) (x y : priority) :
  x ∈ bypriority sources → y ∈ bypriority sources → pos x = pos y → x = y.
Proof.
  intros Hx%bypriority_lookup Hy%bypriority_lookup Hp.
  destruct x as [sx px], y as [sy py]; simpl in *. subst py.
  rewrite Hx in Hy. by injection Hy as ->.
Qed.

Lemma not_before_antisym (sources : list varsource) (x y : priority) :
  x ∈ bypriority sources → y ∈ bypriority sources →
  not_before x y → not_before y x → x = y.
Proof.
  intros Hx Hy Hxy Hyx. apply (bypriority_inj sources); [done..|].
  unfold not_before, Less in *.
  repeat case_decide; repeat case_bool_decide; try done; lia.
Qed.

Lemma source_bypriority (sources : list varsource) :
  map source (bypriority sources) = sources.
Proof.
  unfold bypriority. change (map source) with (fmap (M:=list) source).
  rewrite fmap_imap. simpl.
  rewrite <- (list_fmap_id sources) at 2.
  change (λ n : nat, source ∘ (λ s, mk_priority s n)) with (@const _ nat (@id varsource)).
  by rewrite imap_const.
Qed.





Lemma sorted_unique (sources : list varsource) (l1 l2 : list priority) :
  l1 ⊆ bypriority sources → l1 ≡ₚ l2 →
  StronglySorted not_before l1 → StronglySorted not_before l2 → l1 = l2.
Proof.
  intros Hsub Hperm H1 H2.
  apply (StronglySorted_unique_strong not_before); [|done..].
  intros x y Hx Hy. apply (not_before_antisym sources); [by apply Hsub|].
  apply Hsub. by rewrite Hperm.
Qed.

Lemma sort_sources_perm (sources : list varsource) :
  sort_sources (bypriority sources) ≡ₚ sources.
Proof.
  unfold sort_sources. rewrite <- (source_bypriority sources) at 2.
  change (map source) with (fmap (M:=list) source).
  by rewrite RunFacts.Sort_perm.
Qed.

Lemma sort_sources_ranked (sources : list varsource) :
  StronglySorted (λ a b, (rank (kind a) ≤ rank (kind b))%nat)
                 (sort_sources (bypriority sources)).
Proof.
  unfold sort_sources. change (map source) with (fmap (M:=list) source).
  apply (StronglySorted_fmap source not_before); [|apply RunFacts.Sort_sorted].
  intros a b. unfold not_before, Less.
  repeat case_decide; repeat case_bool_decide; try done; lia.
Qed.



(** X2.  [Less] leaves [sort.Sort] no choice: any rearrangement of
    [bypriority sources] in which no element is [Less] than one before it
    is the list the model's [Sort] returns, because the positions
    [bypriority] records are distinct. *)
Theorem Sort_unique (sources : list varsource) (sorted : list priority) :
  sorted ≡ₚ bypriority sources → StronglySorted not_before sorted →
  sorted = Sort (bypriority sources).
Proof.
  intros Hperm Hs. symmetry.
  apply (sorted_unique sources).
  - intros x. by rewrite RunFacts.Sort_perm.
  - by rewrite RunFacts.Sort_perm.
  - apply RunFacts.Sort_sorted.
  - done.
Qed.

Lemma Sort_unique_witness :
  [mk_priority Samples.raw_src 1; mk_priority Samples.lax_src 0]
  = Sort (bypriority [Samples.lax_src; Samples.raw_src]).
Proof.
  apply (Sort_unique [Samples.lax_src; Samples.raw_src]).
  - apply perm_swap.
  - repeat constructor.
Defined.

End OrderFacts.

(** ** The merge in closed form *)

Module MergeOrder.
Import Re Dotenv Notions MoreNotions.

Lemma find_app {A} (f : A → bool) (l l' : list A) :
  find f (l ++ l') = match find f l with Some x => Some x | None => find f l' end.
Proof. induction l as [|x l IH]; simpl; [done|]. by destruct (f x). Qed.

Lemma In_reverse {A} (x : A) (l : list A) : In x (reverse l) ↔ In x l.
Proof. by rewrite <- !list_elem_of_In, elem_of_reverse. Qed.

Lemma find_deletes (n : string) (l : list envvar) (t : envvar) :
  find (deletes n) l = Some t → name t = n ∧ tombstone t = true.
Proof.
  intros [_ H]%find_some. unfold deletes, named in H.
  apply andb_true_iff in H as [H1 H2]. by apply String.eqb_eq in H1.
Qed.

Lemma entry_for_kept (n : string) (stream : list envvar) :
  entry_for n stream = kept n stream.
Proof.
  induction stream as [|v l IH] using rev_ind; [done|].
  rewrite MergeFacts.entry_for_snoc, IH. unfold kept, entry_step.
  rewrite reverse_snoc, find_app. simpl.
  assert (deletes n v = String.eqb (name v) n && tombstone v) as -> by done.
  assert (named n v = String.eqb (name v) n) as -> by done.
  destruct (String.eqb (name v) n) eqn:Hn; simpl.
  - destruct (tombstone v) eqn:Ht.
    + by destruct (find (deletes n) (reverse l)), (find (named n) l).
    + destruct (find (deletes n) (reverse l)) as [t|] eqn:Hd.
      * apply find_deletes in Hd as [_ Hd]. by rewrite ?Hd.
      * destruct (find (named n) l) as [e|] eqn:He; [|done].
        destruct (tombstone e) eqn:Hte; [|done].
        exfalso. apply find_some in He as [He1 He2].
        assert (Hin : In e (reverse l)) by by apply In_reverse.
        eapply (find_none _ _ Hd) in Hin. unfold deletes in Hin.
        by rewrite He2, Hte in Hin.
  - destruct (find (deletes n) (reverse l)); [done|].
    by destruct (find (named n) l).
Qed.

Lemma deleted_find (n : string) (l : list envvar) :
  deleted n l = bool_decide (is_Some (find (deletes n) (reverse l))).
Proof.
  unfold deleted. destruct (find (deletes n) (reverse l)) as [t|] eqn:Hf.
  - rewrite bool_decide_eq_true_2 by eauto.
    apply find_some in Hf as [Hin Ht]. apply existsb_exists. exists t. split; [|done].
    by apply In_reverse.
  - rewrite bool_decide_eq_false_2 by (by intros [? ?]).
    apply not_true_is_false. intros (t & Hin & Ht)%existsb_exists.
    assert (Hin' : In t (reverse l)) by by apply In_reverse.
    apply (find_none _ _ Hf) in Hin'. congruence.
Qed.

Lemma merged_value_closed (n : string) (stream : list envvar) :
  merged_value n stream
  = if deleted n stream then None else lookup_var n stream.
Proof.
  unfold merged_value. rewrite entry_for_kept, deleted_find. unfold kept, lookup_var.
  destruct (find (deletes n) (reverse stream)) as [t|] eqn:Hd.
  - rewrite bool_decide_eq_true_2 by eauto.
    apply find_deletes in Hd as [_ ->]. done.
  - rewrite bool_decide_eq_false_2 by (by intros [? ?]).
    change (λ v, String.eqb (name v) n) with (named n).
    destruct (find (named n) stream) as [e|] eqn:He; [|done]. simpl.
    apply find_some in He as [He1 He2].
    assert (Hin : In e (reverse stream)) by by apply In_reverse.
    apply (find_none _ _ Hd) in Hin. unfold deletes in Hin. rewrite He2 in Hin.
    simpl in Hin. by rewrite Hin.
Qed.

Lemma first_names_snoc (names : list string) (n : string) :
  first_names (names ++ [n])
  = if decide (n ∈ first_names names) then first_names names
    else first_names names ++ [n].
Proof. unfold first_names. by rewrite foldl_snoc. Qed.

Lemma index_fresh (st : list envvar * list string * gmap string nat)
  (seen : list envvar) (n : string) :
  uniq_inv st seen → st.2 !! n = None ↔ n ∉ map name st.1.1.
Proof.
  intros [Hidx _]. change (map name st.1.1) with (name <$> st.1.1). split.
  - intros Hn (v & -> & (i & Hi)%list_elem_of_lookup_1)%list_elem_of_fmap.
    assert (st.2 !! name v = Some i) by (apply Hidx; eauto). congruence.
  - intros Hn. destruct (st.2 !! n) as [i|] eqn:Hi; [|done].
    destruct (proj1 (Hidx _ _) Hi) as (v & Hv & <-). exfalso. apply Hn.
    apply list_elem_of_fmap_2. by eapply list_elem_of_lookup_2.
Qed.

Lemma uniq_step_names (st st' : list envvar * list string * gmap string nat)
  (seen : list envvar) (v : envvar) :
  uniq_inv st seen → st.1.2 = map name st.1.1 →
  st.1.2 = first_names (map name seen) → uniq_step st v = Some st' →
  st'.1.2 = map name st'.1.1 ∧ st'.1.2 = first_names (map name (seen ++ [v])).
Proof.
  intros Hinv Hn1 Hn2. pose proof (index_fresh st seen (name v) Hinv) as Hfresh.
  destruct Hinv as [Hidx _].
  destruct st as [[vars names] idx]. simpl in *. unfold uniq_step.
  rewrite map_app. simpl. rewrite first_names_snoc, <- Hn2.
  destruct (idx !! name v) as [i|] eqn:Hi.
  - assert (Hin : name v ∈ names).
    { rewrite Hn1. destruct (decide (name v ∈ map name vars)) as [|Hno]; [done|].
      apply Hfresh in Hno. congruence. }
    rewrite (decide_True (P := name v ∈ names)) by done.
    destruct (tombstone v).
    + case_decide; [|done]. intros [= <-]. simpl. split; [|done].
      rewrite Hn1. change (map name) with (fmap (M:=list) name).
      rewrite list_fmap_insert.
      destruct (proj1 (Hidx _ _) Hi) as (e & He & Hne).
      rewrite <- Hne. symmetry. apply list_insert_id. by rewrite list_lookup_fmap, He.
    + by intros [= <-].
  - intros [= <-]. simpl. rewrite decide_False.
    + split; [|done]. by rewrite map_app, Hn1.
    + rewrite Hn1. by apply Hfresh.
Qed.

Lemma uniq_loop_names (rest : list envvar) :
  ∀ st seen, uniq_inv st seen → st.1.2 = map name st.1.1 →
  st.1.2 = first_names (map name seen) →
  ∃ st', uniq_loop st rest = Some st' ∧ uniq_inv st' (seen ++ rest) ∧
         st'.1.2 = map name st'.1.1 ∧
         st'.1.2 = first_names (map name (seen ++ rest)).
Proof.
  induction rest as [|v rest IH]; intros st seen Hinv Hn1 Hn2; simpl.
  - exists st. by rewrite app_nil_r.
  - destruct (MergeFacts.uniq_step_inv st seen v Hinv) as (st1 & Hst & Hinv1).
    destruct (uniq_step_names st st1 seen v Hinv Hn1 Hn2 Hst) as [Hm1 Hm2].
    rewrite Hst.
    destruct (IH st1 _ Hinv1 Hm1 Hm2) as (st' & -> & Hinv' & Hk1 & Hk2).
    exists st'. by rewrite <- app_assoc in Hinv', Hk2.
Qed.

Lemma uniqVarsByName_spec (stream : list envvar) :
  ∃ vars, uniqVarsByName stream = Some (first_names (map name stream), vars) ∧
          map name vars = first_names (map name stream) ∧
          Forall (λ v, kept (name v) stream = Some v) vars.
Proof.
  destruct (uniq_loop_names stream ([], [], ∅) [] MergeFacts.uniq_inv_init eq_refl eq_refl)
    as ([[vars names] idx] & Hl & [Hidx Hent] & Hn1 & Hn2).
  simpl in *. exists vars. unfold uniqVarsByName. rewrite Hl. simpl.
  rewrite <- Hn2. split; [done|]. split; [done|].
  apply Forall_forall. intros v (i & Hi)%list_elem_of_lookup_1.
  rewrite <- entry_for_kept, Hent.
  assert (idx !! name v = Some i) as -> by (apply Hidx; eauto). done.
Qed.

Lemma first_names_NoDup (names : list string) :
  NoDup names → first_names names = names.
Proof.
  unfold first_names.
  cut (∀ acc, NoDup (acc ++ names) →
         foldl (λ acc n, if decide (n ∈ acc) then acc else acc ++ [n]) acc names
         = acc ++ names).
  { intros H. apply (H []). }
  induction names as [|n l IH]; intros acc Hnd; simpl; [by rewrite app_nil_r|].
  rewrite decide_False.
  - rewrite IH; rewrite <- app_assoc; done.
  - apply NoDup_app in Hnd as (_ & Hd & _). intros Hin. apply (Hd n Hin). by left.
Qed.

Lemma kept_NoDup (l : list envvar) (e : envvar) :
  NoDup (map name l) → Forall live l → e ∈ l → kept (name e) l = Some e.
Proof.
  intros Hnd Hlive He. unfold kept.
  destruct (find (deletes (name e)) (reverse l)) as [t|] eqn:Hd.
  - exfalso. pose proof (find_deletes _ _ _ Hd) as [_ Ht].
    apply find_some in Hd as [Hin _].
    apply (proj1 (In_reverse _ _)) in Hin. apply list_elem_of_In in Hin.
    rewrite Forall_forall in Hlive. apply Hlive in Hin. unfold live in Hin. congruence.
  - clear Hd Hlive. induction l as [|x l IH]; [by apply elem_of_nil in He|].
    simpl in Hnd. apply NoDup_cons in Hnd as [Hx Hnd]. simpl. unfold named at 1.
    apply elem_of_cons in He as [->|He]; [by rewrite String.eqb_refl|].
    destruct (String.eqb_spec (name x) (name e)) as [Heq|_]; [|by apply IH].
    exfalso. apply Hx. rewrite Heq. change (map name l) with (name <$> l).
    by apply list_elem_of_fmap_2.
Qed.

Lemma merge_fixed (l : list envvar) :
  NoDup (map name l) → Forall live l → merge l = Some l.
Proof.
  intros Hnd Hlive.
  destruct (uniqVarsByName_spec l) as (vars & Hu & Hnames & Hkept).
  unfold merge. rewrite Hu. simpl. f_equal.
  rewrite (first_names_NoDup _ Hnd) in Hnames.
  assert (Hvars : vars = l).
  { apply list_eq. intros i.
    assert (Hi : name <$> vars !! i = name <$> l !! i).
    { change (map name vars) with (name <$> vars) in Hnames.
      change (map name l) with (name <$> l) in Hnames.
      by rewrite <- !list_lookup_fmap, Hnames. }
    destruct (vars !! i) as [v|] eqn:Hv, (l !! i) as [e|] eqn:He; simpl in Hi; try done.
    injection Hi as Hi. rewrite Forall_forall in Hkept.
    pose proof (Hkept v (list_elem_of_lookup_2 _ _ _ Hv)) as Hk.
    rewrite Hi, (kept_NoDup l e Hnd Hlive (list_elem_of_lookup_2 _ _ _ He)) in Hk.
    congruence. }
  rewrite Hvars. unfold strip_tombstones.
  clear -Hlive. induction Hlive as [|x l Hx _ IH]; [done|].
  rewrite filter_cons, decide_True by done. by rewrite IH.
Qed.

(** X3.  What the merge makes of a stream, name by name: a name that has
    a tombstone anywhere in the stream, before or after its other
    assignments, is unset; any other name has the value of its first
    assignment in the stream. *)
Theorem merge_lookup (stream : list envvar) :
  ∃ final, merge stream = Some final ∧
           ∀ n, lookup_var n final
                = if deleted n stream then None else lookup_var n stream.
Proof.
  destruct (MergeFacts.merge_spec stream) as (final & Hm & _ & _ & Hl).
  exists final. split; [done|]. intros n. by rewrite Hl, merged_value_closed.
Qed.

(** X4.  [uniqVarsByName] returns the names of the stream each once, in the
    order of their first appearance, and beside them, in the same order,
    the assignment kept for each name: its last tombstone when it has one,
    its first assignment otherwise. *)
Theorem uniqVarsByName_first_names (stream : list envvar) :
  ∃ vars, uniqVarsByName stream = Some (first_names (map name stream), vars) ∧
          map name vars = first_names (map name stream) ∧
          Forall (λ v, kept (name v) stream = Some v) vars.
Proof. apply uniqVarsByName_spec. Qed.

(** X5.  Merging is idempotent: the list the merge returns, merged again,
    is returned as it is. *)
Theorem merge_idempotent (stream : list envvar) :
  merge stream ≫= merge = merge stream.
Proof.
  destruct (MergeFacts.merge_spec stream) as (final & Hm & Hnd & Hlive & _).
  rewrite Hm. simpl. by apply merge_fixed.
Qed.

End MergeOrder.

(** ** Interpolation: what it leaves alone *)

Module SubstMore.
Import Re Dotenv Notions MoreNotions.

Lemma match_here_first (c : ascii) (r : regex) (prev : option ascii) (b : ascii)
  (s : string) :
  Ascii.eqb b c = false → match_here (Chr c <+> r)%re prev (String b s) = None.
Proof. intros Hb. unfold match_here. cbn [rmatch]. by rewrite Hb. Qed.

Lemma replace_no_first (c : ascii) (r : regex) (f : string → string) (s : string) :
  has_char c s = false →
  ∀ prev, replace_from (Chr c <+> r)%re f 0 prev s = s.
Proof.
  induction s as [|b s IH]; intros Hs prev; [done|].
  simpl in Hs. apply orb_false_iff in Hs as [Hb Hs].
  cbn [replace_from]. rewrite (match_here_first c r prev b s Hb).
  by rewrite IH.
Qed.

Lemma replace_no_dollar (strict : bool) (f : string → string) (s : string) :
  has_char "$" s = false → ReplaceAllStringFunc (pattern_of strict) s f = s.
Proof.
  intros Hs. unfold ReplaceAllStringFunc.
  destruct strict; apply (replace_no_first "$"); done.
Qed.

Lemma subbed_no_dollar (strict : bool) (vals : gmap string string) (r : envvar) :
  has_char "$" (val r) = false → subbed (pattern_of strict) vals r = val r.
Proof.
  intros Hr. unfold subbed. destruct (allowsubs r); [|done].
  by apply replace_no_dollar.
Qed.

Lemma subst_loop_vals (vm : regex) (raws : list envvar) :
  ∀ vals, (∀ vals' r, r ∈ raws → subbed vm vals' r = val r) →
  subst_loop vm vals raws = raws.
Proof.
  induction raws as [|r raws IH]; intros vals H; [done|].
  simpl. rewrite (H vals r) by left.
  rewrite IH; [by destruct r|]. intros vals' r' Hr'. apply H. by right.
Qed.

Lemma val_adjusted (src : varsource) (raws : list envvar) :
  map val (apply_level src raws) = map val raws.
Proof.
  unfold apply_level. case_decide; [done|].
  rewrite map_map. by apply map_ext.
Qed.

Lemma parse_plain (w : world) (fl : flags) (src : varsource) (log : list event)
  (raws : list envvar) :
  defaultsub (kind src) = neversub → parse w fl src = (log, inr raws) →
  Forall (λ r, allowsubs r = false) raws.
Proof.
  assert (Hpv : ∀ l, Forall (λ r, allowsubs r = false) (map parsevar l)).
  { intros l. apply Forall_forall. intros r (s & -> & _)%list_elem_of_fmap.
    unfold parsevar. by destruct (Str.cut _ _). }
  unfold parse. destruct (kind src) eqn:Hk; try done; intros _.
  - unfold parseFile. destruct (open_file w (data src)); [|done].
    intros [= <- <-]. apply Forall_forall. intros r Hr.
    apply list_elem_of_In, in_flat_map in Hr as (l & _ & Hl).
    destruct (MatchString comment l); [done|].
    destruct (MatchString _ l); [|done].
    destruct Hl as [<-|[]]. unfold parsevar. by destruct (Str.cut _ _).
  - intros [= <- <-]. apply (Hpv [_]).
  - unfold parseOsEnviron. intros [= <- <-]. apply Hpv.
  - unfold parseJsonMap. destruct (json_unmarshal w (data src)); [|done].
    intros [= <- <-]. apply Forall_forall. intros r (kv & -> & _)%list_elem_of_fmap.
    unfold json_entry. by destruct (snd kv).
  - unfold parseFromPid. destruct (Str.cut ":" (data src)) as [p0 [rest1|]]; [|done].
    destruct (negb _ && negb _); [done|].
    destruct (Str.cut ":" rest1) as [p1 rest2].
    destruct (ParseUint32 p1) as [p|]; [|done].
    destruct (readenv w fl p) as [allvars|] eqn:Hr; [|done].
    intros [= <- <-].
    apply Forall_forall. intros r [_ Hin]%list_elem_of_filter. revert r Hin.
    apply Forall_forall.
    unfold readenv in Hr. destruct (stat_proc w) as [[|]|]; try done.
    destruct (match read_file w _ with Some d => Some d | None => _ end); [|done].
    simpl in Hr. injection Hr as <-. apply Hpv.
Qed.

(** X6.  [substitutevars] changes values and the interpolation flag only:
    the batch it returns has the length, the names in their order and the
    tombstone marks of the batch it was given. *)
Theorem substitutevars_shape (w : world) (src : varsource) (env raws : list envvar)
  (vm : regex) :
  length (substitutevars w src env raws vm) = length raws ∧
  map name (substitutevars w src env raws vm) = map name raws ∧
  map tombstone (substitutevars w src env raws vm) = map tombstone raws.
Proof.
  split; [|split].
  - rewrite <- (length_map name), RunFacts.substitutevars_names. apply length_map.
  - apply RunFacts.substitutevars_names.
  - apply RunFacts.substitutevars_tombstones.
Qed.

(** X7.  A batch whose values hold no dollar sign keeps its values, with
    either pattern, whatever the level of the source and the table. *)
Theorem no_dollar_unchanged (w : world) (src : varsource) (env raws : list envvar)
  (strict : bool) :
  Forall (λ r, has_char "$" (val r) = false) raws →
  map val (substitutevars w src env raws (pattern_of strict)) = map val raws.
Proof.
  intros Hraws. unfold substitutevars.
  rewrite subst_loop_vals; [apply val_adjusted|].
  intros vals r Hr. apply subbed_no_dollar.
  assert (Hv : val r ∈ map val raws).
  { rewrite <- (val_adjusted src). change (val r ∈ val <$> apply_level src raws).
    by apply list_elem_of_fmap_2. }
  change (val r ∈ val <$> raws) in Hv.
  apply list_elem_of_fmap in Hv as (r' & -> & Hr').
  rewrite Forall_forall in Hraws. by apply Hraws.
Qed.

(** X8.  At level [neversub] nothing is interpolated: the values a source
    was parsed to are the values [substitutevars] returns.  The level is
    [neversub] for a raw assignment, the process environment, a JSON map,
    a strict file and a pid source unless one is set, and for any source
    under [-no-sub]. *)
Theorem neversub_unchanged (w : world) (fl : flags) (src : varsource)
  (env raws : list envvar) (log : list event) (vm : regex) :
  getsublevel src = neversub → parse w fl src = (log, inr raws) →
  map val (substitutevars w src env raws vm) = map val raws.
Proof.
  intros Hlevel Hparse. unfold substitutevars.
  rewrite subst_loop_vals; [apply val_adjusted|].
  intros vals r Hr. unfold subbed.
  assert (allowsubs r = false) as ->; [|done].
  revert r Hr. apply Forall_forall. unfold apply_level.
  case_decide as Hd.
  - apply (parse_plain w fl src log); [congruence | done].
  - apply Forall_forall. intros r (r' & -> & _)%list_elem_of_fmap.
    simpl. rewrite Hlevel. by rewrite bool_decide_eq_false_2 by (by intros H; apply H).
Qed.

Lemma no_dollar_unchanged_witness :
  map val (substitutevars (Samples.sample_world [] [] []) Samples.lax_src []
             [Samples.var_A] (pattern_of false))
  = map val [Samples.var_A].
Proof. apply no_dollar_unchanged. repeat constructor. Defined.

Lemma neversub_unchanged_witness :
  map val (substitutevars (Samples.sample_world [] [] []) Samples.raw_src []
             [parsevar "A=1"] anyinterp)
  = map val [parsevar "A=1"].
Proof.
  apply (neversub_unchanged (Samples.sample_world [] [] []) Samples.fl0
           Samples.raw_src [] [parsevar "A=1"] []); reflexivity.
Defined.

End SubstMore.

(** ** The source loop: what it appends and what becomes the command *)

Module LoopFacts.
Import Re Dotenv Notions MoreNotions.

Section Loop.
Variable w : world.
Variable fl : flags.
Variable vm : regex.

Lemma process_cmd (sources : list varsource) :
  ∀ vars cmd log,
  (process w fl vm sources vars cmd log).2 = cmd ∨
  ∃ pre f rest plog err,
    sources = pre ++ f :: rest ∧ parse w fl f = (plog, inl err) ∧
    explicit f = false ∧ optional f = false ∧
    (process w fl vm sources vars cmd log).1.1.2 = None ∧
    (process w fl vm sources vars cmd log).2 = map data (f :: rest) ++ cmd.
Proof.
  induction sources as [|src rest IH]; intros vars cmd log; [by left|].
  cbn [process]. destruct (parse w fl src) as [plog [err|parsed]] eqn:Hp.
  - destruct (explicit src) eqn:He; [by left|].
    destruct (optional src) eqn:Ho; simpl.
    + destruct (IH (vars ++ substitutevars w src vars [] vm) cmd
                   ((log ++ plog) ++ [ErrorParsing (data src) err]))
        as [H|(pre & f & rest' & plog' & err' & -> & Hf & Hfe & Hfo & Hn & Hc)];
        [by left|].
      right. exists (src :: pre), f, rest', plog', err'. done.
    + right. exists [], src, rest, plog, err. done.
  - destruct (IH (vars ++ substitutevars w src vars parsed vm) cmd (log ++ plog))
      as [H|(pre & f & rest' & plog' & err' & -> & Hf & Hfe & Hfo & Hn & Hc)];
      [by left|].
    right. exists (src :: pre), f, rest', plog', err'. done.
Qed.

End Loop.

Lemma rank_raw (k : sourcetype) : rank k = 0 ↔ k = raw.
Proof. split; [by destruct k | by intros ->]. Qed.

Lemma parse_fails_not_raw (w : world) (fl : flags) (src : varsource)
  (plog : list event) (err : error) :
  parse w fl src = (plog, inl err) → kind src ≠ raw ∧ kind src ≠ osenv.
Proof. unfold parse. intros Hp. split; intros Hk; by rewrite Hk in Hp. Qed.

(** X9.  The source loop only appends: the assignments and the log it
    ends with begin with those it started from, and the command it ends
    with ends with the command it was given. *)
Theorem process_appends (w : world) (fl : flags) (vm : regex)
  (sources : list varsource) (vars : list envvar) (cmd : list string)
  (log : list event) :
  vars `prefix_of` (process w fl vm sources vars cmd log).1.2 ∧
  log `prefix_of` (process w fl vm sources vars cmd log).1.1.1 ∧
  cmd `suffix_of` (process w fl vm sources vars cmd log).2.
Proof.
  revert vars cmd log.
  induction sources as [|src rest IH]; intros vars cmd log; [done|].
  cbn [process]. destruct (parse w fl src) as [plog [err|parsed]].
  - destruct (explicit src); [|destruct (optional src)]; simpl.
    + split; [done|]. split; [by apply prefix_app_r | done].
    + destruct (IH (vars ++ substitutevars w src vars [] vm) cmd
                   ((log ++ plog) ++ [ErrorParsing (data src) err]))
        as (H1 & H2 & H3).
      split; [|split]; [| |done].
      * etrans; [|exact H1]. by apply prefix_app_r.
      * etrans; [|exact H2]. rewrite <- app_assoc. by apply prefix_app_r.
    + split; [done|]. split; [by apply prefix_app_r|].
      by apply (suffix_app_r _ _ (data src :: map data rest)).
  - destruct (IH (vars ++ substitutevars w src vars parsed vm) cmd (log ++ plog))
      as (H1 & H2 & H3).
    split; [|split]; [| |done].
    + etrans; [|exact H1]. by apply prefix_app_r.
    + etrans; [|exact H2]. by apply prefix_app_r.
Qed.

(** The command of a run that finishes is the data of the sources from
    some point of the priority order on, then the command it was given, or
    [sh] when both are empty; no raw source is among those sources. *)
Lemma command_from_sources (w : world) (fl : flags) (vm : regex)
  (defaultType : sourcetype) (clearEnv : bool) (sources : list varsource)
  (cmd : list string) (log : list event) (vars : list envvar) (cmd' : list string) :
  run w fl vm defaultType clearEnv sources cmd = Finished log vars cmd' →
  ∃ rest, rest `suffix_of` sort_sources (bypriority (given defaultType clearEnv sources)) ∧
          Forall (λ s, kind s ≠ raw) rest ∧
          cmd' = match map data rest ++ cmd with [] => ["sh"] | c => c end.
Proof.
  unfold run. fold (given defaultType clearEnv sources).
  pose proof (OrderFacts.sort_sources_ranked (given defaultType clearEnv sources))
    as Hsorted.
  destruct (process_cmd w fl vm
              (sort_sources (bypriority (given defaultType clearEnv sources))) [] cmd [])
    as [Hc|(pre & f & rest & plog & err & Hsplit & Hf & _ & _ & _ & Hc)].
  - destruct (process _ _ _ _ _ _ _) as [[[plog [err|]] pvars] pcmd]; [done|].
    simpl in *. subst pcmd.
    destruct (merge pvars); [|done]. intros [= <- <- <-]. exists [].
    split; [apply suffix_nil|]. split; [done | by destruct cmd].
  - destruct (process _ _ _ _ _ _ _) as [[[plog' [err'|]] pvars] pcmd]; [done|].
    simpl in Hc. subst pcmd. simpl.
    destruct (merge pvars); [|done]. intros [= <- <- <-].
    exists (f :: rest). split; [by exists pre|]. split; [|done].
    rewrite Hsplit in Hsorted. apply StronglySorted_app_1_r in Hsorted.
    apply StronglySorted_inv in Hsorted as [_ Hle].
    apply parse_fails_not_raw in Hf as [Hraw _].
    assert (Hpos : (0 < rank (kind f))%nat).
    { destruct (rank (kind f)) eqn:Hr; [by apply rank_raw in Hr | lia]. }
    apply Forall_cons. split; [done|].
    apply Forall_forall. intros s Hs.
    rewrite Forall_forall in Hle. apply Hle in Hs.
    intros Hk. rewrite Hk in Hs. change (rank raw) with 0 in Hs. lia.
Qed.

End LoopFacts.

(** ** The reading of the arguments *)

Module CliFacts.
Import Re Dotenv Notions MoreNotions.

Lemma assignment_first (s : string) :
  MatchString assignment s = true →
  ∃ b s', s = String b s' ∧ Chars.is_id_start b = true.
Proof.
  unfold MatchString. intros H%bool_decide_eq_true_1.
  rewrite TrimFacts.find_anchored in H by exact I.
  apply fmap_is_Some in H. destruct H as [res H].
  unfold match_here, assignment, identifier in H. cbn [rmatch] in H.
  destruct s as [|b s']; [done|].
  destruct (Chars.is_id_start b) eqn:Hb; [eauto | done].
Qed.

Lemma id_start_not_dash (b : ascii) :
  Chars.is_id_start b = true → Ascii.eqb b "-" = false.
Proof. intros Hb. destruct (Ascii.eqb_spec b "-") as [->|]; done. Qed.

Lemma no_flag (b : ascii) (s : string) :
  Chars.is_id_start b = true →
  Cli.HasPrefix (String b s) "--" = false ∧
  Cli.is_one_of (String b s) ["-h"; "-help"] = false ∧
  String.eqb (String b s) "-f" = false ∧
  Cli.flag_update (String b s) (String b s) = None.
Proof.
  intros Hb%id_start_not_dash. split.
  - unfold Cli.HasPrefix. cbn [String.prefix].
    destruct (ascii_dec "-" b) as [<-|]; done.
  - unfold Cli.flag_update, Cli.is_one_of. simpl. rewrite Hb. done.
Qed.

Lemma dashes_not_assignment (orig : string) :
  Cli.HasPrefix orig "--" = true → MatchString assignment (Str.drop 1 orig) = false.
Proof.
  unfold Cli.HasPrefix. destruct orig as [|a [|b t]]; cbn [String.prefix]; try done.
  destruct (ascii_dec "-" a) as [<-|]; [|done].
  destruct (ascii_dec "-" b) as [<-|]; [|done]. intros _. simpl.
  apply not_true_is_false. by intros (c & s' & [= <- _] & Hc)%assignment_first.
Qed.

Lemma assignment_no_dashes (orig : string) :
  MatchString assignment orig = true → Cli.HasPrefix orig "--" = false.
Proof. intros (b & s' & -> & Hb)%assignment_first. by apply no_flag. Qed.

Lemma setDefaultType_well_read (t : sourcetype) (l : list varsource) :
  file_kind t → Forall well_read l → Forall well_read (setDefaultType t l).
Proof.
  intros Ht Hl. unfold setDefaultType. change (Forall well_read ((λ s, if decide (kind s = notype) then mk_varsource (data s) t (explicit s) (optional s) (src_sublevel s) else s) <$> l)).
  apply Forall_fmap. eapply Forall_impl; [exact Hl|].
  intros s [Ho Hk]. simpl. case_decide as Hn; [|done].
  split; [done|]. unfold assignment_source in *. simpl. rewrite <- Hk, Hn.
  split; [|done]. intros ->. by destruct Ht as [?|[?|?]].
Qed.

Lemma flag_update_inv (orig arg : string) (change : Cli.options → Cli.options)
  (o : Cli.options) :
  Cli.flag_update orig arg = Some change →
  file_kind (Cli.defaultType o) ∧ Forall well_read (Cli.sources o) →
  file_kind (Cli.defaultType (change o)) ∧ Forall well_read (Cli.sources (change o)).
Proof.
  intros Hf [Ht Hs]. unfold Cli.flag_update in Hf.
  repeat (case_match; [injection Hf as <-; simpl; try done;
                       (split; [unfold file_kind; auto |
                                apply setDefaultType_well_read; [unfold file_kind; auto | done]])|]).
  done.
Qed.

Lemma add_source_inv (s : varsource) (o : Cli.options) :
  well_read s →
  file_kind (Cli.defaultType o) ∧ Forall well_read (Cli.sources o) →
  file_kind (Cli.defaultType (Cli.add_source s o)) ∧
  Forall well_read (Cli.sources (Cli.add_source s o)).
Proof.
  intros Hs [Ht Hl]. unfold Cli.add_source. simpl. split; [done|].
  apply Forall_app. split; [done|]. apply Forall_singleton.
  by destruct (Cli.defaultSublevel o).
Qed.

Lemma shaped_well_read (doSplit : bool) (orig : string) (k : sourcetype) :
  k ≠ raw →
  well_read (Cli.shaped doSplit
               (if Cli.HasPrefix orig "--" then Str.drop 1 orig else orig)
               (mk_varsource orig k false false None)).
Proof.
  intros Hk. unfold Cli.shaped, well_read, assignment_source.
  destruct (Cli.HasPrefix orig "--") eqn:Hd.
  - rewrite (dashes_not_assignment orig Hd).
    assert (Ho : MatchString assignment orig = false).
    { apply not_true_is_false. intros H%assignment_no_dashes. congruence. }
    repeat case_match; simpl; (split; [done|]); rewrite Ho; split; try done;
      by intros [_ ?].
  - destruct (MatchString assignment orig) eqn:Ho; simpl; [done|].
    repeat case_match; simpl; (split; [done|]); rewrite Ho; split; try done;
      by intros [_ ?].
Qed.

Lemma read_args_inv (doSplit : bool) (n : nat) :
  ∀ args o o', (length args ≤ n)%nat →
  file_kind (Cli.defaultType o) ∧ Forall well_read (Cli.sources o) →
  Cli.read_args doSplit args o = Cli.Parsed o' →
  file_kind (Cli.defaultType o') ∧ Forall well_read (Cli.sources o').
Proof.
  induction n as [|n IH]; intros args o o' Hn Hinv.
  { destruct args; [|simpl in Hn; lia]. by intros [= <-]. }
  destruct args as [|orig args']; [by intros [= <-]|]. simpl in Hn.
  cbn [Cli.read_args].
  assert (Hk : (if Cli.specifiedDefault o then Cli.defaultType o else notype) ≠ raw).
  { destruct Hinv as [Ht _]. destruct (Cli.specifiedDefault o); [|done].
    by destruct Ht as [-> | [-> | ->]]. }
  destruct (Cli.is_one_of _ ["-h"; "-help"]); [done|].
  destruct (String.eqb _ "-f").
  - destruct args' as [|f args'']; [done|]. simpl in Hn. simpl.
    apply IH; [lia|]. apply add_source_inv; [|done].
    split; [done|]. unfold assignment_source. simpl. split; [done | by intros [? _]].
  - destruct (Cli.flag_update orig _) as [change|] eqn:Hf.
    + apply IH; [lia|]. by eapply flag_update_inv.
    + apply IH; [lia|]. apply add_source_inv; [|done]. by apply shaped_well_read.
Qed.

Lemma read_args_well_read (doSplit : bool) (args : list string) (o : Cli.options) :
  Cli.read_args doSplit args Cli.initial = Cli.Parsed o →
  file_kind (Cli.defaultType o) ∧
  Forall well_read (setDefaultType (Cli.defaultType o) (Cli.sources o)).
Proof.
  intros H. eapply (read_args_inv doSplit (length args)) in H; [|done|].
  - destruct H as [Ht Hs]. split; [done|]. by apply setDefaultType_well_read.
  - split; [unfold file_kind; simpl; auto | constructor].
Qed.

End CliFacts.

(** ** The run as [main] starts it *)

Module MainFacts.
Import Re Dotenv Notions MoreNotions.

Lemma lax_loop_warnings (fl : flags) (fuel : nat) :
  ∀ data0 vars log, Forall is_warning log →
  Forall is_warning (lax_loop fl fuel data0 vars log).1.
Proof.
  induction fuel as [|fuel IH]; intros data0 vars log Hlog.
  { by destruct data0. }
  destruct data0 as [|b s]; [done|]. cbn [lax_loop].
  destruct (lax_step (String b s)) as [d|line d|v d|e]; [by apply IH| |by apply IH|done].
  apply IH. destruct (warn fl); [|done].
  apply Forall_app. split; [done|]. apply Forall_singleton. by exists line.
Qed.

Lemma parse_warnings (w : world) (fl : flags) (src : varsource) :
  Forall is_warning (parse w fl src).1.
Proof.
  unfold parse. destruct (kind src); try by constructor.
  - unfold parseFile. by destruct (open_file w (data src)).
  - unfold parseShell. by destruct (open_file w (data src)).
  - unfold parseLax. destruct (read_file w (data src)); [|done].
    by apply lax_loop_warnings.
  - unfold parseJsonMap. by destruct (json_unmarshal w (data src)).
  - unfold parseFromPid.
    destruct (Str.cut ":" (data src)) as [p0 [rest1|]]; [|done].
    destruct (negb _ && negb _); [done|].
    destruct (Str.cut ":" rest1) as [p1 rest2].
    destruct (ParseUint32 p1) as [p|]; [|done].
    by destruct (readenv w fl p).
Qed.

Lemma parse_unknown_kind (w : world) (fl : flags) (src : varsource)
  (plog : list event) (k : sourcetype) (d : string) :
  parse w fl src = (plog, inl (ErrUnknownKind k d)) → kind src = notype.
Proof.
  unfold parse. destruct (kind src); try done.
  - unfold parseFile. by destruct (open_file w (data src)).
  - unfold parseShell. by destruct (open_file w (data src)).
  - unfold parseLax. destruct (read_file w (data src)); [|done].
    intros [H|(t & _ & qc & body & _ & _ & [[_ H]|[_ H]])]%LaxFacts.lax_loop_error;
      done.
  - unfold parseJsonMap. by destruct (json_unmarshal w (data src)).
  - unfold parseFromPid.
    destruct (Str.cut ":" (data src)) as [p0 [rest1|]]; [|done].
    destruct (negb _ && negb _); [done|].
    destruct (Str.cut ":" rest1) as [p1 rest2].
    destruct (ParseUint32 p1) as [p|]; [|done].
    by destruct (readenv w fl p).
Qed.

Section Loop.
Variable w : world.
Variable fl : flags.
Variable vm : regex.

Lemma process_fatal (sources : list varsource) :
  ∀ vars cmd log log' e vars' cmd',
  process w fl vm sources vars cmd log = (log', Some e, vars', cmd') →
  ∃ s plog, s ∈ sources ∧ explicit s = true ∧ parse w fl s = (plog, inl e).
Proof.
  induction sources as [|src rest IH]; intros vars cmd log log' e vars' cmd'; [done|].
  cbn [process]. destruct (parse w fl src) as [plog [err|parsed]] eqn:Hp.
  - destruct (explicit src) eqn:He.
    + intros [= <- <- <- <-]. exists src, plog. split; [left | done].
    + destruct (optional src); [|done].
      intros (s & pl & Hs & H)%IH. exists s, pl. split; [by right | done].
  - intros (s & pl & Hs & H)%IH. exists s, pl. split; [by right | done].
Qed.

Lemma process_warnings (sources : list varsource) :
  Forall (λ s, optional s = false) sources →
  ∀ vars cmd log, Forall is_warning log →
  Forall is_warning (process w fl vm sources vars cmd log).1.1.1.
Proof.
  induction 1 as [|src rest Hsrc _ IH]; intros vars cmd log Hlog; [done|].
  cbn [process]. pose proof (parse_warnings w fl src) as Hp.
  destruct (parse w fl src) as [plog [err|parsed]]; simpl in Hp.
  - rewrite Hsrc. destruct (explicit src); simpl; apply Forall_app; done.
  - apply IH. apply Forall_app; done.
Qed.

End Loop.

Lemma Forall_sorted (P : varsource → Prop) (l : list varsource) :
  Forall P l → Forall P (sort_sources (bypriority l)).
Proof. intros H. by rewrite OrderFacts.sort_sources_perm. Qed.

Lemma elem_of_sorted (s : varsource) (l : list varsource) :
  s ∈ sort_sources (bypriority l) → s ∈ l.
Proof. by rewrite OrderFacts.sort_sources_perm. Qed.

Lemma finish_log_any (res : list event * option error * list envvar * list string) :
  outcome_log (finish res) = res.1.1.1.
Proof.
  destruct res as [[[log [e|]] vars] cmd]; simpl; [done|].
  by destruct (merge vars).
Qed.

Lemma given_well_read (t : sourcetype) (c : bool) (l : list varsource) :
  file_kind t → Forall well_read (setDefaultType t l) →
  Forall (λ s, kind s ≠ notype ∧ optional s = false) (given t c l).
Proof.
  intros Ht Hl.
  assert (H : Forall (λ s, kind s ≠ notype ∧ optional s = false) (setDefaultType t l)).
  { apply Forall_forall. intros s Hs. split.
    - unfold setDefaultType in Hs. change (s ∈ (λ s, if decide (kind s = notype) then mk_varsource (data s) t (explicit s) (optional s) (src_sublevel s) else s) <$> l) in Hs.
      apply list_elem_of_fmap in Hs as (s0 & -> & _).
      case_decide; [simpl|done]. by destruct Ht as [-> | [-> | ->]].
    - rewrite Forall_forall in Hl. by destruct (Hl s Hs). }
  unfold given. destruct c; [done|]. by constructor.
Qed.

(** A source [run] reads that is not raw was given after [-f] or has not
    the form of an assignment. *)
Lemma given_not_raw (t : sourcetype) (c : bool) (l : list varsource)
  (s : varsource) :
  Forall well_read (setDefaultType t l) → s ∈ given t c l → kind s ≠ raw →
  explicit s = true ∨ MatchString assignment (data s) = false.
Proof.
  intros Hl Hs Hk.
  assert (Hw : s ∈ setDefaultType t l → explicit s = true ∨
                 MatchString assignment (data s) = false).
  { intros Hin. rewrite Forall_forall in Hl. destruct (Hl s Hin) as [_ [_ Hraw]].
    destruct (explicit s) eqn:He; [by left|right].
    destruct (MatchString assignment (data s)) eqn:Hm; [|done].
    exfalso. apply Hk, Hraw. by split. }
  unfold given in Hs. destruct c; [by apply Hw|].
  apply elem_of_cons in Hs as [->|Hs]; [by right | by apply Hw].
Qed.

(** [main], when the arguments are read: the run it starts. *)
Lemma main_ran (w : world) (args : list string) (o : Cli.options) (out : outcome) :
  Cli.main w args = Cli.Ran o out →
  file_kind (Cli.defaultType o) ∧
  Forall well_read (setDefaultType (Cli.defaultType o) (Cli.sources o)) ∧
  out = run w (mk_flags (Cli.alphanumeric o) (Cli.warn o) true) (Cli.varmatch o)
            (Cli.defaultType o) (Cli.clearEnv o) (Cli.sources o)
            (default [] (Cli.split_args args).2).
Proof.
  unfold Cli.main. destruct (Cli.split_args args) as [before cmd].
  destruct (Cli.read_args _ before Cli.initial) as [| |o'] eqn:Hr; [done..|].
  apply CliFacts.read_args_well_read in Hr as [Ht Hs].
  destruct (negb (Cli.modeset o') && negb (bool_decide (Cli.outmode o' = Cli.textoutput)));
    intros [= <- <-]; done.
Qed.

Lemma fatal_run (w : world) (fl : flags) (vm : regex)
  (defaultType : sourcetype) (clearEnv : bool) (sources : list varsource)
  (cmd : list string) (log : list event) (e : error) :
  run w fl vm defaultType clearEnv sources cmd = Fatal log e →
  ∃ s plog, s ∈ given defaultType clearEnv sources ∧ explicit s = true ∧
            parse w fl s = (plog, inl e).
Proof.
  unfold run. fold (given defaultType clearEnv sources).
  destruct (process _ _ _ _ _ _ _) as [[[plog [err|]] pvars] pcmd] eqn:Hp; simpl.
  - intros [= <- <-]. apply process_fatal in Hp as (s & pl & Hs & He & Hparse).
    exists s, pl. split; [by apply elem_of_sorted | done].
  - by destruct (merge pvars).
Qed.

(** X27.  The command line is cut at its first [--]: the arguments before
    it hold no [--], and the command is everything after it, further [--]
    included; without one all arguments are read and no command is given. *)
Theorem split_args_first (args : list string) :
  ("--" ∉ fst (Cli.split_args args)) ∧
  args = match snd (Cli.split_args args) with
         | Some cmd => fst (Cli.split_args args) ++ "--" :: cmd
         | None => fst (Cli.split_args args)
         end.
Proof.
  induction args as [|a rest [IH1 IH2]]; simpl.
  { split; [apply not_elem_of_nil | done]. }
  destruct (String.eqb_spec a "--") as [->|Ha]; simpl.
  { split; [apply not_elem_of_nil | done]. }
  destruct (Cli.split_args rest) as [before [cmd|]]; simpl in *.
  - split; [by apply not_elem_of_cons|]. by rewrite IH2 at 1.
  - split; [by apply not_elem_of_cons|]. by rewrite IH2 at 1.
Qed.

(** X11.  A run ends in [log.Fatalf] only when one of the sources it
    reads is explicit and could not be parsed; the error it reports is the
    error of that source. *)
Theorem fatal_only_explicit (w : world) (fl : flags) (vm : regex)
  (defaultType : sourcetype) (clearEnv : bool) (sources : list varsource)
  (cmd : list string) (log : list event) (e : error) :
  run w fl vm defaultType clearEnv sources cmd = Fatal log e →
  ∃ s plog, s ∈ given defaultType clearEnv sources ∧ explicit s = true ∧
            parse w fl s = (plog, inl e).
Proof. apply fatal_run. Qed.

(** X12.  Once the arguments are read, the raw sources are the
    arguments of the form NAME=value that were not given through [-f], and
    no others: a source is raw exactly when it is not explicit and its text
    matches [assignment]. *)
Theorem assignment_arguments_are_raw (doSplit : bool) (args : list string)
  (o : Cli.options) :
  Cli.read_args doSplit args Cli.initial = Cli.Parsed o →
  Forall (λ s, kind s = raw ↔
               explicit s = false ∧ MatchString assignment (data s) = true)
         (setDefaultType (Cli.defaultType o) (Cli.sources o)).
Proof.
  intros [_ H]%CliFacts.read_args_well_read.
  eapply Forall_impl; [exact H|]. by intros s [_ Hs].
Qed.

(** X13.  Whatever the arguments, [main] does not end with the error
    [Unknown varsource kind]: the default kind is always one of the three
    file kinds, and it is given to every source that has none before the
    sources are read. *)
Theorem main_never_unknown_kind (w : world) (args : list string)
  (o : Cli.options) (log : list event) (k : sourcetype) (d : string) :
  Cli.main w args ≠ Cli.Ran o (Fatal log (ErrUnknownKind k d)).
Proof.
  unfold Cli.main. destruct (Cli.split_args args) as [before cmd].
  destruct (Cli.read_args _ before Cli.initial) as [| |o'] eqn:Hr; [done..|].
  apply CliFacts.read_args_well_read in Hr as [Ht Hs].
  intros [= _ Hrun]. revert Hrun.
  set (o2 := if _ && _ then _ else o').
  assert (Cli.defaultType o2 = Cli.defaultType o' ∧ Cli.sources o2 = Cli.sources o')
    as [Ht2 Hs2] by (unfold o2; by destruct (_ && _)).
  rewrite Ht2, Hs2.
  intros (s & plog & Hin & _ & Hp%parse_unknown_kind)%fatal_run.
  pose proof (given_well_read _ (Cli.clearEnv o2) _ Ht Hs) as Hg.
  rewrite Forall_forall in Hg. by destruct (Hg s Hin).
Qed.

(** X14.  Whatever the arguments, the message [Error parsing] is never
    written by a run started by [main], as no argument makes a source
    optional.  All that a run that comes to its end has logged are the
    warnings of the lax parser about invalid lines; and all that a run that
    is aborted has logged before the two messages of the abort ([Failed to
    read source] and [Error was], which the outcome [Fatal] stands for) are
    such warnings too. *)
Theorem main_logs_only_warnings (w : world) (args : list string)
  (o : Cli.options) (out : outcome) :
  Cli.main w args = Cli.Ran o out →
  match out with
  | Finished log _ _ => Forall is_warning log
  | Panic log => Forall is_warning log
  | Fatal before _ => Forall is_warning before
  end ∧
  ∀ d e, match out with
         | Finished log _ _ | Panic log | Fatal log _ => ErrorParsing d e ∉ log
         end.
Proof.
  intros (Ht & Hs & ->)%main_ran.
  assert (H : Forall is_warning
                (outcome_log (run w (mk_flags (Cli.alphanumeric o) (Cli.warn o) true)
                                (Cli.varmatch o) (Cli.defaultType o) (Cli.clearEnv o)
                                (Cli.sources o) (default [] (Cli.split_args args).2)))).
  { unfold run. rewrite finish_log_any.
    apply process_warnings; [|constructor].
    apply Forall_sorted. fold (given (Cli.defaultType o) (Cli.clearEnv o) (Cli.sources o)).
    eapply Forall_impl; [by apply given_well_read|]. by intros s [_ ?]. }
  destruct (run _ _ _ _ _ _ _) as [log e|log|log vars cmd]; simpl in H.
  - split; [done|]. intros d e' Hin. rewrite Forall_forall in H.
    by destruct (H _ Hin).
  - split; [done|]. intros d e' Hin. rewrite Forall_forall in H.
    by destruct (H _ Hin).
  - split; [done|]. intros d e' Hin. rewrite Forall_forall in H.
    by destruct (H _ Hin).
Qed.

Lemma fatal_only_explicit_witness :
  ∃ s plog, s ∈ given laxfile true [Samples.missing_src; Samples.raw_src] ∧
            explicit s = true ∧
            parse (Samples.sample_world [] [] []) Samples.fl0 s
            = (plog, inl (ErrOpen "missing")).
Proof.
  exact (fatal_only_explicit (Samples.sample_world [] [] []) Samples.fl0 anyinterp
           laxfile true [Samples.missing_src; Samples.raw_src] [] []
           (ErrOpen "missing") eq_refl).
Defined.

Lemma assignment_arguments_are_raw_witness :
  match Cli.read_args false MoreSamples.some_args Cli.initial with
  | Cli.Parsed o =>
      Forall (λ s, kind s = raw ↔
                   explicit s = false ∧ MatchString assignment (data s) = true)
             (setDefaultType (Cli.defaultType o) (Cli.sources o))
  | _ => True
  end.
Proof.
  exact (assignment_arguments_are_raw false MoreSamples.some_args _ eq_refl).
Defined.

Lemma main_logs_only_warnings_witness :
  Forall is_warning [InvalidLine "FOO bar"] ∧
  ∀ d e, ErrorParsing d e ∉ [InvalidLine "FOO bar"].
Proof.
  exact (main_logs_only_warnings (Samples.one_file Samples.bad_line) ["f"]
           _ (Finished [InvalidLine "FOO bar"] [mk_envvar "A" "1" true false] ["sh"])
           eq_refl).
Defined.

End MainFacts.

(** ** A source that cannot be read *)

Module PolicyFacts.
Import Re Dotenv Notions MoreNotions.



(** X10.  The command of a run of [main] that comes to its end is the data
    of the sources from some point of the priority order on, then the
    command given after [--], or [sh] when both are empty.  Each of those
    sources was given after [-f] or has a text that is not of the form
    NAME=value: an argument NAME=value that was not given after [-f] is
    never put in front of the command. *)
Theorem command_has_no_assignment (w : world) (args : list string)
  (o : Cli.options) (log : list event) (vars : list envvar) (cmd' : list string) :
  Cli.main w args = Cli.Ran o (Finished log vars cmd') →
  ∃ rest,
    rest `suffix_of` sort_sources (bypriority
                       (given (Cli.defaultType o) (Cli.clearEnv o) (Cli.sources o))) ∧
    Forall (λ s, explicit s = true ∨ MatchString assignment (data s) = false) rest ∧
    cmd' = match map data rest ++ default [] (Cli.split_args args).2 with
           | [] => ["sh"]
           | c => c
           end.
Proof.
  intros (Ht & Hs & Hrun)%MainFacts.main_ran. symmetry in Hrun.
  apply LoopFacts.command_from_sources in Hrun as (rest & Hsuf & Hraw & ->).
  exists rest. split; [done|]. split; [|done].
  apply Forall_forall. intros s Hin.
  apply (MainFacts.given_not_raw (Cli.defaultType o) (Cli.clearEnv o) (Cli.sources o));
    [done| |].
  - apply MainFacts.elem_of_sorted. destruct Hsuf as [pre ->].
    apply elem_of_app. by right.
  - rewrite Forall_forall in Hraw. by apply Hraw.
Qed.

Lemma command_has_no_assignment_witness :
  ∃ rest,
    rest `suffix_of` sort_sources (bypriority
                       (given laxfile false
                          [mk_varsource "ls" notype false false None;
                           mk_varsource "A=1" raw false false None;
                           mk_varsource "B=2" notype true false None])) ∧
    Forall (λ s, explicit s = true ∨ MatchString assignment (data s) = false) rest ∧
    ["ls"; "B=2"]
    = match map data rest ++ [] with
      | [] => ["sh"]
      | c => c
      end.
Proof.
  exact (command_has_no_assignment (Samples.sample_world [] [] [])
           ["ls"; "A=1"; "-f"; "B=2"] _ [] [mk_envvar "A" "1" false false]
           ["ls"; "B=2"] eq_refl).
Defined.

End PolicyFacts.

(** ** Assignments as text: [parsevar] and the entries of the environment *)

Module AssignFacts.
Import Re Dotenv Notions MoreNotions.
Import StrFacts.

Lemma cut_app (c : ascii) (n rest : string) :
  has_char c n = false → Str.cut c (n +:+ String c rest) = (n, Some rest).
Proof.
  induction n as [|b n IH]; intros Hn.
  - rewrite str_app_nil_l. simpl. by rewrite Ascii.eqb_refl.
  - simpl in Hn. apply orb_false_iff in Hn as [Hb Hn].
    rewrite str_app_cons. simpl. by rewrite Hb, IH.
Qed.

Lemma cut_none (c : ascii) (s : string) :
  has_char c s = false → Str.cut c s = (s, None).
Proof.
  induction s as [|b s IH]; intros Hs; [done|].
  simpl in Hs. apply orb_false_iff in Hs as [Hb Hs].
  simpl. by rewrite Hb, IH.
Qed.

Lemma cut_some (c : ascii) (s : string) :
  has_char c s = true →
  ∃ n rest, s = n +:+ String c rest ∧ has_char c n = false.
Proof.
  induction s as [|b s IH]; intros Hs; [done|]. simpl in Hs.
  destruct (Ascii.eqb_spec b c) as [->|Hb].
  - by exists "", s.
  - destruct (IH Hs) as (n & rest & -> & Hn). exists (String b n), rest.
    split; [done|]. simpl. rewrite Hn. by destruct (Ascii.eqb_spec b c).
Qed.

Lemma render_parsevar (s : string) :
  Cli.render (parsevar s) = if has_char "=" s then s else s +:+ "=".
Proof.
  unfold Cli.render, parsevar. destruct (has_char "=" s) eqn:Hs.
  - destruct (cut_some _ _ Hs) as (n & rest & -> & Hn). by rewrite cut_app.
  - rewrite cut_none by done. simpl. by rewrite str_app_nil_r || done.
Qed.

Lemma parsevar_render (v : envvar) :
  has_char "=" (name v) = false →
  parsevar (Cli.render v) = mk_envvar (name v) (val v) false false.
Proof.
  intros Hv. unfold Cli.render, parsevar.
  change (name v +:+ "=" +:+ val v) with (name v +:+ ("=" +:+ val v)).
  rewrite str_app_cons, str_app_nil_l. by rewrite cut_app.
Qed.

(** X15.  [parsevar] and the entry [main] writes into the environment of
    the command are inverse to each other: a text with an equals sign,
    split by [parsevar] and written back, is the same text (a text without
    one gains an equals sign at its end); and an assignment whose name
    holds no equals sign, written and split again, has the same name and
    value. *)
Theorem parsevar_render_round_trip :
  (∀ s, Cli.render (parsevar s) = if has_char "=" s then s else s +:+ "=") ∧
  (∀ v, has_char "=" (name v) = false →
        parsevar (Cli.render v) = mk_envvar (name v) (val v) false false).
Proof. split; [apply render_parsevar | apply parsevar_render]. Qed.

Lemma parsevar_render_round_trip_witness :
  Cli.render (parsevar "A=1=2") = "A=1=2" ∧
  parsevar (Cli.render (mk_envvar "A" "1=2" true false))
  = mk_envvar "A" "1=2" false false.
Proof.
  split.
  - exact (proj1 parsevar_render_round_trip "A=1=2").
  - exact (proj2 parsevar_render_round_trip (mk_envvar "A" "1=2" true false) eq_refl).
Defined.

End AssignFacts.

(** ** The strict parser of files *)

Module FileFacts.
Import Re Dotenv Notions MoreNotions.
Import StrFacts.

Lemma match_string_here (r : regex) (s : string) :
  anchored r → MatchString r s = true ↔ is_Some (match_here r None s).
Proof.
  intros Hr. unfold MatchString. rewrite bool_decide_eq_true.
  rewrite TrimFacts.find_anchored by done. by rewrite fmap_is_Some.
Qed.

Lemma all_chars_impl (P Q : ascii → Prop) (s : string) :
  (∀ c, P c → Q c) → all_chars P s → all_chars Q s.
Proof. intros H. induction s as [|b s IH]; simpl; [done|]. intros [? ?]. auto. Qed.

Lemma all_chars_has_char (P : ascii → Prop) (c : ascii) (s : string) :
  ¬ P c → all_chars P s → has_char c s = false.
Proof.
  intros Hc. induction s as [|b s IH]; simpl; [done|]. intros [Hb Hs].
  rewrite IH by done. destruct (Ascii.eqb_spec b c) as [->|]; done.
Qed.

(** A line the pattern [nonstrict] matches. *)
Lemma nonstrict_inv (l : string) :
  MatchString nonstrict l = true →
  ∃ n rest, l = n +:+ String "=" rest ∧ n ≠ "" ∧
            all_chars (λ c, not_space_eq c = true) n.
Proof.
  rewrite match_string_here by exact I. intros [res H].
  unfold match_here, nonstrict in H.
  rewrite StarFacts.rmatch_seq, StarFacts.rmatch_bot, StarFacts.rmatch_seq in H.
  apply (ReFacts.rmatch_inv (λ c, not_space_eq c = true)) in H; [|by cbv [only Plus]].
  destruct H as (m & p' & s' & c' & -> & Hk & Hm & Hnull).
  exists m. cbn [rmatch] in Hk. destruct s' as [|b rest]; [done|].
  destruct (Ascii.eqb_spec b "=") as [->|]; [|done].
  exists rest. split; [done|]. split; [|done].
  intros ->. by specialize (Hnull eq_refl).
Qed.

(** A line the pattern [assignment] matches. *)
Lemma assignment_inv (l : string) :
  MatchString assignment l = true →
  ∃ b t rest, l = String b t +:+ String "=" rest ∧ Chars.is_id_start b = true ∧
              all_chars (λ c, Chars.is_id_char c = true) t.
Proof.
  rewrite match_string_here by exact I. intros [res H].
  unfold match_here, assignment, identifier in H.
  rewrite StarFacts.rmatch_seq, StarFacts.rmatch_bot, !StarFacts.rmatch_seq in H.
  destruct l as [|b l1]; [done|]. cbn [rmatch] in H.
  destruct (Chars.is_id_start b) eqn:Hb; [|done].
  change (rmatch (Star true (Cls Chars.is_id_char)) (Some b) l1 []
            (λ p' s' c', rmatch (Chr "=") p' s' c' (λ _ s'' c, Some (s'', c)))
          = Some res) in H.
  apply (ReFacts.rmatch_inv (λ c, Chars.is_id_char c = true)) in H; [|by cbv [only]].
  destruct H as (m & p' & s' & c' & -> & Hk & Hm & _).
  cbn [rmatch] in Hk. destruct s' as [|e rest]; [done|].
  destruct (Ascii.eqb_spec e "=") as [->|]; [|done].
  exists b, m, rest. by rewrite str_app_cons.
Qed.

Lemma id_start_id_char (c : ascii) :
  Chars.is_id_start c = true → Chars.is_id_char c = true.
Proof. unfold Chars.is_id_char. by intros ->. Qed.

Lemma id_char_not_space_eq (c : ascii) :
  Chars.is_id_char c = true → not_space_eq c = true.
Proof.
  destruct c as [[] [] [] [] [] [] [] []]; vm_compute; done.
Qed.

Lemma skip_class_app (p : ascii → bool) (m : string) (x : ascii) (rest : string) :
  all_chars (λ c, p c = true) m → p x = false →
  ∀ prev, (skip_class p prev (m +:+ String x rest)).2 = String x rest.
Proof.
  intros Hm Hx. induction m as [|b m IH]; intros prev.
  - rewrite str_app_nil_l. simpl. by rewrite Hx.
  - destruct Hm as [Hb Hm]. rewrite str_app_cons. simpl. rewrite Hb. by apply IH.
Qed.

(** Every line [assignment] matches, [nonstrict] matches. *)
Lemma assignment_nonstrict (l : string) :
  MatchString assignment l = true → MatchString nonstrict l = true.
Proof.
  intros (b & t & rest & -> & Hb & Ht)%assignment_inv.
  rewrite match_string_here by exact I.
  unfold match_here, nonstrict, Plus.
  rewrite StarFacts.rmatch_seq, StarFacts.rmatch_bot, !StarFacts.rmatch_seq.
  rewrite str_app_cons. cbn [rmatch].
  rewrite (id_char_not_space_eq b (id_start_id_char b Hb)).
  assert (Hskip : ∀ prev, (skip_class not_space_eq prev (t +:+ String "=" rest)).2
                          = String "=" rest).
  { apply skip_class_app; [|done].
    eapply all_chars_impl; [|exact Ht]. apply id_char_not_space_eq. }
  change (is_Some (rmatch (Star true (Cls not_space_eq)) (Some b)
                     (t +:+ String "=" rest) []
                     (λ p' s' c', rmatch (Chr "=") p' s' c' (λ _ s'' c, Some (s'', c))))).
  rewrite StarFacts.rmatch_star_cls; rewrite Hskip; cbn [rmatch]; simpl; eauto.
Qed.

Section Lines.
Variable w : world.

Lemma keep_sublist (lines : list string) :
  flat_map (λ line, if MatchString comment line then []
                    else if MatchString assignment line then [parsevar line] else [])
           lines
  `sublist_of`
  flat_map (λ line, if MatchString comment line then []
                    else if MatchString nonstrict line then [parsevar line] else [])
           lines.
Proof.
  induction lines as [|l lines IH]; [done|]. simpl.
  apply sublist_app; [|done].
  destruct (MatchString comment l); [done|].
  destruct (MatchString assignment l) eqn:Ha.
  - by rewrite (assignment_nonstrict l Ha).
  - apply sublist_nil_l.
Qed.

End Lines.

(** The scanner yields lines of the text, in their order. *)
Lemma scanned_sublist (lines : list string) : Str.scanned lines `sublist_of` lines.
Proof.
  induction lines as [|l lines IH]; [done|]. simpl.
  destruct (_ <? _)%N; [by apply sublist_skip | apply sublist_nil_l].
Qed.

Lemma scan_lines_raw (content l : string) :
  l ∈ Str.scan_lines content → l ∈ map Str.drop_cr (Str.raw_lines content).
Proof.
  unfold Str.scan_lines. intros Hl. eapply elem_of_sublist; [exact Hl|].
  change (Str.drop_cr <$> Str.scanned (Str.raw_lines content)
          `sublist_of` Str.drop_cr <$> Str.raw_lines content).
  apply fmap_sublist, scanned_sublist.
Qed.

Lemma parsevar_line (n rest : string) :
  all_chars (λ c, not_space_eq c = true) n →
  parsevar (n +:+ String "=" rest) = mk_envvar n rest false false.
Proof.
  intros Hn. unfold parsevar. rewrite AssignFacts.cut_app; [done|].
  eapply all_chars_has_char; [|exact Hn]. done.
Qed.

(** X16.  What [parseFile] returns when the file opens: nothing is logged,
    and every assignment is a line of the file, as it stands, that is no
    comment; its name is not empty and holds no white space and no equals
    sign; it is neither interpolated nor a tombstone; and with
    [-strict-vars] its name is an identifier. *)
Theorem parseFile_assignments (w : world) (fl : flags) (src : varsource)
  (log : list event) (vars : list envvar) :
  parseFile w fl src = (log, inr vars) →
  ∃ content, open_file w (data src) = Some content ∧ log = [] ∧
    Forall (λ v,
      Cli.render v ∈ map Str.drop_cr (Str.raw_lines content) ∧
      MatchString comment (Cli.render v) = false ∧
      name v ≠ "" ∧ all_chars (λ c, not_space_eq c = true) (name v) ∧
      allowsubs v = false ∧ tombstone v = false ∧
      (alphanumeric fl = true →
       ∃ b t, name v = String b t ∧ Chars.is_id_start b = true ∧
              all_chars (λ c, Chars.is_id_char c = true) t)) vars.
Proof.
  unfold parseFile. destruct (open_file w (data src)) as [content|]; [|done].
  intros [= <- <-]. exists content. split; [done|]. split; [done|].
  apply Forall_forall. intros v Hv.
  apply list_elem_of_In, in_flat_map in Hv as (l & Hl & Hv).
  apply list_elem_of_In, scan_lines_raw in Hl.
  destruct (MatchString comment l) eqn:Hc; [done|].
  destruct (MatchString (if alphanumeric fl then assignment else nonstrict) l) eqn:Hm;
    [|done]. destruct Hv as [<-|[]].
  assert (Hns : MatchString nonstrict l = true).
  { destruct (alphanumeric fl); [by apply assignment_nonstrict | done]. }
  destruct (nonstrict_inv l Hns) as (n & rest & -> & Hne & Hn).
  rewrite parsevar_line by done. unfold Cli.render. simpl.
  change (n +:+ "=" +:+ rest) with (n +:+ String "=" ("" +:+ rest)).
  rewrite str_app_nil_l.
  repeat split; try done.
  intros Ha. rewrite Ha in Hm.
  destruct (assignment_inv _ Hm) as (b & t & rest' & Heq & Hb & Ht).
  exists b, t. split; [|done].
  assert (Hcut : Str.cut "=" (n +:+ String "=" rest) = (String b t, Some rest')).
  { rewrite Heq. apply AssignFacts.cut_app.
    eapply (all_chars_has_char (λ c, Chars.is_id_char c = true)); [done|].
    split; [by apply id_start_id_char | done]. }
  rewrite AssignFacts.cut_app in Hcut; [by injection Hcut|].
  eapply all_chars_has_char; [|exact Hn]. done.
Qed.

(** X17.  [-strict-vars] only removes: the assignments [parseFile] returns
    with it are, in the same order, among those it returns without it. *)
Theorem strict_vars_only_removes (w : world) (src : varsource) (wa su : bool)
  (log : list event) (vars : list envvar) :
  parseFile w (mk_flags true wa su) src = (log, inr vars) →
  ∃ more, parseFile w (mk_flags false wa su) src = (log, inr more) ∧
          vars `sublist_of` more.
Proof.
  unfold parseFile. simpl. destruct (open_file w (data src)) as [content|]; [|done].
  intros [= <- <-]. eexists. split; [done|]. apply keep_sublist.
Qed.

Lemma parseFile_assignments_witness :
  ∃ content,
    open_file (Samples.one_file MoreSamples.mixed_lines) "f" = Some content ∧
    [] = @nil event ∧
    Forall (λ v,
      Cli.render v ∈ map Str.drop_cr (Str.raw_lines content) ∧
      MatchString comment (Cli.render v) = false ∧
      name v ≠ "" ∧ all_chars (λ c, not_space_eq c = true) (name v) ∧
      allowsubs v = false ∧ tombstone v = false ∧
      (alphanumeric Samples.fl0 = true →
       ∃ b t, name v = String b t ∧ Chars.is_id_start b = true ∧
              all_chars (λ c, Chars.is_id_char c = true) t))
      [mk_envvar "A" "1" false false; mk_envvar "a.b" "2" false false].
Proof.
  exact (parseFile_assignments (Samples.one_file MoreSamples.mixed_lines) Samples.fl0
           MoreSamples.strict_file [] _ eq_refl).
Defined.

Lemma strict_vars_only_removes_witness :
  ∃ more,
    parseFile (Samples.one_file MoreSamples.mixed_lines) (mk_flags false true true)
              MoreSamples.strict_file = ([], inr more) ∧
    [mk_envvar "A" "1" false false] `sublist_of` more.
Proof.
  exact (strict_vars_only_removes (Samples.one_file MoreSamples.mixed_lines)
           MoreSamples.strict_file true true [] _ eq_refl).
Defined.

End FileFacts.

(** ** The escapes of quoted values *)

Module UnquoteFacts.
Import Re Dotenv Notions MoreNotions.
Import StrFacts.

Lemma laxescaped_here (prev : option ascii) (s : string) :
  match_here laxescaped prev s =
    match s with
    | String b (String d s'') =>
        if Ascii.eqb b Chars.backslash then Some (s'', []) else None
    | _ => None
    end.
Proof.
  unfold match_here, laxescaped, Any. cbn [rmatch].
  destruct s as [|b [|d s'']]; [done| |]; by destruct (Ascii.eqb b Chars.backslash).
Qed.

Lemma replace_laxescaped (f : string → string) (n : nat) :
  ∀ s prev, (String.length s < n)%nat →
  replace_from laxescaped f 0 prev s = unescape f s.
Proof.
  induction n as [|n IH]; intros s prev Hn; [lia|].
  destruct s as [|b s']; [done|]. cbn [replace_from unescape].
  rewrite laxescaped_here. simpl in Hn.
  destruct s' as [|d s''].
  - destruct (Ascii.eqb b Chars.backslash); by rewrite IH by (simpl; lia).
  - destruct (Ascii.eqb b Chars.backslash) eqn:Hb.
    + assert (Hlen : String.length (String b (String d s'')) - String.length s'' = 2).
      { cbn [String.length]. lia. }
      rewrite Hlen. cbn [replace_from].
      rewrite IH by (simpl in Hn; lia). f_equal.
      unfold consumed. rewrite Hlen. done.
    + by rewrite IH by (simpl in *; lia).
Qed.

Lemma laxparse_unescape (s : string) :
  laxparsesq s = unescape laxsubsq s ∧ laxparsedq s = unescape laxsubdq s.
Proof.
  unfold laxparsesq, laxparsedq, ReplaceAllStringFunc.
  split; apply (replace_laxescaped _ (S (String.length s))); lia.
Qed.

Lemma unescape_plain (f : string → string) (s : string) :
  has_char Chars.backslash s = false → unescape f s = s.
Proof.
  induction s as [|b s IH]; [done|]. simpl. intros [Hb Hs]%orb_false_iff.
  by rewrite Hb, IH.
Qed.

(** X18.  [laxparsesq] and [laxparsedq] decode the escapes of a quoted
    value from the left, one after the other: a backslash and the character
    after it are replaced through the table of the quote kind (and left as
    they are when the table has no entry), a backslash that ends the text
    stays, and every other character is kept; so a text without a
    backslash is unchanged. *)
Theorem unquoting_decodes_escapes (s : string) :
  laxparsesq s = unescape laxsubsq s ∧ laxparsedq s = unescape laxsubdq s ∧
  (has_char Chars.backslash s = false → laxparsesq s = s ∧ laxparsedq s = s).
Proof.
  destruct (laxparse_unescape s) as [H1 H2]. split; [done|]. split; [done|].
  intros Hs. rewrite H1, H2. by rewrite !unescape_plain.
Qed.

Lemma unquoting_decodes_escapes_witness :
  laxparsesq "a b" = "a b" ∧ laxparsedq "a b" = "a b".
Proof.
  exact (proj2 (proj2 (unquoting_decodes_escapes "a b")) eq_refl).
Defined.

End UnquoteFacts.

(** ** The switch [-quiet] *)

Module QuietFacts.
Import Re Dotenv Notions MoreNotions.

Lemma lax_loop_quiet (a s b b' : bool) (fuel : nat) :
  ∀ data0 vars log log',
  (lax_loop (mk_flags a b s) fuel data0 vars log).2
  = (lax_loop (mk_flags a b' s) fuel data0 vars log').2.
Proof.
  induction fuel as [|fuel IH]; intros data0 vars log log'.
  { by destruct data0. }
  destruct data0 as [|c d]; [done|]. cbn [lax_loop].
  destruct (lax_step (String c d)); try done; apply IH.
Qed.

Lemma lax_loop_silent (a s : bool) (fuel : nat) :
  ∀ data0 vars log, (lax_loop (mk_flags a false s) fuel data0 vars log).1 = log.
Proof.
  induction fuel as [|fuel IH]; intros data0 vars log.
  { by destruct data0. }
  destruct data0 as [|c d]; [done|]. cbn [lax_loop].
  destruct (lax_step (String c d)); try done; apply IH.
Qed.

(** X19.  The switch [warn] (turned off by [-quiet]) changes nothing but
    the log: with the other switches equal, a source is parsed to the same
    assignments or the same error whether it is on or off, and with it off
    the parsers log nothing. *)
Theorem quiet_changes_only_the_log (w : world) (a s b b' : bool) (src : varsource) :
  (parse w (mk_flags a b s) src).2 = (parse w (mk_flags a b' s) src).2 ∧
  (parse w (mk_flags a false s) src).1 = [].
Proof.
  unfold parse. destruct (kind src); try done.
  - unfold parseFile. by destruct (open_file w (data src)).
  - unfold parseShell. by destruct (open_file w (data src)).
  - unfold parseLax. destruct (read_file w (data src)); [|done].
    split; [apply lax_loop_quiet | apply lax_loop_silent].
  - unfold parseJsonMap. by destruct (json_unmarshal w (data src)).
  - split; [done|]. unfold parseFromPid.
    destruct (Str.cut ":" (data src)) as [p0 [rest1|]]; [|done].
    destruct (negb _ && negb _); [done|].
    destruct (Str.cut ":" rest1) as [p1 rest2].
    destruct (ParseUint32 p1) as [p|]; [|done].
    by destruct (readenv w _ p).
Qed.

End QuietFacts.

(** ** The names the lax parser gives *)

Module NameFacts.
Import Re Dotenv Notions MoreNotions.
Import StrFacts.

Section Caps.
Context {A : Type}.

Lemma star_loop_same_caps (body : option ascii → string → caps → @cont A → option A)
  (g : bool) (k : @cont A) (c : caps) :
  (∀ prev s k' (x : A), body prev s c k' = Some x → ∃ p' s', k' p' s' c = Some x) →
  ∀ n prev s (x : A), star_loop body g k n prev s c = Some x →
                ∃ p' s', k p' s' c = Some x.
Proof.
  intros Hbody. induction n as [|n IH]; intros prev s x Hx; cbn [star_loop] in Hx.
  { eauto. }
  assert (Hagain : ∀ y, body prev s c
             (λ p' s' c', if (String.length s' <? String.length s)%nat
                          then star_loop body g k n p' s' c' else None) = Some y →
           ∃ p' s', k p' s' c = Some y).
  { intros y (p1 & s1 & H1)%Hbody.
    destruct (String.length s1 <? String.length s)%nat; [|done]. by eapply IH. }
  destruct g.
  - destruct (body prev s c _) as [y|] eqn:Hb; [|eauto].
    injection Hx as ->. by apply Hagain.
  - destruct (k prev s c) as [y|] eqn:Hk; [|by apply Hagain].
    injection Hx as ->. eauto.
Qed.

(** A pattern without groups hands on the captures it was given. *)
Lemma rmatch_same_caps (r : regex) :
  no_group r → ∀ prev s c (k : @cont A) (x : A),
  rmatch r prev s c k = Some x → ∃ p' s', k p' s' c = Some x.
Proof.
  induction r as [| | | |a|p|r1 IH1 r2 IH2|r1 IH1 r2 IH2|g r IH|i r IH];
    intros Hr prev s c k x Hx; cbn [rmatch] in Hx.
  - destruct prev; [done|]. eauto.
  - destruct s; [|done]. eauto.
  - destruct (at_word_boundary prev s); [|done]. eauto.
  - eauto.
  - destruct s as [|b s]; [done|]. destruct (Ascii.eqb b a); [|done]. eauto.
  - destruct s as [|b s]; [done|]. destruct (p b); [|done]. eauto.
  - destruct Hr as [H1 H2].
    apply (IH1 H1) in Hx as (p1 & s1 & Hx). by apply (IH2 H2) in Hx.
  - destruct Hr as [H1 H2].
    destruct (rmatch r1 prev s c k) eqn:Hr1.
    + injection Hx as ->. by apply (IH1 H1) in Hr1.
    + by apply (IH2 H2) in Hx.
  - eapply star_loop_same_caps; [|exact Hx]. intros; by eapply IH.
  - done.
Qed.

End Caps.

(** The first group of a match of [laxID]: a name that is not empty and
    holds no white space, equals sign or hash. *)
Lemma laxID_group (s rest : string) (cps : caps) :
  match_here laxID None s = Some (rest, cps) →
  group 1 cps ≠ "" ∧ within name_char (group 1 cps).
Proof.
  unfold match_here, laxID.
  rewrite StarFacts.rmatch_seq, StarFacts.rmatch_bot, StarFacts.rmatch_seq.
  intros (p1 & s1 & H)%rmatch_same_caps; [|by cbv].
  rewrite StarFacts.rmatch_seq in H.
  apply rmatch_same_caps in H as (p2 & s2 & H); [|by cbv].
  rewrite StarFacts.rmatch_grp in H.
  apply (ReFacts.rmatch_inv (λ c, name_char c = true)) in H; [|by cbv [only Plus]].
  destruct H as (m & p3 & s3 & c3 & -> & [= <- <-] & Hm & Hnull).
  cbn [group Nat.eqb]. rewrite consumed_app. split; [|done].
  intros ->. by specialize (Hnull eq_refl).
Qed.

Lemma lax_step_name (data0 : string) (v : envvar) (d : string) :
  lax_step data0 = LaxVar v d →
  name v ≠ "" ∧ within name_char (name v) ∧ tombstone v = false.
Proof.
  unfold lax_step.
  destruct (trimRegex data0 laxcomment); [done|].
  destruct (trimRegex data0 laxempty); [done|].
  destruct (trimRegexMatches data0 laxID) as [[data1 idmatch]|] eqn:Hid; [|done].
  rewrite TrimFacts.trim_match_here in Hid by exact I.
  destruct (match_here laxID None data0) as [[rest cps]|] eqn:Hm; [|done].
  injection Hid as <- <-. apply laxID_group in Hm as [Hne Hn].
  assert (Hnth : nth 1 (submatches laxID data0 (rest, cps)) "" = group 1 cps) by done.
  rewrite Hnth.
  destruct (trimRegex _ laxcomment); [by intros [= <- <-]|].
  destruct (trimRegex _ laxempty); [by intros [= <- <-]|].
  destruct (trimRegex _ laxequals); [|done].
  destruct (lax_value _) as [e|[[val0 allow] d']]; [done|].
  by intros [= <- <-].
Qed.

Lemma lax_loop_names (fl : flags) (fuel : nat) :
  ∀ data0 vars log log' out,
  Forall (λ v, name v ≠ "" ∧ within name_char (name v) ∧ tombstone v = false) vars →
  lax_loop fl fuel data0 vars log = (log', inr out) →
  Forall (λ v, name v ≠ "" ∧ within name_char (name v) ∧ tombstone v = false) out.
Proof.
  induction fuel as [|fuel IH]; intros data0 vars log log' out Hvars.
  { destruct data0; [by intros [= <- <-] | done]. }
  destruct data0 as [|b s]; [by intros [= <- <-]|]. cbn [lax_loop].
  destruct (lax_step (String b s)) as [d|line d|v d|e] eqn:Hstep; try by apply IH.
  - apply IH. apply Forall_app. split; [done|]. apply Forall_singleton.
    by eapply lax_step_name.
  - done.
Qed.

(** X20.  Every assignment [parseLax] returns has a name that is not empty
    and holds no white space, no equals sign and no hash, and is no
    tombstone. *)
Theorem parseLax_names (w : world) (fl : flags) (src : varsource)
  (log : list event) (vars : list envvar) :
  parseLax w fl src = (log, inr vars) →
  Forall (λ v, name v ≠ "" ∧ within name_char (name v) ∧ tombstone v = false) vars.
Proof.
  unfold parseLax. destruct (read_file w (data src)) as [content|]; [|done].
  by apply lax_loop_names.
Qed.

Lemma parseLax_names_witness :
  Forall (λ v, name v ≠ "" ∧ within name_char (name v) ∧ tombstone v = false)
         [Samples.var_A; mk_envvar "B" "bar" true false].
Proof.
  exact (parseLax_names (Samples.one_file Samples.two_lines) Samples.fl0
           Samples.lax_src [] _ eq_refl).
Defined.

End NameFacts.

(** ** Matching a run of a class, and the patterns of a line *)

Module MatchFacts.
Import Re Dotenv Notions MoreNotions.
Import StrFacts.

Lemma skip_class_stop (p : ascii → bool) (m tail : string) :
  within p m → stops p tail →
  ∀ prev, (skip_class p prev (m +:+ tail)).2 = tail.
Proof.
  intros Hm Ht. induction m as [|b m IH]; intros prev.
  - rewrite str_app_nil_l. destruct tail as [|x t]; [done|].
    simpl in *. by rewrite Ht.
  - destruct Hm as [Hb Hm]. rewrite str_app_cons. simpl. rewrite Hb. by apply IH.
Qed.

Section Run.
Context {A : Type}.
Implicit Types (k : @cont A).

(** A greedy star of a class passes a run of the class that stops. *)
Lemma star_run (p : ascii → bool) (m tail : string) k prev c (x : A) :
  within p m → stops p tail →
  (∀ prev', k prev' tail c = Some x) →
  rmatch (Star true (Cls p)) prev (m +:+ tail) c k = Some x.
Proof.
  intros Hm Ht Hk.
  rewrite StarFacts.rmatch_star_cls; rewrite (skip_class_stop p m tail Hm Ht);
    [apply Hk | by rewrite Hk].
Qed.

(** With no character of the class ahead it matches the empty text. *)
Lemma star_stuck (p : ascii → bool) (s : string) k prev c :
  stops p s → rmatch (Star true (Cls p)) prev s c k = k prev s c.
Proof.
  intros Hs. rewrite StarFacts.rmatch_star. cbn [star_loop rmatch].
  destruct s as [|b s]; [done|]. simpl in Hs. by rewrite Hs.
Qed.

Lemma rmatch_chr (a : ascii) (s : string) k prev c :
  rmatch (Chr a) prev (String a s) c k = k (Some a) s c.
Proof. cbn [rmatch]. by rewrite Ascii.eqb_refl. Qed.

Lemma rmatch_chr_stop (a : ascii) (s : string) k prev c :
  stops (Ascii.eqb a) s → rmatch (Chr a) prev s c k = None.
Proof.
  destruct s as [|b s]; [done|]. simpl. intros Hb. by rewrite Ascii.eqb_sym, Hb.
Qed.

Lemma rmatch_cls (p : ascii → bool) (b : ascii) (s : string) k prev c :
  p b = true → rmatch (Cls p) prev (String b s) c k = k (Some b) s c.
Proof. intros Hb. cbn [rmatch]. by rewrite Hb. Qed.

Lemma rmatch_eps (s : string) k prev c : rmatch Eps prev s c k = k prev s c.
Proof. reflexivity. Qed.

Lemma rmatch_wordb (s : string) k prev c :
  rmatch WordB prev s c k = if at_word_boundary prev s then k prev s c else None.
Proof. reflexivity. Qed.

Lemma rmatch_alt (r1 r2 : regex) (s : string) k prev c :
  rmatch (Alt r1 r2) prev s c k
  = match rmatch r1 prev s c k with
    | Some x => Some x
    | None => rmatch r2 prev s c k
    end.
Proof. reflexivity. Qed.

Lemma lit_fail (lit : string) :
  ∀ s prev c k, String.prefix lit s = false → rmatch (Lit lit) prev s c k = None.
Proof.
  induction lit as [|a lit IH]; intros s prev c k Hs.
  - by destruct s.
  - destruct s as [|b s]; [done|]. cbn [String.prefix] in Hs. cbn [Lit rmatch].
    destruct (Ascii.eqb_spec b a) as [->|Hb]; [|done].
    apply IH. by destruct (ascii_dec a a).
Qed.

End Run.

Lemma prefix_stops (p : ascii → bool) (lit n tail : string) :
  within p lit → within p n → stops p tail →
  String.prefix lit n = false → String.prefix lit (n +:+ tail) = false.
Proof.
  intros Hlit Hn Ht. revert n Hn. induction lit as [|a lit IH]; intros n Hn; [by destruct n|].
  destruct Hlit as [Ha Hlit]. destruct n as [|b n].
  - intros _. rewrite str_app_nil_l. destruct tail as [|x t]; [done|].
    cbn [String.prefix]. destruct (ascii_dec a x) as [->|]; [|done].
    simpl in Ht. congruence.
  - destruct Hn as [Hb Hn]. rewrite str_app_cons. cbn [String.prefix].
    destruct (ascii_dec a b); [|done]. by apply IH.
Qed.

(** Texts cut at the first character outside a class agree. *)
Lemma run_unique (p : ascii → bool) (m m' : string) (x y : ascii) (t t' : string) :
  within p m → within p m' → p x = false → p y = false →
  m +:+ String x t = m' +:+ String y t' → m = m' ∧ x = y ∧ t = t'.
Proof.
  intros Hm Hm' Hx Hy. revert m' Hm'.
  induction m as [|b m IH]; intros [|b' m'] Hm'; rewrite ?str_app_nil_l, ?str_app_cons.
  - by intros [= -> ->].
  - intros [= -> _]. destruct Hm'. congruence.
  - intros [= -> _]. destruct Hm. congruence.
  - intros [= -> H]. destruct Hm, Hm'. by destruct (IH ltac:(done) m' ltac:(done) H) as (-> & -> & ->).
Qed.

Lemma run_stops (p : ascii → bool) (m m' tail : string) (y : ascii) (t' : string) :
  within p m → within p m' → stops p tail → p y = false →
  m +:+ tail = m' +:+ String y t' → tail = String y t'.
Proof.
  intros Hm Hm' Ht Hy. revert m' Hm'.
  induction m as [|b m IH]; intros [|b' m'] Hm'; rewrite ?str_app_nil_l, ?str_app_cons.
  - done.
  - intros ->. destruct Hm' as [Hb' _]. simpl in Ht. congruence.
  - intros [= -> _]. destruct Hm. congruence.
  - intros [= -> H]. destruct Hm, Hm'. by apply (IH ltac:(done) m').
Qed.

Lemma hspace_not_name (c : ascii) : Chars.is_hspace c = true → name_char c = false.
Proof.
  unfold Chars.is_hspace, name_char. intros [H _]%andb_true_iff. by rewrite H.
Qed.

Lemma name_not_hspace (c : ascii) : name_char c = true → Chars.is_hspace c = false.
Proof.
  intros Hc. destruct (Chars.is_hspace c) eqn:Hh; [|done].
  apply hspace_not_name in Hh. congruence.
Qed.

End MatchFacts.

Module LineFacts.
Import Re Dotenv Notions MoreNotions.
Import StrFacts MatchFacts.

Lemma eol_here (tail : string) (prev : option ascii) (c : caps) :
  at_eol tail →
  rmatch (Grp 1 eol) prev tail c (λ _ s' c', Some (s', c'))
  = Some (after_eol tail, (1, consumed tail (after_eol tail)) :: c).
Proof.
  intros Ht. unfold eol. destruct tail as [|x rest]; [reflexivity|].
  simpl in Ht. subst x. reflexivity.
Qed.

Lemma within_not_nl_stops (tail : string) :
  at_eol tail → stops (λ c, negb (existsb (Ascii.eqb c) [Chars.nl])) tail.
Proof. destruct tail as [|x t]; [done|]. simpl. by intros ->. Qed.

(** A comment line. *)
Lemma laxcomment_match (ws text tail : string) :
  within Chars.is_hspace ws → within (λ c, negb (Ascii.eqb c Chars.nl)) text →
  at_eol tail →
  match_here laxcomment None (ws +:+ String "#" (text +:+ tail))
  = Some (after_eol tail, [(1, consumed tail (after_eol tail))]).
Proof.
  intros Hws Htext Htail.
  unfold match_here, laxcomment, hspace, not_nl, NoneOf.
  rewrite StarFacts.rmatch_seq, StarFacts.rmatch_bot, StarFacts.rmatch_seq.
  apply star_run; [done|done|]. intros prev1.
  rewrite StarFacts.rmatch_seq, rmatch_chr, StarFacts.rmatch_seq.
  apply star_run; [|by apply within_not_nl_stops|].
  - eapply FileFacts.all_chars_impl; [|exact Htext].
    intros c Hc. simpl. by rewrite orb_false_r.
  - intros prev2. by apply eol_here.
Qed.

Lemma laxcomment_here (ws text tail : string) :
  within Chars.is_hspace ws → within (λ c, negb (Ascii.eqb c Chars.nl)) text →
  at_eol tail →
  trimRegex (ws +:+ String "#" (text +:+ tail)) laxcomment = Some (after_eol tail).
Proof.
  intros Hws Htext Htail. unfold trimRegex.
  rewrite TrimFacts.trim_match_here by exact I.
  by rewrite laxcomment_match.
Qed.


Lemma no_match_here (r : regex) (s : string) :
  anchored r → match_here r None s = None → trimRegexMatches s r = None.
Proof. intros Hr H. rewrite TrimFacts.trim_match_here by done. by rewrite H. Qed.

(** No comment where the text after the white space is no hash. *)
Lemma laxcomment_none (ws t : string) :
  within Chars.is_hspace ws → stops Chars.is_hspace t → stops (Ascii.eqb "#") t →
  trimRegex (ws +:+ t) laxcomment = None.
Proof.
  intros Hws Ht Hhash. unfold trimRegex. rewrite no_match_here; [done|exact I|].
  destruct (match_here laxcomment None (ws +:+ t)) as [res|] eqn:Hm; [|done].
  exfalso. unfold match_here, laxcomment, hspace in Hm.
  rewrite StarFacts.rmatch_seq, StarFacts.rmatch_bot, StarFacts.rmatch_seq in Hm.
  apply (ReFacts.rmatch_inv (λ c, Chars.is_hspace c = true)) in Hm; [|by cbv [only]].
  destruct Hm as (m & p' & s' & c' & Heq & Hk & Hm & _).
  rewrite StarFacts.rmatch_seq in Hk. cbn [rmatch] in Hk.
  destruct s' as [|b s']; [done|].
  destruct (Ascii.eqb_spec b "#") as [->|]; [|done].
  apply (run_stops Chars.is_hspace) in Heq; [|done..].
  subst t. simpl in Hhash. done.
Qed.

(** No blank line where the text after the white space goes on. *)
Lemma laxempty_none (ws t : string) :
  within Chars.is_hspace ws → stops Chars.is_hspace t → stops (Ascii.eqb Chars.nl) t →
  t ≠ "" → trimRegex (ws +:+ t) laxempty = None.
Proof.
  intros Hws Ht Hnl Hne. unfold trimRegex. rewrite no_match_here; [done|exact I|].
  destruct (match_here laxempty None (ws +:+ t)) as [res|] eqn:Hm; [|done].
  exfalso. unfold match_here, laxempty, hspace in Hm.
  rewrite StarFacts.rmatch_seq, StarFacts.rmatch_bot, StarFacts.rmatch_seq in Hm.
  apply (ReFacts.rmatch_inv (λ c, Chars.is_hspace c = true)) in Hm; [|by cbv [only]].
  destruct Hm as (m & p' & s' & c' & Heq & Hk & Hm & _).
  unfold eol in Hk. cbn [rmatch] in Hk.
  destruct s' as [|b s'].
  - rewrite str_app_nil_r in Heq. subst m. destruct t as [|x t]; [done|].
    simpl in Ht. clear -Hm Ht. induction ws as [|b ws IH].
    + rewrite str_app_nil_l in Hm. destruct Hm. congruence.
    + rewrite str_app_cons in Hm. destruct Hm. auto.
  - destruct (Ascii.eqb_spec b Chars.nl) as [->|]; [|done].
    apply (run_stops Chars.is_hspace) in Heq; [|done..].
    subst t. simpl in Hnl. done.
Qed.

(** A blank line. *)
Lemma laxempty_match (ws tail : string) :
  within Chars.is_hspace ws → at_eol tail →
  trimRegex (ws +:+ tail) laxempty = Some (after_eol tail).
Proof.
  intros Hws Htail. unfold trimRegex.
  rewrite TrimFacts.trim_match_here by exact I.
  assert (match_here laxempty None (ws +:+ tail)
          = Some (after_eol tail, [(1, consumed tail (after_eol tail))])) as ->; [|done].
  unfold match_here, laxempty, hspace.
  rewrite StarFacts.rmatch_seq, StarFacts.rmatch_bot, StarFacts.rmatch_seq.
  apply star_run; [done| |].
  - destruct tail as [|x t]; [done|]. simpl in *. by subst x.
  - intros prev1. by apply eol_here.
Qed.

(** The equals sign with the white space around it. *)
Lemma laxequals_match (ws1 ws2 t : string) :
  within Chars.is_hspace ws1 → within Chars.is_hspace ws2 → stops Chars.is_hspace t →
  trimRegex (ws1 +:+ String "=" (ws2 +:+ t)) laxequals = Some t.
Proof.
  intros H1 H2 Ht. unfold trimRegex.
  rewrite TrimFacts.trim_match_here by exact I.
  assert (match_here laxequals None (ws1 +:+ String "=" (ws2 +:+ t))
          = Some (t, [])) as ->; [|done].
  unfold match_here, laxequals, hspace.
  rewrite StarFacts.rmatch_seq, StarFacts.rmatch_bot, StarFacts.rmatch_seq.
  apply star_run; [done|done|]. intros prev1.
  rewrite StarFacts.rmatch_seq, rmatch_chr.
  apply star_run; done.
Qed.

(** The optional [export] does not match before a name that does not
    begin with it. *)
Lemma export_none {A} (ws0 n t1 : string) (k : @cont A) :
  within Chars.is_hspace ws0 → n ≠ "" → within name_char n → stops name_char t1 →
  String.prefix "export" n = false →
  rmatch (Star true hspace <+> Lit "export" <+> WordB)%re None
         (ws0 +:+ n +:+ t1) [] k = None.
Proof.
  intros Hws Hne Hn Ht1 Hpre.
  destruct (rmatch _ None (ws0 +:+ n +:+ t1) [] k) as [x|] eqn:Hm; [|done].
  exfalso. unfold hspace in Hm. rewrite StarFacts.rmatch_seq in Hm.
  apply (ReFacts.rmatch_inv (λ c, Chars.is_hspace c = true)) in Hm; [|by cbv [only]].
  destruct Hm as (m & p' & s' & c' & Heq & Hk & Hm & _).
  rewrite StarFacts.rmatch_seq in Hk.
  assert (Hs' : String.prefix "export" s' = true).
  { destruct (String.prefix "export" s') eqn:Hp; [done|].
    by rewrite lit_fail in Hk. }
  destruct s' as [|y t']; [done|].
  assert (Hy : y = "e"%char).
  { cbn [String.prefix] in Hs'. by destruct (ascii_dec "e" y). }
  subst y. apply (run_stops Chars.is_hspace) in Heq; [|done|done| |done].
  - rewrite <- Heq in Hs'.
    rewrite (prefix_stops name_char "export" n t1) in Hs'; done.
  - destruct n as [|b n]; [done|]. rewrite str_app_cons. simpl.
    destruct Hn as [Hb _]. by apply name_not_hspace.
Qed.

(** The name of a line. *)
Lemma laxID_match (ws0 n t1 : string) :
  within Chars.is_hspace ws0 → n ≠ "" → within name_char n → stops name_char t1 →
  String.prefix "export" n = false →
  trimRegexMatches (ws0 +:+ n +:+ t1) laxID = Some (t1, [ws0 +:+ n; n]).
Proof.
  intros Hws Hne Hn Ht1 Hpre.
  rewrite TrimFacts.trim_match_here by exact I.
  assert (match_here laxID None (ws0 +:+ n +:+ t1)
          = Some (t1, [(1, n)])) as ->.
  { unfold match_here, laxID, Opt.
    rewrite StarFacts.rmatch_seq, StarFacts.rmatch_bot, StarFacts.rmatch_seq, rmatch_alt.
    rewrite export_none by done. cbv beta iota. rewrite rmatch_eps.
    rewrite StarFacts.rmatch_seq. unfold hspace. apply star_run; [done| |].
    - destruct n as [|b n]; [done|]. rewrite str_app_cons. simpl.
      destruct Hn as [Hb _]. by apply name_not_hspace.
    - intros prev1. rewrite StarFacts.rmatch_grp. unfold Plus.
      rewrite StarFacts.rmatch_seq.
      destruct n as [|b n]; [done|]. destruct Hn as [Hb Hn].
      rewrite str_app_cons, rmatch_cls by done.
      apply star_run; [done|done|]. intros prev2.
      by rewrite <- str_app_cons, consumed_app. }
  unfold submatches. simpl fst. simpl snd.
  assert (ngroups laxID = 1) as -> by done. cbn [seq map group Nat.eqb].
  by rewrite <- str_app_assoc, consumed_app.
Qed.

End LineFacts.

(** ** The value of a line *)

Module ValueFacts.
Import Re Dotenv Notions MoreNotions.
Import StrFacts MatchFacts LineFacts.

Lemma rev_onto_twice (s : string) :
  ∀ a b, Str.rev_onto (Str.rev_onto s a) b = Str.rev_onto a (s +:+ b).
Proof.
  induction s as [|c s IH]; intros a b; [by rewrite str_app_nil_l|].
  simpl. rewrite IH. simpl. by rewrite str_app_cons.
Qed.

Lemma rev_rev (s : string) : Str.rev (Str.rev s) = s.
Proof. unfold Str.rev. rewrite rev_onto_twice. simpl. apply str_app_nil_r. Qed.

Lemma rev_onto_length (s : string) :
  ∀ acc, String.length (Str.rev_onto s acc) = (String.length s + String.length acc)%nat.
Proof.
  induction s as [|c s IH]; intros acc; [done|]. simpl. rewrite IH. simpl. lia.
Qed.

Lemma rev_length (s : string) : String.length (Str.rev s) = String.length s.
Proof. unfold Str.rev. rewrite rev_onto_length. simpl. lia. Qed.

(** Trimming does not lengthen a text. *)
Lemma trim_spaces_length (back : bool) (n : nat) :
  ∀ s, (String.length s ≤ n)%nat →
       (String.length (Str.trim_spaces back s) ≤ String.length s)%nat.
Proof.
  induction n as [|n IH]; intros s Hs.
  { destruct s; [done | simpl in Hs; lia]. }
  destruct s as [|a s1]; [done|]. cbn [Str.trim_spaces].
  destruct (Chars.is_trim_space a).
  { etrans; [apply IH; simpl in Hs; lia | simpl; lia]. }
  destruct s1 as [|b s2]; [done|].
  destruct (if back then Chars.is_space2 b a else Chars.is_space2 a b).
  { etrans; [apply IH; simpl in Hs; lia | simpl; lia]. }
  destruct s2 as [|c s3]; [done|].
  destruct (if back then Chars.is_space3 c b a else Chars.is_space3 a b c); [|done].
  etrans; [apply IH; simpl in Hs; lia | simpl; lia].
Qed.

(** A text that [strings.TrimSpace] leaves as it is does not begin with
    white space. *)
Lemma TrimSpace_id_stops (v : string) :
  Str.TrimSpace v = v → stops Chars.is_trim_space v.
Proof.
  intros Hv. destruct v as [|a v]; [done|]. simpl.
  destruct (Chars.is_trim_space a) eqn:Ha; [|done]. exfalso.
  apply (f_equal String.length) in Hv. unfold Str.TrimSpace in Hv.
  rewrite rev_length in Hv.
  pose proof (trim_spaces_length true _ (Str.rev (Str.trim_spaces false (String a v)))
                (Nat.le_refl _)) as H1.
  rewrite rev_length in H1. cbn [Str.trim_spaces] in H1, Hv. rewrite Ha in H1, Hv.
  pose proof (trim_spaces_length false _ v (Nat.le_refl _)) as H2.
  simpl in Hv. lia.
Qed.

Lemma has_char_app (c : ascii) (a b : string) :
  has_char c (a +:+ b) = has_char c a || has_char c b.
Proof.
  induction a as [|x a IH]; [by rewrite str_app_nil_l|].
  rewrite str_app_cons. simpl. by rewrite IH, orb_assoc.
Qed.

(** No trailing comment in a text without a hash. *)
Lemma laxtrailer_none (v : string) :
  has_char "#" v = false → FindStringSubmatch laxtrailer v = None.
Proof.
  intros Hv. rewrite TrimFacts.find_anchored by exact I.
  destruct (match_here laxtrailer None v) as [res|] eqn:Hm; [|done].
  exfalso. unfold match_here, laxtrailer in Hm.
  rewrite StarFacts.rmatch_seq, StarFacts.rmatch_bot, StarFacts.rmatch_seq in Hm.
  apply (ReFacts.rmatch_inv (λ _, True)) in Hm; [|apply TrimFacts.only_True].
  destruct Hm as (m1 & p1 & s1 & c1 & -> & Hk & _ & _).
  rewrite StarFacts.rmatch_seq in Hk.
  apply (ReFacts.rmatch_inv (λ _, True)) in Hk; [|apply TrimFacts.only_True].
  destruct Hk as (m2 & p2 & s2 & c2 & -> & Hk & _ & _).
  cbn [rmatch] in Hk. destruct s2 as [|b t]; [done|].
  destruct (Ascii.eqb_spec b "#") as [->|]; [|done].
  rewrite !has_char_app in Hv. simpl in Hv.
  by rewrite !orb_true_r in Hv.
Qed.

(** The rest of a line, with the text before its end as first group. *)
Lemma laxdiscard_match (v tail : string) :
  within (λ c, negb (Ascii.eqb c Chars.nl)) v → at_eol tail →
  ∃ whole, trimRegexMatches (v +:+ tail) laxdiscard
           = Some (after_eol tail, [whole; v]).
Proof.
  intros Hv Htail. rewrite TrimFacts.trim_match_here by exact I.
  assert (match_here laxdiscard None (v +:+ tail)
          = Some (after_eol tail, [(1, v)])) as ->.
  { unfold match_here, laxdiscard, not_nl, NoneOf.
    rewrite StarFacts.rmatch_seq, StarFacts.rmatch_bot, StarFacts.rmatch_seq,
      StarFacts.rmatch_grp.
    apply star_run; [|by apply within_not_nl_stops|].
    - eapply FileFacts.all_chars_impl; [|exact Hv].
      intros c Hc. simpl. by rewrite orb_false_r.
    - intros prev1. rewrite consumed_app. unfold eol.
      destruct tail as [|x rest]; [done|]. simpl in Htail. subst x.
      by rewrite rmatch_alt, rmatch_chr. }
  eexists. done.
Qed.

Lemma after_line_eol (junk tail : string) :
  within (λ c, negb (Ascii.eqb c Chars.nl)) junk → at_eol tail →
  after_line (junk +:+ tail) = after_eol tail.
Proof.
  intros Hj Ht. rewrite LaxFacts.after_line_app.
  - destruct tail as [|x rest]; [done|]. simpl in Ht. subst x. done.
  - eapply FileFacts.all_chars_impl; [|exact Hj].
    intros c Hc ->. done.
Qed.

(** A comment, where [laxcomment] finds one, ends with its line. *)
Lemma laxcomment_after (s d : string) :
  trimRegex s laxcomment = Some d → d = after_line s.
Proof.
  unfold trimRegex. rewrite TrimFacts.trim_match_here by exact I.
  destruct (match_here laxcomment None s) as [[rest cps]|] eqn:Hm; [|done].
  intros [= <-]. unfold match_here, laxcomment, hspace, not_nl in Hm.
  rewrite StarFacts.rmatch_seq, StarFacts.rmatch_bot, StarFacts.rmatch_seq in Hm.
  apply (ReFacts.rmatch_inv (λ c, c ≠ Chars.nl)) in Hm;
    [|by intros a Ha ->].
  destruct Hm as (m1 & p1 & s1 & c1 & -> & Hk & H1 & _).
  rewrite StarFacts.rmatch_seq in Hk.
  apply (ReFacts.rmatch_inv (λ c, c ≠ Chars.nl)) in Hk; [|done].
  destruct Hk as (m2 & p2 & s2 & c2 & -> & Hk & H2 & _).
  rewrite StarFacts.rmatch_seq in Hk.
  apply (ReFacts.rmatch_inv (λ c, c ≠ Chars.nl)) in Hk;
    [|by intros a Ha ->].
  destruct Hk as (m3 & p3 & s3 & c3 & -> & Hk & H3 & _).
  rewrite !LaxFacts.after_line_app by done.
  unfold eol in Hk. cbn [rmatch] in Hk.
  destruct s3 as [|x t]; [by injection Hk as <-|].
  destruct (Ascii.eqb_spec x Chars.nl) as [->|]; [|done].
  by injection Hk as <-.
Qed.

(** What follows a quoted value is dropped up to the end of its line. *)
Lemma after_quoted (junk tail : string) :
  within (λ c, negb (Ascii.eqb c Chars.nl)) junk → at_eol tail →
  match trimRegex (junk +:+ tail) laxcomment with
  | Some d => d
  | None => trimmed (junk +:+ tail) laxdiscard
  end = after_eol tail.
Proof.
  intros Hj Ht. rewrite <- (after_line_eol junk tail Hj Ht).
  destruct (trimRegex _ laxcomment) as [d|] eqn:Hd.
  - by apply laxcomment_after.
  - apply StarFacts.trimmed_laxdiscard.
Qed.

(** A value without quotes. *)
Lemma lax_value_plain (v tail : string) :
  within (λ c, negb (Ascii.eqb c Chars.nl)) v → Str.TrimSpace v = v →
  stops (Ascii.eqb Chars.squote) v → stops (Ascii.eqb Chars.dquote) v →
  has_char "#" v = false → at_eol tail →
  lax_value (v +:+ tail) = inr (v, true, after_eol tail).
Proof.
  intros Hv Htrim Hsq Hdq Hhash Htail. unfold lax_value.
  rewrite QuoteFacts.trim_laxqstart.
  assert (Hq : match v +:+ tail with
               | String b rest =>
                   if Ascii.eqb b Chars.squote || Ascii.eqb b Chars.dquote
                   then Some (rest, [String b ""; String b ""]) else None
               | "" => None
               end = None).
  { destruct v as [|b v].
    - rewrite str_app_nil_l. destruct tail as [|x rest]; [done|].
      simpl in Htail. subst x. done.
    - rewrite str_app_cons.
      change (Ascii.eqb Chars.squote b = false) in Hsq.
      change (Ascii.eqb Chars.dquote b = false) in Hdq.
      by rewrite (Ascii.eqb_sym b Chars.squote), Hsq, (Ascii.eqb_sym b Chars.dquote), Hdq. }
  rewrite Hq. destruct (laxdiscard_match v tail Hv Htail) as [whole ->].
  cbn [nth]. rewrite Htrim, (laxtrailer_none v Hhash). done.
Qed.

Section Quoted.
Variable q : ascii.
Hypothesis q_not_backslash : q ≠ Chars.backslash.

Lemma star_quote_text {A} (K : @cont A) (t : string) (x : A) (c : caps) :
  (∀ prev', K prev' (String q t) c = Some x) →
  ∀ n body prev, (String.length (body +:+ String q t) < n)%nat →
  quote_text q body = true →
  star_loop (rmatch (quote_body q)) true K n prev (body +:+ String q t) c = Some x.
Proof.
  intros HK. induction n as [|n IH]; intros body prev Hn Hbody; [lia|].
  cbn [star_loop]. rewrite (QuoteFacts.body_eq q q_not_backslash).
  destruct body as [|b body].
  - rewrite str_app_nil_l. by rewrite Ascii.eqb_refl, HK.
  - rewrite str_app_cons in *. cbn [quote_text] in Hbody. cbn [String.length] in Hn.
    destruct (Ascii.eqb b q); [done|].
    destruct (Ascii.eqb b Chars.backslash).
    + destruct body as [|d body]; [done|]. rewrite str_app_cons in *.
      cbn [String.length] in *.
      assert ((String.length (body +:+ String q t)
               <? S (S (String.length (body +:+ String q t))))%nat = true) as ->
        by (apply Nat.ltb_lt; lia).
      by rewrite IH by (done || lia).
    + rewrite StarFacts.ltb_tail.
      by rewrite IH by (done || lia).
Qed.

(** The text between the quotes. *)
Lemma quoted_match (body t : string) :
  quote_text q body = true →
  ∃ whole, trimRegexMatches (body +:+ String q t) (quoted q) = Some (t, [whole; body]).
Proof.
  intros Hbody. rewrite TrimFacts.trim_match_here by exact I.
  assert (match_here (quoted q) None (body +:+ String q t)
          = Some (t, [(1, body)])) as ->; [|by eexists].
  unfold match_here, quoted.
  rewrite StarFacts.rmatch_seq, StarFacts.rmatch_bot, StarFacts.rmatch_seq,
    StarFacts.rmatch_grp, StarFacts.rmatch_star.
  apply (star_quote_text _ t); [|lia|done].
  intros prev'. by rewrite rmatch_chr, consumed_app.
Qed.
End Quoted.

(** A quoted value. *)
Lemma lax_value_quoted (single : bool) (body junk tail : string) :
  quote_text (quote_char single) body = true →
  within (λ c, negb (Ascii.eqb c Chars.nl)) junk → at_eol tail →
  lax_value (String (quote_char single)
               (body +:+ String (quote_char single) (junk +:+ tail)))
  = inr (if single then laxparsesq body else laxparsedq body, negb single,
         after_eol tail).
Proof.
  intros Hbody Hjunk Htail. unfold lax_value, quote_char in *.
  rewrite QuoteFacts.trim_laxqstart.
  destruct single; simpl orb; cbv iota; cbn [nth String.eqb Ascii.eqb Bool.eqb negb].
  - destruct (quoted_match Chars.squote ltac:(done) body (junk +:+ tail) Hbody)
      as [whole Hq].
    change (Ascii.eqb Chars.squote "'") with true. cbv iota.
    unfold laxsingleq. rewrite Hq. cbn [nth].
    by rewrite after_quoted.
  - destruct (quoted_match Chars.dquote ltac:(done) body (junk +:+ tail) Hbody)
      as [whole Hq].
    change (Ascii.eqb Chars.dquote "'") with false. cbv iota.
    unfold laxdoubleq. rewrite Hq. cbn [nth].
    by rewrite after_quoted.
Qed.

End ValueFacts.

(** ** The lines the lax parser reads *)

Module LaxLines.
Import Re Dotenv Notions MoreNotions.
Import StrFacts MatchFacts LineFacts ValueFacts.

Lemma hspace_not_word (c : ascii) : Chars.is_hspace c = true → Chars.is_word c = false.
Proof. destruct c as [[] [] [] [] [] [] [] []]; vm_compute; done. Qed.

Lemma name_char_stops (b : ascii) (t : string) :
  name_char b = true →
  stops Chars.is_hspace (String b t) ∧ stops (Ascii.eqb "#") (String b t) ∧
  stops (Ascii.eqb Chars.nl) (String b t).
Proof.
  intros Hb. simpl. split; [by apply name_not_hspace|].
  revert Hb. destruct b as [[] [] [] [] [] [] [] []]; vm_compute; done.
Qed.

(** The name after [export]. *)
Lemma laxID_export (ws0 ws n t1 : string) :
  within Chars.is_hspace ws0 → ws ≠ "" → within Chars.is_hspace ws →
  n ≠ "" → within name_char n → stops name_char t1 →
  trimRegexMatches (ws0 +:+ "export" +:+ ws +:+ n +:+ t1) laxID
  = Some (t1, [ws0 +:+ "export" +:+ ws +:+ n; n]).
Proof.
  intros Hws0 Hne Hws Hn0 Hn Ht1.
  rewrite TrimFacts.trim_match_here by exact I.
  assert (HK : ∀ prev1 c, rmatch (Star true hspace <+> Grp 1 (Plus (Cls name_char)))%re
                            prev1 (ws +:+ n +:+ t1) c (λ _ s' c', Some (s', c'))
                          = Some (t1, (1, n) :: c)).
  { intros prev1 c. rewrite StarFacts.rmatch_seq. unfold hspace.
    apply star_run; [done| |].
    - destruct n as [|b n]; [done|]. rewrite str_app_cons. simpl.
      destruct Hn as [Hb _]. by apply name_not_hspace.
    - intros prev2. rewrite StarFacts.rmatch_grp. unfold Plus.
      rewrite StarFacts.rmatch_seq.
      destruct n as [|b n]; [done|]. destruct Hn as [Hb Hn].
      rewrite str_app_cons, rmatch_cls by done.
      apply star_run; [done|done|]. intros prev3.
      by rewrite <- str_app_cons, consumed_app. }
  assert (match_here laxID None (ws0 +:+ "export" +:+ ws +:+ n +:+ t1)
          = Some (t1, [(1, n)])) as ->.
  { unfold match_here, laxID, Opt.
    rewrite StarFacts.rmatch_seq, StarFacts.rmatch_bot, StarFacts.rmatch_seq, rmatch_alt.
    assert (rmatch (Star true hspace <+> Lit "export" <+> WordB)%re None
              (ws0 +:+ "export" +:+ ws +:+ n +:+ t1) []
              (λ p' s' c', rmatch (Star true hspace <+> Grp 1 (Plus (Cls name_char)))%re
                             p' s' c' (λ _ s'' c'', Some (s'', c'')))
            = Some (t1, [(1, n)])) as ->; [|done].
    rewrite StarFacts.rmatch_seq. unfold hspace at 1.
    apply star_run; [done|done|]. intros prev1.
    rewrite StarFacts.rmatch_seq.
    change (Lit "export")
      with (Chr "e" <+> Chr "x" <+> Chr "p" <+> Chr "o" <+> Chr "r" <+> Chr "t" <+> Eps)%re.
    change ("export" +:+ ws +:+ n +:+ t1)
      with (String "e" (String "x" (String "p" (String "o" (String "r"
              (String "t" (ws +:+ n +:+ t1))))))).
    do 6 (rewrite StarFacts.rmatch_seq, rmatch_chr).
    rewrite rmatch_eps, rmatch_wordb.
    destruct ws as [|x ws]; [done|]. destruct Hws as [Hx _].
    rewrite str_app_cons. unfold at_word_boundary.
    rewrite (hspace_not_word x Hx). simpl xorb. cbv iota.
    rewrite <- str_app_cons. apply HK. }
  unfold submatches. simpl fst. simpl snd.
  assert (ngroups laxID = 1) as -> by done. cbn [seq map group Nat.eqb].
  assert (ws0 +:+ "export" +:+ ws +:+ n +:+ t1
          = (ws0 +:+ "export" +:+ ws +:+ n) +:+ t1) as ->
    by by rewrite !str_app_assoc.
  by rewrite consumed_app.
Qed.

Lemma hspace_stops_name (ws t : string) :
  within Chars.is_hspace ws → stops name_char t → stops name_char (ws +:+ t).
Proof.
  destruct ws as [|b ws]; [by rewrite str_app_nil_l|].
  intros [Hb _] _. rewrite str_app_cons. simpl. by apply hspace_not_name.
Qed.

(** The start of a line that names [n]. *)
Lemma head_step (head n t1 : string) :
  name_head head n → stops name_char t1 →
  trimRegex (head +:+ t1) laxcomment = None ∧
  trimRegex (head +:+ t1) laxempty = None ∧
  ∃ whole, trimRegexMatches (head +:+ t1) laxID = Some (t1, [whole; n]).
Proof.
  intros (Hne & Hn & ws0 & Hws0 & [[-> Hpre]|(ws & Hws1 & Hws & ->)]) Ht1.
  - rewrite !str_app_assoc.
    destruct n as [|b n'] eqn:En; [done|]. rewrite <- En in *.
    assert (Hb : name_char b = true) by (rewrite En in Hn; by destruct Hn).
    assert (Hstops : stops Chars.is_hspace (n +:+ t1) ∧ stops (Ascii.eqb "#") (n +:+ t1)
                     ∧ stops (Ascii.eqb Chars.nl) (n +:+ t1)).
    { rewrite En, str_app_cons. by apply name_char_stops. }
    destruct Hstops as (H1 & H2 & H3).
    split; [by apply laxcomment_none|]. split.
    + apply laxempty_none; [done..|]. rewrite En, str_app_cons. done.
    + eexists. by apply laxID_match.
  - rewrite !str_app_assoc.
    change ("export" +:+ ws +:+ n +:+ t1)
      with (String "e" ("xport" +:+ ws +:+ n +:+ t1)).
    split; [by apply laxcomment_none|]. split; [by apply laxempty_none|].
    eexists. by apply (laxID_export ws0 ws n t1).
Qed.

(** A line with a name, an equals sign and a value. *)
Lemma lax_step_assign (head n ws1 ws2 value : string) :
  name_head head n → within Chars.is_hspace ws1 → within Chars.is_hspace ws2 →
  stops Chars.is_hspace value →
  lax_step (head +:+ ws1 +:+ String "=" (ws2 +:+ value))
  = match lax_value value with
    | inl e => LaxErr e
    | inr (v, allow, d) => LaxVar (mk_envvar n v allow false) d
    end.
Proof.
  intros Hhead Hws1 Hws2 Hvalue. unfold lax_step.
  destruct (head_step head n (ws1 +:+ String "=" (ws2 +:+ value)) Hhead)
    as (-> & -> & whole & ->).
  { by apply hspace_stops_name. }
  cbn [nth].
  rewrite laxcomment_none, laxempty_none, laxequals_match by done.
  done.
Qed.

Lemma plain_stops (v tail : string) :
  stops Chars.is_trim_space v → at_eol tail → stops Chars.is_hspace (v +:+ tail).
Proof.
  intros Hv Ht. destruct v as [|b v].
  - rewrite str_app_nil_l. destruct tail as [|x t]; [done|]. simpl in *. by subst x.
  - rewrite str_app_cons. simpl in *.
    unfold Chars.is_trim_space in Hv. apply orb_false_iff in Hv as [Hv _].
    unfold Chars.is_hspace. by rewrite Hv.
Qed.

Section Loop.
Variable fl : flags.

Lemma lax_loop_var (fuel : nat) (data0 : string) (v : envvar) (d : string)
  (vars : list envvar) (log : list event) :
  lax_step data0 = LaxVar v d →
  lax_loop fl (S fuel) data0 vars log
  = match data0 with
    | "" => (log, inr vars)
    | _ => lax_loop fl fuel d (vars ++ [v]) log
    end.
Proof. intros H. destruct data0 as [|b s]; [done|]. cbn [lax_loop]. by rewrite H. Qed.

Lemma lax_loop_skip (fuel : nat) (data0 : string) (d : string)
  (vars : list envvar) (log : list event) :
  lax_step data0 = LaxSkip d →
  lax_loop fl (S fuel) data0 vars log
  = match data0 with
    | "" => (log, inr vars)
    | _ => lax_loop fl fuel d vars log
    end.
Proof. intros H. destruct data0 as [|b s]; [done|]. cbn [lax_loop]. by rewrite H. Qed.
End Loop.

Lemma head_not_empty (head n t : string) : name_head head n → head +:+ t ≠ "".
Proof.
  intros (Hne & _ & ws0 & _ & [[-> _]|(ws & _ & _ & ->)]) H.
  - rewrite str_app_assoc in H. apply str_app_eq_nil in H as [_ H].
    by apply str_app_eq_nil in H as [? _].
  - rewrite str_app_assoc in H. by apply str_app_eq_nil in H as [_ H].
Qed.

(** X21.  A line with a plain value.  Let a buffer begin with a name (after
    white space, or after [export] and white space), an equals sign with
    white space around it, and a value [v] up to the end of the line, where
    [v] holds no newline and no hash, is left as it is by
    [strings.TrimSpace] (it neither begins nor ends with white space, that
    of Unicode included), and does not begin with a quote.  Then one
    iteration of [parseLax] returns the assignment of [v] to the name, open
    to interpolation, and goes on after the line. *)
Theorem lax_plain_line (fl : flags) (head n ws1 ws2 v tail : string)
  (fuel : nat) (vars : list envvar) (log : list event) :
  name_head head n → within Chars.is_hspace ws1 → within Chars.is_hspace ws2 →
  within (λ c, negb (Ascii.eqb c Chars.nl)) v → Str.TrimSpace v = v →
  stops (Ascii.eqb Chars.squote) v → stops (Ascii.eqb Chars.dquote) v →
  has_char "#" v = false → at_eol tail →
  lax_step (head +:+ ws1 +:+ String "=" (ws2 +:+ v +:+ tail))
    = LaxVar (mk_envvar n v true false) (after_eol tail) ∧
  lax_loop fl (S fuel) (head +:+ ws1 +:+ String "=" (ws2 +:+ v +:+ tail)) vars log
    = lax_loop fl fuel (after_eol tail) (vars ++ [mk_envvar n v true false]) log.
Proof.
  intros Hhead Hws1 Hws2 Hv Htrim Hsq Hdq Hhash Htail.
  assert (Hstep : lax_step (head +:+ ws1 +:+ String "=" (ws2 +:+ v +:+ tail))
                  = LaxVar (mk_envvar n v true false) (after_eol tail)).
  { rewrite (lax_step_assign head n)
      by (done || (apply plain_stops; [by apply TrimSpace_id_stops | done])).
    by rewrite lax_value_plain. }
  split; [done|]. rewrite (lax_loop_var fl _ _ _ _ _ _ Hstep).
  pose proof (head_not_empty head n (ws1 +:+ String "=" (ws2 +:+ v +:+ tail)) Hhead).
  by destruct (head +:+ _).
Qed.

(** X22.  A line with a quoted value.  Let a buffer begin with a name, an
    equals sign with white space around it, a quote, a text in which every
    quote of that kind and every backslash is escaped, the closing quote,
    and anything up to the end of the line.  Then one iteration of
    [parseLax] returns the assignment of the text with its escapes decoded,
    open to interpolation when the quotes are double and closed to it when
    they are single, drops what follows the closing quote on the line, and
    goes on after the line. *)
Theorem lax_quoted_line (fl : flags) (single : bool)
  (head n ws1 ws2 body junk tail : string)
  (fuel : nat) (vars : list envvar) (log : list event) :
  name_head head n → within Chars.is_hspace ws1 → within Chars.is_hspace ws2 →
  quote_text (quote_char single) body = true →
  within (λ c, negb (Ascii.eqb c Chars.nl)) junk → at_eol tail →
  lax_step (head +:+ ws1 +:+ String "=" (ws2 +:+ String (quote_char single)
              (body +:+ String (quote_char single) (junk +:+ tail))))
    = LaxVar (mk_envvar n (if single then laxparsesq body else laxparsedq body)
                (negb single) false) (after_eol tail) ∧
  lax_loop fl (S fuel)
      (head +:+ ws1 +:+ String "=" (ws2 +:+ String (quote_char single)
              (body +:+ String (quote_char single) (junk +:+ tail)))) vars log
    = lax_loop fl fuel (after_eol tail)
        (vars ++ [mk_envvar n (if single then laxparsesq body else laxparsedq body)
                    (negb single) false]) log.
Proof.
  intros Hhead Hws1 Hws2 Hbody Hjunk Htail.
  assert (Hstep : lax_step (head +:+ ws1 +:+ String "=" (ws2 +:+ String (quote_char single)
              (body +:+ String (quote_char single) (junk +:+ tail))))
    = LaxVar (mk_envvar n (if single then laxparsesq body else laxparsedq body)
                (negb single) false) (after_eol tail)).
  { rewrite (lax_step_assign head n); [|done..|by destruct single].
    by rewrite lax_value_quoted. }
  split; [done|]. rewrite (lax_loop_var fl _ _ _ _ _ _ Hstep).
  pose proof (head_not_empty head n (ws1 +:+ String "=" (ws2 +:+ String (quote_char single)
              (body +:+ String (quote_char single) (junk +:+ tail)))) Hhead).
  by destruct (head +:+ _).
Qed.

(** X23.  [parseLax] passes over a comment line (white space, a hash, any
    text up to the end of the line) and over a blank line (white space up
    to the end of the line): the assignments and the log are as before, and
    the loop goes on after the line. *)
Theorem lax_skips_comments_and_blanks (fl : flags) (ws text tail : string)
  (fuel : nat) (vars : list envvar) (log : list event) :
  within Chars.is_hspace ws → within (λ c, negb (Ascii.eqb c Chars.nl)) text →
  at_eol tail →
  lax_loop fl (S fuel) (ws +:+ String "#" (text +:+ tail)) vars log
    = lax_loop fl fuel (after_eol tail) vars log ∧
  (ws +:+ tail ≠ "" →
   lax_loop fl (S fuel) (ws +:+ tail) vars log
     = lax_loop fl fuel (after_eol tail) vars log).
Proof.
  intros Hws Htext Htail. split.
  - assert (Hstep : lax_step (ws +:+ String "#" (text +:+ tail)) = LaxSkip (after_eol tail)).
    { unfold lax_step. by rewrite laxcomment_here. }
    rewrite (lax_loop_skip fl _ _ _ _ _ Hstep).
    destruct (ws +:+ String "#" (text +:+ tail)) eqn:E; [|done].
    by apply str_app_eq_nil in E as [_ ?].
  - intros Hne.
    assert (Hstep : lax_step (ws +:+ tail) = LaxSkip (after_eol tail)).
    { unfold lax_step. rewrite laxcomment_none, laxempty_match; try done.
      - destruct tail as [|x t]; [done|]. simpl in *. by subst x.
      - destruct tail as [|x t]; [done|]. simpl in *. by subst x. }
    rewrite (lax_loop_skip fl _ _ _ _ _ Hstep). by destruct (ws +:+ tail).
Qed.

Lemma lax_plain_line_witness :
  lax_step MoreSamples.export_line
    = LaxVar Samples.var_A ("B=bar" +:+ Samples.NL) ∧
  lax_loop Samples.fl0 (S 9) MoreSamples.export_line [] []
    = lax_loop Samples.fl0 9 ("B=bar" +:+ Samples.NL) ([] ++ [Samples.var_A]) [].
Proof.
  apply (lax_plain_line Samples.fl0 "export A" "A" " " " " "foo"
           (Samples.NL +:+ "B=bar" +:+ Samples.NL) 9 [] []).
  - split; [done|]. split; [by split|]. exists "". split; [done|].
    right. exists " ". by repeat split.
  - by split.
  - by split.
  - by repeat split.
  - reflexivity.
  - reflexivity.
  - reflexivity.
  - reflexivity.
  - reflexivity.
Defined.

Lemma lax_quoted_line_witness :
  lax_step MoreSamples.quoted_line
    = LaxVar (mk_envvar "B" (laxparsedq "${A}bar") true false) "" ∧
  lax_loop Samples.fl0 (S 0) MoreSamples.quoted_line [Samples.var_A] []
    = lax_loop Samples.fl0 0 ""
        ([Samples.var_A] ++ [mk_envvar "B" (laxparsedq "${A}bar") true false]) [].
Proof.
  apply (lax_quoted_line Samples.fl0 false "B" "B" "" "" "${A}bar" " # note"
           Samples.NL 0 [Samples.var_A] []).
  - split; [done|]. split; [by split|]. exists "". split; [done|]. by left.
  - done.
  - done.
  - reflexivity.
  - by repeat split.
  - reflexivity.
Defined.

Lemma lax_skips_comments_and_blanks_witness :
  lax_loop Samples.fl0 (S 3) MoreSamples.noted [] []
    = lax_loop Samples.fl0 3 "A=1" [] [] ∧
  lax_loop Samples.fl0 (S 3) (" " +:+ Samples.NL +:+ "A=1") [] []
    = lax_loop Samples.fl0 3 "A=1" [] [].
Proof.
  destruct (lax_skips_comments_and_blanks Samples.fl0 " " " note"
              (Samples.NL +:+ "A=1") 3 [] []) as [H1 H2].
  - by split.
  - by repeat split.
  - reflexivity.
  - split; [exact H1|]. apply H2. discriminate.
Defined.

End LaxLines.

(** ** The dumping modes *)

Module DumpFacts.
Import Re Dotenv Notions MoreNotions.
Import StrFacts.

Lemma ascii_compare_N (a b : ascii) :
  Ascii.compare a b = (N_of_ascii a ?= N_of_ascii b)%N.
Proof. reflexivity. Qed.

Lemma string_leb_trans (a : string) :
  ∀ b c, String.leb a b = true → String.leb b c = true → String.leb a c = true.
Proof.
  unfold String.leb.
  induction a as [|x a IH]; intros [|y b] [|z c]; simpl; try done.
  rewrite !ascii_compare_N.
  destruct (N.compare_spec (N_of_ascii x) (N_of_ascii y)) as [Hxy|Hxy|Hxy];
    destruct (N.compare_spec (N_of_ascii y) (N_of_ascii z)) as [Hyz|Hyz|Hyz];
    try done.
  - rewrite Hxy, Hyz, N.compare_refl. apply IH.
  - intros _ _. rewrite Hxy. by apply N.compare_lt_iff in Hyz as ->.
  - intros _ _. rewrite <- Hyz. by apply N.compare_lt_iff in Hxy as ->.
  - intros _ _.
    assert (N_of_ascii x < N_of_ascii z)%N as ->%N.compare_lt_iff by lia. done.
Qed.

Lemma ltb_leb (a b : string) : String.ltb a b = true → String.leb a b = true.
Proof. unfold String.ltb, String.leb. by destruct (String.compare a b). Qed.

Lemma not_ltb_leb (a b : string) : String.ltb a b = false → String.leb b a = true.
Proof.
  unfold String.ltb, String.leb. rewrite (String.compare_antisym a b).
  by destruct (String.compare b a).
Qed.

Lemma insert_string_perm (x : string) (l : list string) :
  Output.insert_string x l ≡ₚ x :: l.
Proof.
  induction l as [|y l IH]; [done|]. simpl.
  destruct (String.ltb y x); [|done]. rewrite IH. apply perm_swap.
Qed.

Lemma SortStrings_perm (l : list string) : Output.SortStrings l ≡ₚ l.
Proof.
  induction l as [|x l IH]; [done|]. simpl.
  by rewrite insert_string_perm, IH.
Qed.

Lemma insert_string_sorted (x : string) (l : list string) :
  StronglySorted (λ a b, String.leb a b = true) l →
  StronglySorted (λ a b, String.leb a b = true) (Output.insert_string x l).
Proof.
  induction 1 as [|y l Hl IH Hy]; simpl; [by repeat constructor|].
  destruct (String.ltb y x) eqn:Hyx.
  - constructor; [done|]. rewrite insert_string_perm.
    constructor; [by apply ltb_leb | done].
  - apply not_ltb_leb in Hyx. constructor; [by constructor|].
    constructor; [done|]. eapply Forall_impl; [exact Hy|].
    intros z Hz. by eapply string_leb_trans.
Qed.

Lemma SortStrings_sorted (l : list string) :
  StronglySorted (λ a b, String.leb a b = true) (Output.SortStrings l).
Proof.
  induction l as [|x l IH]; [constructor|]. simpl. by apply insert_string_sorted.
Qed.

Lemma byname_snoc (l : list envvar) (x : envvar) :
  foldl (λ (m : gmap string envvar) v, <[name v := v]> m) ∅ (l ++ [x])
  = <[name x := x]> (foldl (λ (m : gmap string envvar) v, <[name v := v]> m) ∅ l).
Proof. by rewrite foldl_snoc. Qed.

Lemma byname_lookup (l : list envvar) (v : envvar) :
  NoDup (map name l) → v ∈ l →
  foldl (λ (m : gmap string envvar) u, <[name u := u]> m) ∅ l !! name v = Some v.
Proof.
  induction l as [|x l IH] using rev_ind; intros Hnd Hv; [by apply elem_of_nil in Hv|].
  rewrite byname_snoc. rewrite map_app in Hnd. simpl in Hnd.
  apply NoDup_app in Hnd as (Hnd & Hx & _).
  apply elem_of_app in Hv as [Hv|Hv%list_elem_of_singleton].
  - rewrite lookup_insert_ne; [by apply IH|].
    intros Heq. apply (Hx (name v)); [|rewrite Heq; left].
    change (map name l) with (name <$> l). by apply list_elem_of_fmap_2.
  - subst v. by rewrite lookup_insert_eq.
Qed.

Lemma find_named (l : list envvar) (v : envvar) :
  NoDup (map name l) → v ∈ l → find (λ u, String.eqb (name u) (name v)) l = Some v.
Proof.
  intros Hnd Hv.
  pose proof (MergeFacts.find_name_unique (λ _, True) (name v) l v Hnd Hv eq_refl) as H.
  assert (Hf : filter (λ _ : envvar, True) l = l).
  { clear. induction l as [|x l IH]; [done|]. by rewrite filter_cons_True, IH. }
  by rewrite Hf in H.
Qed.

Lemma sort_dump_names (l : list envvar) :
  NoDup (map name l) →
  Output.sort_dump l
  = map (λ n, default (mk_envvar "" "" false false)
                (find (λ v, String.eqb (name v) n) l))
        (Output.SortStrings (map name l)).
Proof.
  intros Hnd. unfold Output.sort_dump. apply map_ext_in. intros n Hn.
  apply list_elem_of_In in Hn. rewrite SortStrings_perm in Hn.
  change (n ∈ name <$> l) in Hn. apply list_elem_of_fmap in Hn as (v & -> & Hv).
  by rewrite (byname_lookup l v Hnd Hv), (find_named l v Hnd Hv).
Qed.

Lemma sort_dump_perm (l : list envvar) :
  NoDup (map name l) →
  Output.sort_dump l ≡ₚ l ∧ map name (Output.sort_dump l) = Output.SortStrings (map name l).
Proof.
  intros Hnd. rewrite (sort_dump_names l Hnd).
  set (g := λ n, default (mk_envvar "" "" false false)
                   (find (λ v, String.eqb (name v) n) l)).
  assert (Hg : ∀ v, v ∈ l → g (name v) = v).
  { intros v Hv. unfold g. by rewrite (find_named l v Hnd Hv). }
  split.
  - assert (Hid : map g (map name l) = l).
    { rewrite map_map. rewrite <- (map_id l) at 2. apply map_ext_in.
      intros v Hv%list_elem_of_In. by apply Hg. }
    change (map g) with (fmap (M:=list) g). rewrite SortStrings_perm.
    change (map g (map name l) ≡ₚ l). by rewrite Hid.
  - rewrite map_map. rewrite <- (map_id (Output.SortStrings (map name l))) at 2.
    apply map_ext_in. intros n Hn. apply list_elem_of_In in Hn.
    rewrite SortStrings_perm in Hn. change (n ∈ name <$> l) in Hn.
    apply list_elem_of_fmap in Hn as (v & -> & Hv). by rewrite Hg.
Qed.

Lemma sorted_by_name (l : list envvar) :
  StronglySorted (λ a b, String.leb a b = true) (map name l) →
  StronglySorted by_name l.
Proof.
  induction l as [|x l IH]; simpl; [constructor|].
  intros [Hl Hx]%StronglySorted_inv. constructor; [by apply IH|].
  apply Forall_forall. intros y Hy. rewrite Forall_forall in Hx. apply Hx.
  change (name y ∈ name <$> l). by apply list_elem_of_fmap_2.
Qed.

Lemma sort_dump_one (v : envvar) : Output.sort_dump [v] = [v].
Proof. unfold Output.sort_dump. simpl. by rewrite lookup_insert_eq. Qed.

Lemma filter_unnamed (l : list envvar) (key : string) :
  key ∉ map name l → filter (λ u, name u = key) l = [].
Proof.
  induction l as [|x l IH]; intros Hk; [done|].
  rewrite filter_cons_False; [apply IH|].
  - intros Hin. apply Hk. by right.
  - intros Hx. apply Hk. rewrite <- Hx. left.
Qed.

Lemma filter_named (l : list envvar) (v : envvar) :
  NoDup (map name l) → v ∈ l → filter (λ u, name u = name v) l = [v].
Proof.
  induction l as [|x l IH]; intros Hnd Hv; [by apply elem_of_nil in Hv|].
  simpl in Hnd. apply NoDup_cons in Hnd as [Hx Hnd].
  assert (Hmem : ∀ y, y ∈ l → name y ∈ map name l).
  { intros y Hy. change (map name l) with (name <$> l). by apply list_elem_of_fmap_2. }
  rewrite filter_cons. apply elem_of_cons in Hv as [->|Hv].
  - rewrite decide_True by done. f_equal. by apply filter_unnamed.
  - rewrite decide_False; [by apply IH|].
    intros Heq. apply Hx. rewrite Heq. by apply Hmem.
Qed.

Lemma print_one_value (base64 : string → string) (v : envvar) :
  Output.print_vars base64 Cli.values Cli.textoutput [v] = val v +:+ String Chars.nl "".
Proof.
  unfold Output.print_vars, Output.print_var. simpl. by rewrite str_app_nil_r.
Qed.

(** The lines of a text that begins with a line and its newline. *)
Lemma raw_lines_line (line rest : string) :
  within (λ c, negb (Ascii.eqb c Chars.nl)) line →
  Str.raw_lines (line +:+ String Chars.nl rest) = line :: Str.raw_lines rest.
Proof.
  induction line as [|c line IH]; intros Hl.
  - by rewrite str_app_nil_l.
  - destruct Hl as [Hc Hl]. rewrite str_app_cons. simpl.
    apply negb_true_iff in Hc. rewrite Hc. by rewrite IH.
Qed.

Lemma rev_onto_app (a : string) :
  ∀ b acc, Str.rev_onto (a +:+ b) acc = Str.rev_onto b (Str.rev_onto a acc).
Proof.
  induction a as [|c a IH]; intros b acc; [by rewrite str_app_nil_l|].
  rewrite str_app_cons. simpl. apply IH.
Qed.

Lemma rev_onto_acc (a : string) :
  ∀ acc, Str.rev_onto a acc = Str.rev a +:+ acc.
Proof.
  unfold Str.rev. induction a as [|c a IH]; intros acc; [by rewrite str_app_nil_l|].
  simpl. rewrite IH, (IH (String c "")). by rewrite str_app_assoc.
Qed.

Lemma rev_app (a b : string) : Str.rev (a +:+ b) = Str.rev b +:+ Str.rev a.
Proof. unfold Str.rev at 1. by rewrite rev_onto_app, rev_onto_acc. Qed.

Lemma drop_cr_line (n value : string) :
  stops (Ascii.eqb Chars.cr) (Str.rev value) →
  Str.drop_cr (n +:+ String "=" value) = n +:+ String "=" value.
Proof.
  intros Hv. unfold Str.drop_cr.
  rewrite rev_app. change (String "=" value) with (String "=" "" +:+ value) at 1.
  rewrite rev_app. destruct (Str.rev value) as [|c r]; simpl.
  - done.
  - change (Ascii.eqb Chars.cr c = false) in Hv. by rewrite Ascii.eqb_sym, Hv.
Qed.

Lemma comment_none (b : ascii) (s : string) :
  Chars.is_space b = false → Ascii.eqb "#" b = false →
  MatchString comment (String b s) = false.
Proof.
  intros Hb Hh. apply not_true_is_false.
  rewrite FileFacts.match_string_here by exact I. intros [res H].
  unfold match_here, comment in H.
  rewrite StarFacts.rmatch_seq, StarFacts.rmatch_bot, StarFacts.rmatch_seq in H.
  rewrite MatchFacts.star_stuck in H by done.
  by rewrite MatchFacts.rmatch_chr_stop in H.
Qed.

Lemma nonstrict_match (n rest : string) :
  n ≠ "" → within not_space_eq n →
  MatchString nonstrict (n +:+ String "=" rest) = true.
Proof.
  intros Hne Hn. destruct n as [|b t]; [done|]. destruct Hn as [Hb Ht].
  rewrite FileFacts.match_string_here by exact I.
  unfold match_here, nonstrict, Plus.
  rewrite StarFacts.rmatch_seq, StarFacts.rmatch_bot, !StarFacts.rmatch_seq.
  rewrite str_app_cons, MatchFacts.rmatch_cls by done.
  erewrite MatchFacts.star_run; [done|exact Ht|done|].
  intros prev'. by rewrite MatchFacts.rmatch_chr.
Qed.

Lemma dumpable_line (v : envvar) :
  dumpable v →
  Str.drop_cr (name v +:+ String "=" (val v)) = name v +:+ String "=" (val v) ∧
  MatchString comment (name v +:+ String "=" (val v)) = false ∧
  MatchString nonstrict (name v +:+ String "=" (val v)) = true ∧
  parsevar (name v +:+ String "=" (val v)) = mk_envvar (name v) (val v) false false.
Proof.
  intros (Hne & Hn & Hh & Hv & Hcr & _).
  split; [by apply drop_cr_line|]. split; [|split].
  - destruct (name v) as [|b t]; [done|]. rewrite str_app_cons.
    destruct Hn as [Hb _]. apply comment_none; [|done].
    unfold not_space_eq in Hb. apply negb_true_iff, orb_false_iff in Hb. tauto.
  - by apply nonstrict_match.
  - by apply FileFacts.parsevar_line.
Qed.

Lemma print_dump_cons (base64 : string → string) (v : envvar) (l : list envvar) :
  Output.print_vars base64 Cli.dump Cli.textoutput (v :: l)
  = (name v +:+ String "=" (val v)) +:+ String Chars.nl
      (Output.print_vars base64 Cli.dump Cli.textoutput l).
Proof.
  unfold Output.print_vars, Output.print_var. simpl.
  rewrite !str_app_assoc. by rewrite !str_app_cons, !str_app_nil_l.
Qed.

Lemma read_back (base64 : string → string) (vars : list envvar) :
  Forall dumpable vars →
  flat_map (λ line, if MatchString comment line then []
                    else if MatchString nonstrict line then [parsevar line] else [])
           (Str.scan_lines (Output.print_vars base64 Cli.dump Cli.textoutput vars))
  = map (λ v, mk_envvar (name v) (val v) false false) vars.
Proof.
  induction 1 as [|v l Hv Hl IH]; [done|].
  rewrite print_dump_cons.
  destruct (dumpable_line v Hv) as (Hcr & Hc & Hm & Hp).
  unfold Str.scan_lines in *. rewrite raw_lines_line.
  - destruct Hv as (_ & _ & _ & _ & _ & Hshort). apply N.ltb_lt in Hshort.
    cbn [Str.scanned]. rewrite Hshort. simpl. by rewrite Hcr, Hc, Hm, Hp, IH.
  - destruct Hv as (_ & Hn & _ & Hval & _).
    apply all_chars_app; [|split; [done|]].
    + eapply FileFacts.all_chars_impl; [|exact Hn].
      intros c Hc'. unfold not_space_eq in Hc'.
      apply negb_true_iff, orb_false_iff in Hc' as [Hs _].
      apply negb_true_iff. unfold Chars.is_space in Hs.
      by repeat (apply orb_false_iff in Hs as [Hs ?]).
    + exact Hval.
Qed.

(** X24.  With distinct names, as the merge leaves them, the sorted dump
    ([sort.Strings] on the names, then a lookup of each in the map from
    names to assignments) holds the same assignments, each once, in
    increasing order of their names. *)
Theorem sort_dump_sorted (vars : list envvar) :
  NoDup (map name vars) →
  Output.sort_dump vars ≡ₚ vars ∧ StronglySorted by_name (Output.sort_dump vars).
Proof.
  intros Hnd. destruct (sort_dump_perm vars Hnd) as [Hp Hn].
  split; [done|]. apply sorted_by_name. rewrite Hn. apply SortStrings_sorted.
Qed.

Lemma sort_dump_sorted_witness :
  Output.sort_dump MoreSamples.two_vars ≡ₚ MoreSamples.two_vars ∧
  StronglySorted by_name (Output.sort_dump MoreSamples.two_vars).
Proof.
  apply sort_dump_sorted. apply (bool_decide_unpack (NoDup _)). reflexivity.
Defined.

(** X25.  Mode [values] with one key, written as text.  For the name of an
    assignment of the merged list, the value of that assignment is
    written, on a line of its own, and nothing is reported.  For a key the
    list does not hold, the process environment is asked: when it has no
    value for the key, nothing is written and the key is reported as not
    set; when it has one, that value is read by [parsevar] as if it were
    an assignment, so that what is written is the part of it after its
    first equals sign. *)
Theorem values_mode_lookup (getenv base64 : string → string) (sorted : bool)
  (vars : list envvar) :
  (∀ v, NoDup (map name vars) → v ∈ vars →
     Output.dump_vars getenv base64 Cli.values Cli.textoutput sorted vars [name v]
     = Output.Written (val v +:+ String Chars.nl "") []) ∧
  (∀ key, key ∉ map name vars →
     Output.dump_vars getenv base64 Cli.values Cli.textoutput sorted vars [key]
     = if String.eqb (getenv key) "" then Output.Written "" [key]
       else Output.Written (val (parsevar (getenv key)) +:+ String Chars.nl "") []).
Proof.
  split.
  - intros v Hnd Hv. unfold Output.dump_vars, Output.select, Output.lookup_key.
    simpl. rewrite (filter_named vars v Hnd Hv). simpl.
    destruct sorted; by rewrite ?sort_dump_one, print_one_value.
  - intros key Hk. unfold Output.dump_vars, Output.select, Output.lookup_key.
    simpl. rewrite (filter_unnamed vars key Hk).
    destruct (String.eqb (getenv key) ""); simpl.
    + by destruct sorted.
    + destruct sorted; by rewrite ?sort_dump_one, print_one_value.
Qed.

Lemma values_mode_lookup_witness :
  Output.dump_vars MoreSamples.no_env MoreSamples.no_env Cli.values Cli.textoutput
    true MoreSamples.two_vars ["A"]
    = Output.Written ("1" +:+ String Chars.nl "") [] ∧
  Output.dump_vars MoreSamples.no_env MoreSamples.no_env Cli.values Cli.textoutput
    true MoreSamples.two_vars ["C"]
    = Output.Written "" ["C"].
Proof.
  split.
  - apply (proj1 (values_mode_lookup MoreSamples.no_env MoreSamples.no_env true
                    MoreSamples.two_vars) (mk_envvar "A" "1" false false)).
    + apply (bool_decide_unpack (NoDup _)). reflexivity.
    + apply (bool_decide_unpack (_ ∈ _)). reflexivity.
  - apply (proj2 (values_mode_lookup MoreSamples.no_env MoreSamples.no_env true
                    MoreSamples.two_vars) "C").
    apply (bool_decide_unpack (_ ∉ _)). reflexivity.
Defined.

(** X26.  A text dump can be read back.  When the assignments written in
    mode [dump] as text have names that are not empty, hold no white space
    and no equals sign and do not begin with a hash, values that hold no
    newline and do not end with a carriage return, and lines (name, equals
    sign, value) of less than 65536 bytes, which the scanner gets through,
    [parseFile] without [-strict-vars] reads the text back to the same
    names and values, in the same order. *)
Theorem dump_reads_back (w : world) (fl : flags) (src : varsource)
  (base64 : string → string) (vars : list envvar) :
  alphanumeric fl = false → Forall dumpable vars →
  open_file w (data src)
    = Some (Output.print_vars base64 Cli.dump Cli.textoutput vars) →
  parseFile w fl src
  = ([], inr (map (λ v, mk_envvar (name v) (val v) false false) vars)).
Proof.
  intros Hfl Hvars Hopen. unfold parseFile. rewrite Hopen, Hfl.
  by rewrite read_back.
Qed.

Lemma dump_reads_back_witness :
  parseFile MoreSamples.dump_world Samples.fl0 MoreSamples.strict_file
  = ([], inr (map (λ v, mk_envvar (name v) (val v) false false) MoreSamples.two_vars)).
Proof.
  apply (dump_reads_back MoreSamples.dump_world Samples.fl0 MoreSamples.strict_file
           MoreSamples.no_env MoreSamples.two_vars).
  - reflexivity.
  - apply Forall_cons. split; [by repeat split|].
    apply Forall_cons. split; [by repeat split|]. constructor.
  - reflexivity.
Defined.

End DumpFacts.

(** ** Interpolation: what a reference is replaced by *)

Module InterpFacts.
Import Re Dotenv Notions MoreNotions.
Import StrFacts MatchFacts.

Section Prev.
Context {A : Type}.

Lemma star_loop_prev (body : option ascii → string → caps → @cont A → option A)
  (g : bool) (k k' : @cont A) :
  (∀ prev prev' s c (k1 k2 : @cont A),
     (∀ p p' s' c', k1 p s' c' = k2 p' s' c') → body prev s c k1 = body prev' s c k2) →
  (∀ p p' s c, k p s c = k' p' s c) →
  ∀ n prev prev' s c,
  star_loop body g k n prev s c = star_loop body g k' n prev' s c.
Proof.
  intros Hbody Hk. induction n as [|n IH]; intros prev prev' s c; cbn [star_loop].
  { apply Hk. }
  rewrite (Hk prev prev' s c).
  rewrite (Hbody prev prev' s c _
             (λ p' s' c', if (String.length s' <? String.length s)%nat
                          then star_loop body g k' n p' s' c' else None)); [done|].
  intros p p' s' c'. destruct (String.length s' <? String.length s)%nat; [apply IH | done].
Qed.

(** A pattern without [^] and [\b] matches the same whatever comes before
    the position. *)
Lemma rmatch_prev (r : regex) :
  no_anchor r → ∀ prev prev' s c (k k' : @cont A),
  (∀ p p' s' c', k p s' c' = k' p' s' c') →
  rmatch r prev s c k = rmatch r prev' s c k'.
Proof.
  induction r as [| | | |a|p|r1 IH1 r2 IH2|r1 IH1 r2 IH2|g r IH|i r IH];
    intros Hr prev prev' s c k k' Hk; cbn [rmatch].
  - destruct Hr.
  - destruct s; [apply Hk | done].
  - destruct Hr.
  - apply Hk.
  - destruct s as [|b s]; [done|]. destruct (Ascii.eqb b a); [apply Hk | done].
  - destruct s as [|b s]; [done|]. destruct (p b); [apply Hk | done].
  - destruct Hr as [H1 H2]. apply (IH1 H1). intros. by apply (IH2 H2).
  - destruct Hr as [H1 H2].
    rewrite (IH1 H1 prev prev' s c k k' Hk), (IH2 H2 prev prev' s c k k' Hk). done.
  - apply star_loop_prev; [|done]. intros. by apply IH.
  - apply (IH Hr). intros. apply Hk.
Qed.

End Prev.

Lemma match_here_prev (r : regex) (prev prev' : option ascii) (s : string) :
  no_anchor r → match_here r prev s = match_here r prev' s.
Proof. intros Hr. unfold match_here. by apply rmatch_prev. Qed.

Section Replace.
Variable r : regex.
Variable f : string → string.
Hypothesis r_no_anchor : no_anchor r.

Lemma replace_from_prev (n : nat) (prev prev' : option ascii) (s : string) :
  replace_from r f n prev s = replace_from r f n prev' s.
Proof.
  destruct s as [|b s], n as [|n]; cbn [replace_from]; try done.
  by rewrite (match_here_prev r prev prev').
Qed.

Lemma replace_skip (m s : string) :
  ∀ prev prev',
  replace_from r f (String.length m) prev (m +:+ s) = replace_from r f 0 prev' s.
Proof.
  induction m as [|b m IH]; intros prev prev'.
  - rewrite str_app_nil_l. apply replace_from_prev.
  - rewrite str_app_cons. cbn [String.length replace_from]. apply IH.
Qed.

(** A match is replaced by [f] of its text, and the search goes on after
    it. *)
Lemma replace_match (m rest : string) (cps : caps) (prev prev' : option ascii) :
  m ≠ "" → match_here r prev (m +:+ rest) = Some (rest, cps) →
  replace_from r f 0 prev (m +:+ rest) = f m +:+ replace_from r f 0 prev' rest.
Proof.
  intros Hm Hmatch. destruct m as [|b m]; [done|].
  rewrite str_app_cons in *. cbn [replace_from]. rewrite Hmatch.
  assert (Hlen : String.length (String b (m +:+ rest)) - String.length rest
                 = S (String.length m)).
  { cbn [String.length]. rewrite str_length_app. lia. }
  rewrite Hlen. rewrite <- str_app_cons, consumed_app. f_equal.
  apply replace_skip.
Qed.
End Replace.

Lemma pattern_no_anchor (strict : bool) : no_anchor (pattern_of strict).
Proof. destruct strict; cbv; tauto. Qed.

(** The text before the first dollar sign is kept. *)
Lemma replace_plain (strict : bool) (f : string → string) (pre s : string) :
  has_char "$" pre = false →
  ∀ prev prev',
  replace_from (pattern_of strict) f 0 prev (pre +:+ s)
  = pre +:+ replace_from (pattern_of strict) f 0 prev' s.
Proof.
  induction pre as [|b pre IH]; intros Hpre prev prev'.
  - rewrite !str_app_nil_l. apply replace_from_prev, pattern_no_anchor.
  - simpl in Hpre. apply orb_false_iff in Hpre as [Hb Hpre].
    rewrite !str_app_cons. cbn [replace_from].
    assert (match_here (pattern_of strict) prev (String b (pre +:+ s)) = None) as ->.
    { destruct strict; by apply SubstMore.match_here_first. }
    by rewrite (IH Hpre (Some b) prev').
Qed.

Lemma not_brace (n : string) :
  has_char "}" n = false →
  within (λ c, negb (existsb (Ascii.eqb c) ["}"%char])) n.
Proof.
  induction n as [|b n IH]; [done|]. simpl. intros [Hb Hn]%orb_false_iff.
  split; [by rewrite Hb | by apply IH].
Qed.

(** A name in braces. *)
Lemma braced_here {A} (i : nat) (n post : string) (prev : option ascii) (c : caps)
  (k : @cont A) (x : A) :
  n ≠ "" → has_char "}" n = false →
  (∀ p, k p post ((i, n) :: c) = Some x) →
  rmatch (braced i) prev (String "{" (n +:+ String "}" post)) c k = Some x.
Proof.
  intros Hne Hn Hk. unfold braced, Plus, NoneOf.
  rewrite StarFacts.rmatch_seq, rmatch_chr, StarFacts.rmatch_seq, StarFacts.rmatch_grp.
  rewrite StarFacts.rmatch_seq.
  destruct n as [|b n]; [done|]. pose proof (not_brace _ Hn) as [Hb Hw].
  rewrite str_app_cons, rmatch_cls by done.
  apply star_run; [done|done|]. intros prev1.
  by rewrite rmatch_chr, <- str_app_cons, consumed_app.
Qed.

Lemma braced_match (strict : bool) (n post : string) (prev : option ascii) :
  n ≠ "" → has_char "}" n = false →
  match_here (pattern_of strict) prev (String "$" (String "{" (n +:+ String "}" post)))
  = Some (post, [(1, n)]).
Proof.
  intros Hne Hn. unfold match_here. destruct strict; simpl pattern_of.
  - unfold tointerp. rewrite StarFacts.rmatch_seq, rmatch_chr.
    by apply braced_here.
  - unfold anyinterp. rewrite StarFacts.rmatch_seq, rmatch_chr, rmatch_alt.
    by rewrite (braced_here 1 n post _ _ _ (post, [(1, n)])).
Qed.

Lemma find_here (r : regex) (s : string) (res : string * caps) :
  match_here r None s = Some res → FindStringSubmatch r s = Some (submatches r s res).
Proof.
  intros H. unfold FindStringSubmatch. destruct s; cbn [find_from]; by rewrite H.
Qed.

Lemma resolve_braced (strict : bool) (vals : gmap string string) (n : string) :
  n ≠ "" → has_char "}" n = false →
  resolve (pattern_of strict) vals (String "$" (String "{" (n +:+ String "}" "")))
  = default "" (vals !! n).
Proof.
  intros Hne Hn. unfold resolve.
  rewrite (find_here _ _ _ (braced_match strict n "" None Hne Hn)).
  unfold submatches. destruct strict; simpl pattern_of.
  - assert (ngroups tointerp = 1) as -> by done. done.
  - assert (ngroups anyinterp = 2) as -> by done. cbn [seq map snd group Nat.eqb].
    destruct n; [done|]. done.
Qed.

(** A name after the dollar sign, for the pattern that allows it. *)
Lemma simple_match (n post : string) (prev : option ascii) :
  n ≠ "" → within simple_char n → stops simple_char post →
  match_here anyinterp prev (String "$" (n +:+ post)) = Some (post, [(2, n)]).
Proof.
  intros Hne Hn Hpost. unfold match_here, anyinterp.
  rewrite StarFacts.rmatch_seq, rmatch_chr, rmatch_alt.
  destruct n as [|b n]; [done|]. destruct Hn as [Hb Hn]. rewrite str_app_cons.
  assert (Hbrace : Ascii.eqb "{" b = false).
  { destruct (Ascii.eqb_spec "{" b) as [<-|]; done. }
  unfold braced at 1. rewrite StarFacts.rmatch_seq, rmatch_chr_stop by done.
  unfold Plus. rewrite StarFacts.rmatch_grp, StarFacts.rmatch_seq, rmatch_cls by done.
  apply star_run; [done|done|]. intros prev1.
  by rewrite <- str_app_cons, consumed_app.
Qed.

Lemma resolve_simple (vals : gmap string string) (n : string) :
  n ≠ "" → within simple_char n →
  resolve anyinterp vals (String "$" n) = default "" (vals !! n).
Proof.
  intros Hne Hn. unfold resolve.
  pose proof (simple_match n "" None Hne Hn I) as H. rewrite str_app_nil_r in H.
  rewrite (find_here _ _ _ H). unfold submatches.
  assert (ngroups anyinterp = 2) as -> by done. done.
Qed.

Lemma strict_no_match (s : string) (prev : option ascii) :
  stops (Ascii.eqb "{") s → match_here tointerp prev (String "$" s) = None.
Proof.
  intros Hs. unfold match_here, tointerp, braced.
  by rewrite StarFacts.rmatch_seq, rmatch_chr, StarFacts.rmatch_seq, rmatch_chr_stop.
Qed.

(** X28.  A reference in braces.  In a value that begins with a text
    without dollar sign and then holds a dollar sign, a name in braces
    (not empty, without closing brace) and more text, both patterns
    replace the reference by the value the table has for the name, by
    nothing when the table has none, keep the text before it, and go on
    with the text after it. *)
Theorem interpolate_braced (strict : bool) (vals : gmap string string)
  (pre n post : string) :
  has_char "$" pre = false → n ≠ "" → has_char "}" n = false →
  ReplaceAllStringFunc (pattern_of strict)
    (pre +:+ String "$" (String "{" (n +:+ String "}" post)))
    (resolve (pattern_of strict) vals)
  = pre +:+ default "" (vals !! n)
        +:+ ReplaceAllStringFunc (pattern_of strict) post
              (resolve (pattern_of strict) vals).
Proof.
  intros Hpre Hne Hn. unfold ReplaceAllStringFunc.
  rewrite (replace_plain strict _ pre _ Hpre None None). f_equal.
  assert (Hsplit : String "$" (String "{" (n +:+ String "}" post))
                   = String "$" (String "{" (n +:+ String "}" "")) +:+ post).
  { rewrite !str_app_cons. do 2 f_equal. rewrite str_app_assoc.
    by rewrite str_app_cons, str_app_nil_l. }
  rewrite Hsplit.
  rewrite (replace_match _ _ (pattern_no_anchor strict) _ post [(1, n)] None None);
    [|done|].
  - by rewrite resolve_braced.
  - rewrite <- Hsplit. by apply braced_match.
Qed.

(** X29.  A reference without braces.  After a text without dollar sign,
    a dollar sign and a name of letters, digits, underscores and dots that
    ends where the text after it begins is replaced, under the pattern
    [anyinterp], by the value the table has for the name (by nothing when
    it has none); under the pattern [tointerp] of [-interpolate-strict]
    the dollar sign and the name are kept as they are. *)
Theorem interpolate_simple (vals : gmap string string) (f : string → string)
  (pre n post : string) :
  has_char "$" pre = false → n ≠ "" → within simple_char n →
  stops simple_char post →
  ReplaceAllStringFunc anyinterp (pre +:+ String "$" (n +:+ post))
    (resolve anyinterp vals)
  = pre +:+ default "" (vals !! n)
        +:+ ReplaceAllStringFunc anyinterp post (resolve anyinterp vals) ∧
  ReplaceAllStringFunc tointerp (pre +:+ String "$" (n +:+ post)) f
  = pre +:+ String "$" n +:+ ReplaceAllStringFunc tointerp post f.
Proof.
  intros Hpre Hne Hn Hpost. unfold ReplaceAllStringFunc. split.
  - rewrite (replace_plain false _ pre _ Hpre None None). f_equal.
    rewrite <- str_app_cons.
    rewrite (replace_match _ _ (pattern_no_anchor false) _ post [(2, n)] None None);
      [|done|].
    + by rewrite resolve_simple.
    + rewrite str_app_cons. by apply simple_match.
  - rewrite (replace_plain true _ pre _ Hpre None None). f_equal.
    cbn [replace_from]. rewrite strict_no_match.
    + rewrite str_app_cons. f_equal.
      assert (Hn' : has_char "$" n = false).
      { eapply FileFacts.all_chars_has_char; [|exact Hn]. done. }
      by rewrite (replace_plain true _ n _ Hn' (Some "$"%char) None).
    + destruct n as [|b n]; [done|]. rewrite str_app_cons.
      destruct Hn as [Hb _]. change (Ascii.eqb "{" b = false).
      destruct (Ascii.eqb_spec "{" b) as [<-|]; [|done].
      by vm_compute in Hb.
Qed.

Lemma interpolate_braced_witness :
  ReplaceAllStringFunc anyinterp "${HOME}/bin" (resolve anyinterp MoreSamples.home_table)
  = "" +:+ default "" (MoreSamples.home_table !! "HOME")
       +:+ ReplaceAllStringFunc anyinterp "/bin" (resolve anyinterp MoreSamples.home_table).
Proof. apply (interpolate_braced false MoreSamples.home_table "" "HOME" "/bin"); done. Defined.

Lemma interpolate_simple_witness :
  ReplaceAllStringFunc anyinterp "$HOME/bin" (resolve anyinterp MoreSamples.home_table)
  = "" +:+ default "" (MoreSamples.home_table !! "HOME")
       +:+ ReplaceAllStringFunc anyinterp "/bin" (resolve anyinterp MoreSamples.home_table) ∧
  ReplaceAllStringFunc tointerp "$HOME/bin" (resolve tointerp MoreSamples.home_table)
  = "" +:+ "$HOME" +:+ ReplaceAllStringFunc tointerp "/bin"
                         (resolve tointerp MoreSamples.home_table).
Proof.
  apply (interpolate_simple MoreSamples.home_table
           (resolve tointerp MoreSamples.home_table) "" "HOME" "/bin");
    [done | done | by repeat split | done].
Defined.

End InterpFacts.
